(** * mongoose-query-data-table: the query helpers of [src/index.ts]

    A shallow embedding of the plugin's query extension: the filter
    compiler [dataTableFilter], the pagination calculator
    [dataTablePaginate] and the distinct-value pipeline of
    [dataTableGetFilterList], with the properties of the specification
    stated and settled against them.

    Conventions of the embedding.
    - A JavaScript string is a list of code units; the code units are
      those below 256 ([ascii]), which covers every character the filter
      language gives a meaning to.
    - A function that may throw returns a [result].
    - A JavaScript number is a double: a [spec_float] of the Standard
      Library, with the operations of IEEE 754 for 53 bits of
      precision.
    - The query object of the document mapper is symbolic: a [Query] is
      the chain of calls made on it. *)

From Stdlib Require Import List Ascii String ZArith Bool Arith Lia.
From Stdlib Require Import Permutation Sorted SpecFloat.
Import ListNotations.

Local Open Scope string_scope.
Local Open Scope list_scope.
Local Open Scope nat_scope.

(** ** Strings *)

Definition str := list ascii.

Coercion list_ascii_of_string : string >-> list.

Definition chr_eqb (a b : ascii) : bool := Ascii.eqb a b.

Fixpoint str_eqb (a b : str) : bool :=
  match a, b with
  | [], [] => true
  | x :: a', y :: b' => chr_eqb x y && str_eqb a' b'
  | _, _ => false
  end.

Definition code (c : ascii) : nat := nat_of_ascii c.

(** [String.prototype.split] with a one-character separator. *)
Fixpoint split (sep : ascii) (s : str) : list str :=
  match s with
  | [] => [[]]
  | c :: s' =>
      if chr_eqb c sep then [] :: split sep s'
      else match split sep s' with
           | h :: t => (c :: h) :: t
           | [] => [[c]]
           end
  end.

(** White space and line terminators among the code units below 256:
    TAB, LF, VT, FF, CR, SP and NBSP. *)
Definition is_space (c : ascii) : bool :=
  let n := code c in
  ((9 <=? n) && (n <=? 13)) || (n =? 32) || (n =? 160).

Fixpoint trim_start (s : str) : str :=
  match s with
  | c :: s' => if is_space c then trim_start s' else s
  | [] => []
  end.

(** [String.prototype.trim]. *)
Definition trim (s : str) : str := rev (trim_start (rev (trim_start s))).

(** [Array.prototype.includes] on an array of strings. *)
Definition includes (l : list str) (s : str) : bool := existsb (str_eqb s) l.

(** ** Exceptions *)

Inductive exn : Type := TypeError | SyntaxError.

Inductive result (A : Type) : Type :=
| Ok (a : A)
| Throw (e : exn).

Arguments Ok {A} a.
Arguments Throw {A} e.

Definition bind {A B : Type} (m : result A) (f : A -> result B) : result B :=
  match m with
  | Ok a => f a
  | Throw e => Throw e
  end.

Notation "x <- m ;; k" := (bind m (fun x => k))
  (at level 61, m at next level, right associativity).

(** [Array.prototype.map] with a callback that may throw: the elements
    are visited in order and the first exception ends the traversal. *)
Fixpoint mapM {A B : Type} (f : A -> result B) (l : list A) : result (list B) :=
  match l with
  | [] => Ok []
  | a :: l' => b <- f a ;; bs <- mapM f l' ;; Ok (b :: bs)
  end.

(** ** Regular expressions

    The fragment of the pattern language that the source's two regular
    expression literals use, with the backtracking semantics of the
    language: alternatives are tried left to right, repetition is
    greedy, and a failure of the rest of the pattern makes the matcher
    try the next shorter repetition. *)

Module Regex.

Inductive regex : Type :=
| Chr (p : ascii -> bool)            (* one character of a class *)
| Star (p : ascii -> bool)           (* class*, greedy *)
| Plus (p : ascii -> bool)           (* class+, greedy *)
| Seq (r1 r2 : regex)
| Alt (r1 r2 : regex)
| Group (n : nat) (r : regex)        (* the n-th capturing group *)
| Bol                                (* ^ *)
| Eol                                (* $ *)
| Eps.                               (* the empty pattern *)

(** The captured groups, most recent first. *)
Definition captures := list (nat * str).

Fixpoint capture (n : nat) (c : captures) : option str :=
  match c with
  | [] => None
  | (m, s) :: c' => if Nat.eqb n m then Some s else capture n c'
  end.

(** The text consumed between two positions, given the (reversed) input
    read so far at each of them. *)
Definition consumed (pre pre' : str) : str :=
  rev (firstn (List.length pre' - List.length pre) pre').

Section Matcher.
Context {A : Type}.

(** A continuation receives the input read so far (reversed), the
    input left and the captures. *)
Definition cont := str -> str -> captures -> option A.

Fixpoint star (p : ascii -> bool) (pre s : str) (c : captures) (k : cont)
  : option A :=
  match s with
  | x :: s' =>
      if p x then
        match star p (x :: pre) s' c k with
        | Some a => Some a
        | None => k pre s c
        end
      else k pre s c
  | [] => k pre s c
  end.

Fixpoint rmatch (r : regex) (pre s : str) (c : captures) (k : cont)
  : option A :=
  match r with
  | Chr p =>
      match s with
      | x :: s' => if p x then k (x :: pre) s' c else None
      | [] => None
      end
  | Star p => star p pre s c k
  | Plus p =>
      match s with
      | x :: s' => if p x then star p (x :: pre) s' c k else None
      | [] => None
      end
  | Seq r1 r2 =>
      rmatch r1 pre s c (fun pre' s' c' => rmatch r2 pre' s' c' k)
  | Alt r1 r2 =>
      match rmatch r1 pre s c k with
      | Some a => Some a
      | None => rmatch r2 pre s c k
      end
  | Group n r =>
      rmatch r pre s c
        (fun pre' s' c' => k pre' s' ((n, consumed pre pre') :: c'))
  | Bol => match pre with [] => k pre s c | _ => None end
  | Eol => match s with [] => k pre s c | _ => None end
  | Eps => k pre s c
  end.
End Matcher.

(** A successful match: the matched text, the input read up to its end
    (reversed), the input left after it and the captures. *)
Record found : Type := mkFound {
  matched : str;
  upto : str;
  rest : str;
  groups : captures
}.

(** A match attempt at one position. *)
Definition exec_at (r : regex) (pre s : str) : option found :=
  rmatch r pre s []
    (fun pre' s' c => Some (mkFound (consumed pre pre') pre' s' c)).

(** The leftmost match at or after the current position. *)
Fixpoint search (r : regex) (pre s : str) : option found :=
  match exec_at r pre s with
  | Some m => Some m
  | None =>
      match s with
      | [] => None
      | x :: s' => search r (x :: pre) s'
      end
  end.

(** The successive matches of a global regular expression; after an
    empty match the position advances by one code unit. *)
Fixpoint match_all (fuel : nat) (r : regex) (pre s : str) : list str :=
  match fuel with
  | 0 => []
  | S fuel' =>
      match search r pre s with
      | None => []
      | Some m =>
          matched m ::
          match matched m, rest m with
          | [], [] => []
          | [], x :: s' => match_all fuel' r (x :: upto m) s'
          | _ :: _, s' => match_all fuel' r (upto m) s'
          end
      end
  end.

(** [String.prototype.match] with a regular expression that has the
    [g] flag: every match, or [null] when there is none. *)
Definition match_global (r : regex) (s : str) : option (list str) :=
  match match_all (S (List.length s)) r [] s with
  | [] => None
  | l => Some l
  end.

(** [String.prototype.match] with a regular expression without the [g]
    flag: the first match with its groups, or [null]. *)
Definition match_first (r : regex) (s : str) : option found := search r [] s.

(** Character classes. *)
Definition one_of (cs : str) (c : ascii) : bool := existsb (chr_eqb c) cs.
Definition none_of (cs : str) (c : ascii) : bool := negb (one_of cs c).
Definition is_chr (x : ascii) (c : ascii) : bool := chr_eqb c x.

(** The class of [.]: everything but a line terminator (LF and CR among
    the code units below 256). *)
Definition dot (c : ascii) : bool := negb ((code c =? 10) || (code c =? 13)).

End Regex.

Import Regex.

(** ** Values of the compiled filter *)

(** A regular expression object, as built by [new RegExp(source, flags)]. *)
Record RegExp : Type := mkRegExp { source : str; flags : str }.

(** The operand of a comparison: [params[0]] or the whole of [params];
    [NoValue] is the [undefined] that [params[0]] gives on an empty
    array. *)
Inductive opvalue : Type :=
| One (v : str)
| Many (vs : list str)
| NoValue.

(** The value a predicate gives to its field: a string, a regular
    expression, [{ $operator: operand }], or [undefined]. *)
Inductive payload : Type :=
| PStr (v : str)
| PRegExp (re : RegExp)
| POp (operator : str) (v : opvalue)
| PUndefined.

(** The other values that an element of [$and] can be. *)
Inductive jsvalue : Type :=
| StringObject (s : str)        (* the wrapper object of a string *)
| Boolean (b : bool)
| Primitive (s : str).          (* a string that is not a predicate *)

(** An element of a [$and] array: the predicate [{ [field]: payload }]
    or another value. *)
Inductive entry : Type :=
| Pred (field : str) (p : payload)
| Value (v : jsvalue).

(** JavaScript numbers: the doubles of IEEE 754 (binary64), with the
    two zeros, the two infinities and [NaN]. *)
Definition number : Type := spec_float.

Definition NaN : number := S754_nan.

(** The Number value of an integer, as a numeric literal of the source
    or a conversion gives it: the nearest double, the one with the
    even mantissa when two are as near, and an infinity beyond the
    range. *)
Definition Num (z : Z) : number := binary_normalize 53 1024 z 0 false.

(** The query, as the chain of the calls made on it. [Find q g] is
    [q.find({ $or: [{ $and: g1 }, ...] })]. *)
Inductive Query : Type :=
| AllDocuments
| Find (q : Query) (or : list (list entry))
| Skip (q : Query) (n : number)
| Limit (q : Query) (n : number).

(** ** dataTableFilter *)

(** The literal [matchFilters], global: group 1 is either group 2 (one
    of [,] and [;]) or group 3 (one or more characters other than
    parentheses, an opening parenthesis, one or more characters other
    than a closing parenthesis, a closing parenthesis). *)
Definition matchFilters : regex :=
  Group 1
    (Alt (Group 2 (Chr (one_of ",;")))
         (Group 3 (Seq (Plus (none_of "()"))
                  (Seq (Chr (is_chr "("%char))
                  (Seq (Plus (none_of ")"))
                       (Chr (is_chr ")"%char))))))).

(** The literal [matchParams]: the start of the input, group 1 (a
    greedy run of [.]), an opening parenthesis, group 2 (a greedy run
    of [.]), a closing parenthesis, the end of the input. *)
Definition matchParams : regex :=
  Seq Bol
 (Seq (Group 1 (Star dot))
 (Seq (Chr (is_chr "("%char))
 (Seq (Group 2 (Star dot))
 (Seq (Chr (is_chr ")"%char))
      Eol)))).

Definition allowedOperators : list str :=
  [ "lte" : str; "lt" : str; "gt" : str; "gte" : str; "in" : str;
    "nin" : str; "eq" : str; "ne" : str; "exists" : str; "type" : str ].

(** The properties that the object literal [operations] inherits from
    [Object.prototype]. *)
Definition Object_prototype : list str :=
  [ "constructor" : str; "__defineGetter__" : str; "__defineSetter__" : str;
    "hasOwnProperty" : str; "__lookupGetter__" : str;
    "__lookupSetter__" : str; "isPrototypeOf" : str;
    "propertyIsEnumerable" : str; "toString" : str; "valueOf" : str;
    "__proto__" : str; "toLocaleString" : str ].

(** What [operations[operation]] evaluates to when it is not
    [undefined]: one of the two own methods, or an inherited property. *)
Inductive property : Type :=
| Match
| Contains
| Inherited (name : str).

Definition operations_get (operation : str) : option property :=
  if str_eqb operation "match" then Some Match
  else if str_eqb operation "contains" then Some Contains
  else if includes Object_prototype operation then Some (Inherited operation)
  else None.

(** The loop that pairs each filter with the delimiter before it:
    [for (i = 0; i < filters.length; i += 2)], with [delimiter] the
    value of [filters[i - 1]]. The result is [orBlocks] and
    [andBlocks] when the loop ends. *)
Fixpoint blocks_loop (delimiter : option str) (filters : list str)
    (orBlocks : list (list str)) (andBlocks : list str)
  : list (list str) * list str :=
  match filters with
  | [] => (orBlocks, andBlocks)
  | filter :: after =>
      let '(orBlocks, andBlocks) :=
        match delimiter with
        | Some d => if str_eqb d ";" then (orBlocks ++ [andBlocks], [])
                    else (orBlocks, andBlocks)
        | None => (orBlocks, andBlocks)
        end in
      let andBlocks := andBlocks ++ [filter] in
      match after with
      | [] => (orBlocks, andBlocks)
      | d :: after' => blocks_loop (Some d) after' orBlocks andBlocks
      end
  end.

(** [if (andBlocks.length) orBlocks.push(andBlocks)] *)
Definition push_last (state : list (list str) * list str) : list (list str) :=
  let '(orBlocks, andBlocks) := state in
  match andBlocks with
  | [] => orBlocks
  | _ => orBlocks ++ [andBlocks]
  end.

(** [orBlocks] when the compilation starts. *)
Definition blocks (filters : list str) : list (list str) :=
  push_last (blocks_loop None filters [] []).

Definition is_nil {A : Type} (l : list A) : bool :=
  match l with [] => true | _ => false end.

(** [parsed.filter((v) => v !== null)] *)
Fixpoint non_null {A : Type} (l : list (option A)) : list A :=
  match l with
  | [] => []
  | Some a :: l' => a :: non_null l'
  | None :: l' => non_null l'
  end.

Section Filter.

(** The pattern grammar of the engine: [pattern_ok p] when
    [new RegExp(p, flags)] accepts the pattern [p]. *)
Variable pattern_ok : str -> bool.

(** [new RegExp(pattern, flags)], for the flags the source uses. *)
Definition RegExp_new (pattern flags : str) : result RegExp :=
  if pattern_ok pattern then Ok (mkRegExp pattern flags)
  else Throw SyntaxError.

(** [operations.match(field, value, flags = '')], applied to the
    arguments [args] after [field]. *)
Definition op_match (field : str) (args : list str) : result entry :=
  let value := nth_error args 0 in
  let flags := match nth_error args 1 with Some f => f | None => [] end in
  if str_eqb flags "i" then
    let value := match value with Some v => v | None => "undefined" : str end in
    re <- RegExp_new ("^" ++ value ++ "$") "i" ;;
    Ok (Pred field (PRegExp re))
  else
    Ok (Pred field (match value with Some v => PStr v | None => PUndefined end)).

(** [operations.contains(field, value, flags = '')]. *)
Definition op_contains (field : str) (args : list str) : result entry :=
  let value := match nth_error args 0 with Some v => v | None => [] end in
  let flags := match nth_error args 1 with Some f => f | None => [] end in
  re <- RegExp_new value (if str_eqb flags "i" then "ig" else "g") ;;
  Ok (Pred field (PRegExp re)).

(** The call [operator(field, ...params)] of an inherited property.
    The call has no receiver (the module is strict code): [Object]
    wraps the string, [isPrototypeOf] answers [false] for a string,
    [toString] names the missing receiver; [__proto__] is an object
    that is not callable, and the other methods convert the missing
    receiver to an object, which throws. *)
Definition call_inherited (name field : str) : result entry :=
  if str_eqb name "constructor" then Ok (Value (StringObject field))
  else if str_eqb name "isPrototypeOf" then Ok (Value (Boolean false))
  else if str_eqb name "toString" then
    Ok (Value (Primitive "[object Undefined]"))
  else Throw TypeError.

Definition call (operator : property) (field : str) (params : list str)
  : result entry :=
  match operator with
  | Match => op_match field params
  | Contains => op_contains field params
  | Inherited name => call_inherited name field
  end.

(** The last [map] of [parsed]: one argument of the clause, split
    into its pieces, to a predicate or [null]. *)
Definition compile_params (field : str) (params : list str)
  : result (option entry) :=
  match params with
  | [] => Ok None
  | operation :: params =>
      if is_nil operation then Ok None
      else
        match operations_get operation with
        | Some operator => e <- call operator field params ;; Ok (Some e)
        | None =>
            if negb (includes allowedOperators operation) then Ok None
            else
              Ok (Some (Pred field
                (POp ("$" ++ operation)
                   (if 1 <? List.length params then Many params
                    else match params with
                         | v :: _ => One v
                         | [] => NoValue
                         end))))
        end
  end.

(** [params.length <= 1 ? ['match', params[0]] : params]; with no
    element, [params[0]] is [undefined], which as a last argument of a
    call is the same as no argument. *)
Definition default_match (params : list str) : list str :=
  if List.length params <=? 1 then ("match" : str) :: params else params.

(** The callback of [and.map]: one filter to its predicates. *)
Definition compile_filter (filter : str) : result (list entry) :=
  match match_first matchParams filter with
  | None => Ok []
  | Some matchResults =>
      match capture 1 (groups matchResults),
            capture 2 (groups matchResults) with
      | Some field, Some rawParams =>
          parsed <-
            mapM (compile_params field)
              (map default_match
                 (map (map trim)
                    (map (split ":") (split "," rawParams)))) ;;
          Ok (non_null parsed)
      | _, _ => Throw TypeError
      end
  end.

(** The callback of [orBlocks.map]: the value of [$and]. *)
Definition compile_and (and : list str) : result (list entry) :=
  l <- mapM compile_filter and ;; Ok (List.concat l).

Definition dataTableFilter (this : Query) (terms : str) : result Query :=
  if is_nil terms then Ok this
  else
    match match_global matchFilters terms with
    | None => Ok this
    | Some filters =>
        or <- mapM compile_and (blocks filters) ;;
        let or := filter (fun and => negb (is_nil and)) or in
        if is_nil or then Ok this else Ok (Find this or)
    end.

End Filter.

(** A pattern grammar for the examples. It is the grammar of the
    engine on the patterns without backslash, parenthesis, bracket and
    brace: such a pattern is accepted when each of its quantifiers
    [*], [+], [?] follows a character or [.], or (for [?]) follows
    another quantifier, which it makes lazy. It rejects the other
    patterns; of these, the examples only use patterns with an
    opening bracket that is never closed, which the engine rejects
    too. *)
Fixpoint plain_pattern_ok (quantifiable lazy : bool) (p : str) : bool :=
  match p with
  | [] => true
  | c :: p' =>
      if one_of "\()[]{}" c then false
      else if one_of "*+" c then quantifiable && plain_pattern_ok false true p'
      else if chr_eqb c "?"%char then
        (quantifiable && plain_pattern_ok false true p')
        || (lazy && plain_pattern_ok false false p')
      else if one_of "^$|" c then plain_pattern_ok false false p'
      else plain_pattern_ok true false p'
  end.

Definition plain_pattern (p : str) : bool := plain_pattern_ok false false p.

(** ** dataTablePaginate *)

(** [a - b] and [a * b]: the operations of IEEE 754 on doubles, which
    round the exact result to the nearest double. *)
Definition number_sub (a b : number) : number := SFsub 53 1024 a b.

Definition number_mul (a b : number) : number := SFmul 53 1024 a b.

(** [a < b]: false as soon as an operand is [NaN]. *)
Definition number_lt (a b : number) : bool := SFltb a b.

Definition digit (c : ascii) : option Z :=
  if (48 <=? code c) && (code c <=? 57) then Some (Z.of_nat (code c - 48))
  else None.

(** The value of the longest prefix of decimal digits, if it is not
    empty. *)
Fixpoint digits (acc : option Z) (s : str) : option Z :=
  match s with
  | [] => acc
  | c :: s' =>
      match digit c with
      | Some d =>
          digits (Some (10 * match acc with Some a => a | None => 0 end + d)%Z) s'
      | None => acc
      end
  end.

(** [Number.parseInt(s, 10)]: leading white space is skipped, a sign is
    read, then the longest run of decimal digits; [NaN] without a
    digit. The result is the double nearest to the integer that the
    digits write, with its sign, so [-0] for the digits of zero after
    a minus sign, and an infinity for an integer beyond the range.
    (The language lets an engine read the digits after the twentieth
    significant one as zeros; this is the reading that keeps them.) *)
Definition parseInt (s : str) : number :=
  let s := trim_start s in
  let '(negative, s) :=
    match s with
    | c :: s' =>
        if chr_eqb c "-"%char then (true, s')
        else if chr_eqb c "+"%char then (false, s')
        else (false, s)
    | [] => (false, s)
    end in
  match digits None s with
  | Some z => if negative then SFopp (Num z) else Num z
  | None => NaN
  end.

(** An argument of type [number | string] as the caller passes it:
    left out ([undefined]), [null], a number or a string. *)
Inductive arg : Type :=
| Absent
| Null
| ANumber (n : number)
| AString (s : str).

(** [options], after [{ defaultItemsPerPage: 10, ..._options }]. *)
Record Options : Type := mkOptions { defaultItemsPerPage : number }.

Definition default_options : Options := mkOptions (Num 10).

(** A default parameter value replaces [undefined] only. *)
Definition default_param (a : arg) (d : number) : arg :=
  match a with
  | Absent => ANumber d
  | _ => a
  end.

(** [typeof a === 'string' ? Number.parseInt(a, 10) : a ?? d] *)
Definition to_number (a : arg) (d : number) : number :=
  match a with
  | AString s => parseInt s
  | ANumber n => n
  | Absent | Null => d
  end.

Definition dataTablePaginate (options : Options) (this : Query)
    (_page _itemsPerPage : arg) : Query :=
  let _page := default_param _page (Num 1) in
  let _itemsPerPage := default_param _itemsPerPage (Num 0) in
  let page := number_sub (to_number _page (Num 1)) (Num 1) in
  let itemsPerPage := to_number _itemsPerPage (defaultItemsPerPage options) in
  let limit := if number_lt itemsPerPage (Num 0) then Num 0 else itemsPerPage in
  let skip :=
    number_mul (if number_lt page (Num 0) then Num 0 else page) limit in
  Limit (Skip this skip) limit.

(** ** dataTableGetFilterList *)

(** The values of a field: [null], scalars, and arrays. *)
#[warnings="-register-all"]
Inductive value : Type :=
| VNull
| VNum (z : Z)
| VStr (s : str)
| VArr (l : list value).

Fixpoint value_eqb (a b : value) {struct a} : bool :=
  match a, b with
  | VNull, VNull => true
  | VNum x, VNum y => Z.eqb x y
  | VStr x, VStr y => str_eqb x y
  | VArr x, VArr y =>
      (fix list_eqb (x y : list value) {struct x} : bool :=
         match x, y with
         | [], [] => true
         | v :: x', w :: y' => value_eqb v w && list_eqb x' y'
         | _, _ => false
         end) x y
  | _, _ => false
  end.

(** A row of the result: [{ count, value }]. *)
Record QueryFilterResult : Type := mkResult { count : nat; value_of : value }.

(** What [$unwind] makes of the value of the field: nothing of [null]
    and of an empty array, its elements of an array, and the value
    itself of any other value. *)
Definition unwind_value (v : value) : list value :=
  match v with
  | VNull => []
  | VArr l => l
  | _ => [v]
  end.

(** The stage [{ $unwind: '$field' }] on the rows, each row being the
    value of [field] if the row has one; a row without the field gives
    no row. *)
Definition unwind (rows : list (option value)) : list (option value) :=
  flat_map
    (fun row =>
       match row with
       | None => []
       | Some v => map Some (unwind_value v)
       end) rows.

(** The key of a row in [$group]: a missing field groups as [null]. *)
Definition group_key (row : option value) : value :=
  match row with
  | Some v => v
  | None => VNull
  end.

(** One more occurrence of [key] in the groups found so far. *)
Fixpoint add_to_group (key : value) (groups : list (value * nat))
  : list (value * nat) :=
  match groups with
  | [] => [(key, 1)]
  | (k, n) :: groups' =>
      if value_eqb k key then (k, S n) :: groups'
      else (k, n) :: add_to_group key groups'
  end.

(** The stage [{ $group: { _id: '$field', count: { $sum: 1 } } }]: the
    groups are listed in the order in which their keys first occur. *)
Definition group_count (rows : list (option value)) : list (value * nat) :=
  fold_left (fun groups row => add_to_group (group_key row) groups) rows [].

(** The keys of the groups. *)
Definition keys (groups : list (value * nat)) : list value := map fst groups.

(** The stage [{ $project: { _id: false, count: '$count', value: '$_id' } }]. *)
Definition project_result (groups : list (value * nat))
  : list QueryFilterResult :=
  map (fun g => mkResult (snd g) (fst g)) groups.

Section FilterList.

(** The documents of the collection, and the value that the store
    finds in a document for a field path, if any. *)
Variable document : Type.
Variable resolve : str -> document -> option value.

(** The comparison order of the store on values. *)
Variable value_leb : value -> value -> bool.

(** The stage [{ $project: { field: '$' + field } }]. *)
Definition project_field (field : str) (docs : list document)
  : list (option value) :=
  map (resolve field) docs.

Fixpoint insert_result (r : QueryFilterResult) (l : list QueryFilterResult)
  : list QueryFilterResult :=
  match l with
  | [] => [r]
  | x :: l' =>
      if value_leb (value_of r) (value_of x) then r :: l
      else x :: insert_result r l'
  end.

(** The stage [{ $sort: { value: 1 } }]. *)
Definition sort_value (l : list QueryFilterResult) : list QueryFilterResult :=
  fold_right insert_result [] l.

(** The rows that reach [$group]: the six [$unwind] stages after the
    projection. *)
Definition unwound (collection : list document) (field : str)
  : list (option value) :=
  unwind (unwind (unwind (unwind (unwind (unwind
    (project_field field collection)))))).

(** [this.model.aggregate([...])] on the documents of the model. *)
Definition dataTableGetFilterList (collection : list document) (field : str)
  : list QueryFilterResult :=
  sort_value (project_result (group_count (unwound collection field))).

End FilterList.

(** ** Notions used by the statements *)

(** *** The shape of a filter text *)

(** The clause [field(args)]. *)
Definition clause (field args : str) : str := field ++ "("%char :: args ++ [")"%char].

Definition is_delimiter (c : ascii) : bool := one_of ",;" c.

(** A field name that the lexer reads as the start of a clause: not
    empty, without parentheses, and not starting with a delimiter. *)
Definition field_ok (field : str) : bool :=
  match field with
  | [] => false
  | c :: _ => negb (is_delimiter c) && forallb (none_of "()") field
  end.

(** An argument list that the lexer reads up to its closing
    parenthesis: not empty and without a closing parenthesis. *)
Definition args_ok (args : str) : bool :=
  negb (is_nil args) && forallb (none_of ")") args.

(** A field name and an argument list that [matchParams] gives back as
    its two groups: no line terminator, and no opening parenthesis in
    the argument list. *)
Definition field_text (f : str) : bool := forallb dot f.
Definition args_text (a : str) : bool :=
  forallb dot a && forallb (none_of "(") a.

(** The rest of a filter text after its first clause: delimiters, each
    followed by a clause. *)
Fixpoint text (cs : list (ascii * (str * str))) : str :=
  match cs with
  | [] => []
  | (d, (f, a)) :: cs' => d :: clause f a ++ text cs'
  end.

Fixpoint tokens (cs : list (ascii * (str * str))) : list str :=
  match cs with
  | [] => []
  | (d, (f, a)) :: cs' => [d] :: clause f a :: tokens cs'
  end.

Definition clauses_ok (cs : list (ascii * (str * str))) : bool :=
  forallb (fun '(d, (f, a)) => is_delimiter d && field_ok f && args_ok a) cs.

(** The AND groups of a filter text, clause by clause: a [;] closes the
    current group and starts a new one with the clause that follows it,
    any other delimiter adds that clause to the current group. *)
Fixpoint and_groups (current : list str) (cs : list (ascii * (str * str)))
  : list (list str) :=
  match cs with
  | [] => [current]
  | (d, (f, a)) :: cs' =>
      if chr_eqb d ";"%char then current :: and_groups [clause f a] cs'
      else and_groups (current ++ [clause f a]) cs'
  end.

(** The query for the compiled groups: the groups without a predicate
    are left out, and without a group the query is unchanged. *)
Definition apply_groups (this : Query) (or : list (list entry)) : Query :=
  match filter (fun and => negb (is_nil and)) or with
  | [] => this
  | or' => Find this or'
  end.

Definition no_colon (s : str) : bool :=
  forallb (fun c => negb (chr_eqb c ":"%char)) s.

(** The operation names of the filter language. *)
Definition operation_names : list str :=
  ("match" : str) :: ("contains" : str) :: allowedOperators.

(** An operation name that is not one of the filter language and not a
    property that [operations] inherits. *)
Definition unknown (operation : str) : bool :=
  negb (includes operation_names operation)
  && negb (includes Object_prototype operation).

(** The argument [operation:v1:...:vn] of a clause. *)
Definition argument (operation : str) (vs : list str) : str :=
  operation ++ flat_map (fun v => ":"%char :: v) vs.

(** A piece of an argument that is read back as it is written: without
    colon, comma, parenthesis or line terminator, and without white
    space at its ends. *)
Definition piece_ok (v : str) : bool :=
  forallb (fun c => none_of ":,()" c && dot c) v
  && match v with [] => true | c :: _ => negb (is_space c) end
  && match rev v with [] => true | c :: _ => negb (is_space c) end.

(** One argument of a clause, from its text to its predicate, if it
    gives one. *)
Definition compile_argument (pattern_ok : str -> bool) (field argument : str)
  : result (list entry) :=
  r <- compile_params pattern_ok field
         (default_match (map trim (split ":" argument))) ;;
  Ok (match r with Some e => [e] | None => [] end).

(** *** The documents that a compiled filter accepts *)

(** The canonical form of a character under the [i] flag, for the
    characters below 128. *)
Definition canonicalize (c : ascii) : ascii :=
  if (97 <=? code c) && (code c <=? 122) then ascii_of_nat (code c - 32) else c.

(** The patterns made of the characters below 128 that are not syntax
    characters, of [.], [^] and [$]. *)
Fixpoint parse_plain (ignoreCase : bool) (p : str) : option regex :=
  match p with
  | [] => Some Eps
  | c :: p' =>
      match
        if chr_eqb c "^"%char then Some Bol
        else if chr_eqb c "$"%char then Some Eol
        else if chr_eqb c "."%char then Some (Chr dot)
        else if one_of "\*+?()[]{}|" c || (128 <=? code c) then None
        else if ignoreCase then
          Some (Chr (fun x => chr_eqb (canonicalize x) (canonicalize c)))
        else Some (Chr (is_chr c))
      with
      | Some r => option_map (Seq r) (parse_plain ignoreCase p')
      | None => None
      end
  end.

(** Whether a string contains a match of a regular expression object,
    when its pattern is one that [parse_plain] reads. *)
Definition regexp_test (re : RegExp) (s : str) : option bool :=
  match parse_plain (one_of (flags re) "i"%char) (source re) with
  | Some r => Some (match search r [] s with Some _ => true | None => false end)
  | None => None
  end.

(** Whether a string value of the field satisfies a payload: equality
    with a string, a match of a regular expression. *)
Definition holds (p : payload) (v : str) : option bool :=
  match p with
  | PStr x => Some (str_eqb x v)
  | PRegExp re => regexp_test re v
  | _ => None
  end.

Fixpoint and_holds (and : list entry) (v : str) : option bool :=
  match and with
  | [] => Some true
  | Pred _ p :: and' =>
      match holds p v, and_holds and' v with
      | Some a, Some b => Some (a && b)
      | _, _ => None
      end
  | Value _ :: _ => None
  end.

(** Whether a query whose filter is on one field accepts a document
    with the value [v] for that field. *)
Fixpoint accepts (q : Query) (v : str) : option bool :=
  match q with
  | AllDocuments => Some true
  | Find q' or =>
      match accepts q' v,
            fold_right
              (fun and acc =>
                 match and_holds and v, acc with
                 | Some a, Some b => Some (a || b)
                 | _, _ => None
                 end) (Some false) or
      with
      | Some a, Some b => Some (a && b)
      | _, _ => None
      end
  | Skip q' _ => accepts q' v
  | Limit q' _ => accepts q' v
  end.

(** *** Pagination *)

(** The number that an argument stands for when the caller gives it. *)
Definition numeric (a : arg) : number :=
  match a with
  | ANumber n => n
  | AString s => parseInt s
  | Absent | Null => NaN
  end.

Definition given (a : arg) : bool :=
  match a with
  | ANumber _ | AString _ => true
  | Absent | Null => false
  end.

(** The integers on which the arithmetic of doubles is exact: those
    below 2^53 in absolute value. *)
Definition safe (z : Z) : bool := (Z.abs z <? 9007199254740992)%Z.

(** The mantissa of the double of a positive safe integer: its bits,
    followed by as many zeros as make 53 bits. *)
Definition mant (p : positive) : positive :=
  match (53 - Zpos (digits2_pos p))%Z with
  | Zpos k => Pos.iter xO p k
  | _ => p
  end.

(** The double of a safe integer. *)
Definition safe_double (z : Z) : number :=
  match z with
  | Z0 => S754_zero false
  | Zpos p => S754_finite false (mant p) (Zpos (digits2_pos p) - 53)
  | Zneg p => S754_finite true (mant p) (Zpos (digits2_pos p) - 53)
  end.

(** *** Nested values *)

(** [v] inside [n] nested arrays of one element. *)
Fixpoint nest (n : nat) (v : value) : value :=
  match n with
  | 0 => v
  | S n' => VArr [nest n' v]
  end.

(** Flattening a value [depth] levels deep. *)
Fixpoint flatten (depth : nat) (v : value) : list value :=
  match depth with
  | 0 => [v]
  | S d => flat_map (flatten d) (unwind_value v)
  end.

(** The flattened occurrences of a field across a collection. *)
Definition occurrences {document : Type}
    (resolve : str -> document -> option value)
    (collection : list document) (field : str) : list value :=
  flat_map
    (fun d => match resolve field d with
              | Some v => flatten 6 v
              | None => []
              end) collection.

Definition times (v : value) (l : list value) : nat :=
  List.length (filter (value_eqb v) l).

Definition total (l : list QueryFilterResult) : nat :=
  fold_right (fun r n => count r + n) 0 l.

(** The groups count the values of a list: each key is there once,
    with the number of its occurrences, which is not zero; every value
    of the list is a key; and the counts add up to the length of the
    list. *)
Definition counts (groups : list (value * nat)) (l : list value) : Prop :=
  NoDup (keys groups)
  /\ (forall k n, In (k, n) groups -> n = times k l /\ 1 <= n)
  /\ (forall v, In v l -> In v (keys groups))
  /\ fold_right (fun g n => snd g + n) 0 groups = List.length l.

(** The order of the result. *)
Definition ascending (value_leb : value -> value -> bool)
    (a b : QueryFilterResult) : Prop :=
  value_leb (value_of a) (value_of b) = true.

(** *** Examples *)

(** What follows the first clause in [a(eq:1),b(eq:2);c(eq:3)]. *)
Definition example_rest : list (ascii * (str * str)) :=
  [ (","%char, ("b" : str, "eq:2" : str));
    (";"%char, ("c" : str, "eq:3" : str)) ].

(** A collection, each document given by the value of its field. *)
Definition example_collection : list (option value) :=
  [ Some (VArr [VNum 3; VArr [VNum 1; VNum 3]]); Some (VNum 1); None;
    Some (nest 7 (VNum 5)); Some (VArr []) ].

(** An order on values for the examples: numbers by their value, before
    every other value. *)
Definition number_first (a b : value) : bool :=
  match a, b with
  | VNum x, VNum y => Z.leb x y
  | VNum _, _ => true
  | _, VNum _ => false
  | _, _ => true
  end.

(** ** The query with every call of the plugin

    [dataTableSearch] and [dataTableSort] make calls that [Query] does
    not have, and [dataTableSearch] reads the conditions of the query
    it is called on. A [Cursor] is the chain of all these calls, and
    the functions of the plugin are given on it in the module [Chain];
    on the chains that a [Query] gives, the functions above are the
    same ([of_query]). *)

(** *** Objects *)

(** The number that a property name stands for when it is an array
    index: the decimal numeral, without a leading zero, of an integer
    up to 2^32 - 2. *)
Definition array_index (key : str) : option Z :=
  match key with
  | [] => None
  | c :: rest =>
      if forallb (fun x => match digit x with Some _ => true | None => false end) key
         && (is_nil rest || negb (chr_eqb c "0"%char))
      then match digits None key with
           | Some n => if (n <=? 4294967294)%Z then Some n else None
           | None => None
           end
      else None
  end.

(** Whether a property named [key] is listed before a property named
    [other] that the object already has, when [key] is new: only an
    array index is, before the names that are not array indices and
    before the greater indices. *)
Definition goes_before (key other : str) : bool :=
  match array_index key, array_index other with
  | Some n, Some m => (n <? m)%Z
  | Some _, None => true
  | None, _ => false
  end.

(** An object is the list of its own properties in their order: the
    array indices in ascending order, then the other names in the
    order of their creation. *)
Fixpoint has_property {V : Type} (o : list (str * V)) (key : str) : bool :=
  match o with
  | [] => false
  | (k, _) :: o' => str_eqb k key || has_property o' key
  end.

Fixpoint get_property {V : Type} (o : list (str * V)) (key : str) : option V :=
  match o with
  | [] => None
  | (k, v) :: o' => if str_eqb k key then Some v else get_property o' key
  end.

Fixpoint replace_property {V : Type} (o : list (str * V)) (key : str) (v : V)
  : list (str * V) :=
  match o with
  | [] => []
  | (k, w) :: o' =>
      if str_eqb k key then (k, v) :: o' else (k, w) :: replace_property o' key v
  end.

Fixpoint add_property {V : Type} (o : list (str * V)) (key : str) (v : V)
  : list (str * V) :=
  match o with
  | [] => [(key, v)]
  | (k, w) :: o' =>
      if goes_before key k then (key, v) :: o
      else (k, w) :: add_property o' key v
  end.

(** [o[key] = v]: the value of a property that the object has is
    replaced where the property is, a new property is put at its
    place in the order. *)
Definition set_property {V : Type} (o : list (str * V)) (key : str) (v : V)
  : list (str * V) :=
  if has_property o key then replace_property o key v else add_property o key v.

(** [{ ...o, ...source }]: the properties of [source] are set on a copy
    of [o], in their order. *)
Definition spread {V : Type} (o source : list (str * V)) : list (str * V) :=
  fold_left (fun acc p => set_property acc (fst p) (snd p)) source o.

(** *** The chain of calls *)

(** A value of the options of a text search. *)
Inductive option_value : Type :=
| OString (s : str)
| OBoolean (b : bool).

(** The conditions of a query and the arguments of [find]: none, the
    [{ $or }] of [dataTableFilter], the
    [{ $and: [{ ...copy }, { $text: text }] }] of [dataTableSearch], and
    what the query has after [find(added)] on the conditions
    [before]. *)
Inductive conditions : Type :=
| NoConditions
| OrOf (or : list (list entry))
| AndOf (copy : conditions) (text : list (str * option_value))
| Merged (before added : conditions).

Inductive Cursor : Type :=
| Fresh
| CFind (c : Cursor) (added : conditions)
| CSort (c : Cursor) (sort : list (str * Z))
| CSkip (c : Cursor) (n : number)
| CLimit (c : Cursor) (n : number).

(** [this._conditions]: [find] merges its argument into them, and the
    other calls leave them as they are. *)
Fixpoint _conditions (c : Cursor) : conditions :=
  match c with
  | Fresh => NoConditions
  | CFind c' added => Merged (_conditions c') added
  | CSort c' _ => _conditions c'
  | CSkip c' _ => _conditions c'
  | CLimit c' _ => _conditions c'
  end.

(** The chain of a [Query]. *)
Fixpoint of_query (q : Query) : Cursor :=
  match q with
  | AllDocuments => Fresh
  | Find q' or => CFind (of_query q') (OrOf or)
  | Skip q' n => CSkip (of_query q') n
  | Limit q' n => CLimit (of_query q') n
  end.

(** [String.prototype.toLowerCase], on the code units below 256: the
    letters A to Z and the capital letters of Latin-1. *)
Definition toLowerCase (s : str) : str :=
  map (fun c =>
         let n := code c in
         if ((65 <=? n) && (n <=? 90))
            || ((192 <=? n) && (n <=? 222) && negb (n =? 215))
         then ascii_of_nat (n + 32) else c) s.

(** [Partial<QueryOptions>], with the properties that [dataTable]
    reads; a property that is not given is [None] (or [Absent]). *)
Module Partial.
Record QueryOptions : Type := mkQueryOptions {
  page : arg;
  itemsPerPage : arg;
  getFilterList : option str;
  filter : option str;
  search : option str;
  searchOptions : option (list (str * option_value));
  sortBy : option str;
  sortDesc : option str
}.
End Partial.

(** [data] is an array of documents, or of the rows of
    [dataTableGetFilterList]. *)
Inductive rows (document : Type) : Type :=
| Documents (l : list document)
| Values (l : list QueryFilterResult).

Arguments Documents {document} l.
Arguments Values {document} l.

Record PaginatedResult (document : Type) : Type := mkPaginatedResult {
  data : rows document;
  resultCount : nat;
  totalCount : nat
}.

Arguments mkPaginatedResult {document} data resultCount totalCount.
Arguments data {document} p.
Arguments resultCount {document} p.
Arguments totalCount {document} p.

Module Chain.

Section Plugin.

Variable pattern_ok : str -> bool.
Variable options : Options.

(** The collection of the model, the value that the store finds in a
    document for a field path, the comparison order of the store, the
    documents that conditions accept, and the documents that the store
    gives for a query. *)
Variable document : Type.
Variable resolve : str -> document -> option value.
Variable value_leb : value -> value -> bool.
Variable collection : list document.
Variable matches : conditions -> document -> bool.
Variable exec : Cursor -> list document.

(** [search] is the text and [params] the object, [{}] when it is not
    given. *)
Definition dataTableSearch (this : Cursor) (search : str)
    (params : option (list (str * option_value))) : Cursor :=
  let params := match params with Some o => o | None => [] end in
  if is_nil search then this
  else
    CFind this
      (AndOf (_conditions this)
             (spread [("$search" : str, OString search)] params)).

(** [sortBy.reduce((acc, key, index) => ({ ...acc, [key]: sortDesc[index] ? -1 : 1 }), {})],
    from the element [index] on. *)
Fixpoint reduce_sort (sortDesc : list bool) (acc : list (str * Z))
    (index : nat) (sortBy : list str) : list (str * Z) :=
  match sortBy with
  | [] => acc
  | key :: after =>
      reduce_sort sortDesc
        (set_property acc key
           (match nth_error sortDesc index with
            | Some true => (-1)%Z
            | _ => 1%Z
            end))
        (S index) after
  end.

Definition dataTableSort (this : Cursor) (_sortBy _sortDesc : option str)
  : Cursor :=
  let _sortBy := match _sortBy with Some s => s | None => [] end in
  let _sortDesc := match _sortDesc with Some s => s | None => [] end in
  if is_nil _sortBy then this
  else
    let sortBy := split "," _sortBy in
    let sortDesc :=
      map (fun value => str_eqb (toLowerCase value) "true") (split "," _sortDesc) in
    let sort := reduce_sort sortDesc [] 0 sortBy in
    CSort this sort.

Definition dataTablePaginate (this : Cursor) (_page _itemsPerPage : arg)
  : Cursor :=
  let _page := default_param _page (Num 1) in
  let _itemsPerPage := default_param _itemsPerPage (Num 0) in
  let page := number_sub (to_number _page (Num 1)) (Num 1) in
  let itemsPerPage := to_number _itemsPerPage (defaultItemsPerPage options) in
  let limit := if number_lt itemsPerPage (Num 0) then Num 0 else itemsPerPage in
  let skip :=
    number_mul (if number_lt page (Num 0) then Num 0 else page) limit in
  CLimit (CSkip this skip) limit.

(** [this.model.countDocuments(conditions)] and
    [this.model.countDocuments()]. *)
Definition countDocuments (conditions : option conditions) : nat :=
  match conditions with
  | Some c => List.length (filter (matches c) collection)
  | None => List.length collection
  end.

(** The three reads are made on the query once the page is set: the
    query itself, the count of its conditions and the count of the
    collection. *)
Definition dataTablePaginated (this : Cursor) (_page _itemsPerPage : arg)
  : PaginatedResult document :=
  let _page := default_param _page (Num 1) in
  let _itemsPerPage := default_param _itemsPerPage (Num 0) in
  let this := dataTablePaginate this _page _itemsPerPage in
  mkPaginatedResult
    (Documents (exec this))
    (countDocuments (Some (_conditions this)))
    (countDocuments None).

Definition dataTableFilter (this : Cursor) (terms : str) : result Cursor :=
  if is_nil terms then Ok this
  else
    match match_global matchFilters terms with
    | None => Ok this
    | Some filters =>
        or <- mapM (compile_and pattern_ok) (blocks filters) ;;
        let or := filter (fun and => negb (is_nil and)) or in
        if is_nil or then Ok this else Ok (CFind this (OrOf or))
    end.

(** A rejected promise is a [Throw]. *)
Definition dataTable (this : Cursor) (params : Partial.QueryOptions)
  : result (PaginatedResult document) :=
  let sortDesc :=
    match Partial.sortDesc params with Some s => s | None => [] end in
  match Partial.getFilterList params with
  | Some (c :: field) =>
      let data :=
        dataTableGetFilterList document resolve value_leb collection (c :: field) in
      Ok (mkPaginatedResult (Values data) (List.length data) (List.length data))
  | _ =>
      cursor <-
        match Partial.filter params with
        | Some filter => dataTableFilter this filter
        | None => Ok this
        end ;;
      let cursor :=
        match Partial.search params with
        | Some search =>
            dataTableSearch cursor search (Partial.searchOptions params)
        | None => cursor
        end in
      let cursor :=
        match Partial.sortBy params with
        | Some sortBy => dataTableSort cursor (Some sortBy) (Some sortDesc)
        | None => cursor
        end in
      Ok (dataTablePaginated cursor
            (Partial.page params) (Partial.itemsPerPage params))
  end.

(** Added for backwards compatibility. *)
Definition queryDataTable (this : Cursor) (params : Partial.QueryOptions)
  : result (PaginatedResult document) :=
  dataTable this params.

End Plugin.

End Chain.

(** *** Notions used by the further statements *)

(** A clause with one argument, [field(operation:value:more...)]. *)
Record Clause : Type := mkClause {
  c_field : str;
  c_operation : str;
  c_value : str;
  c_more : list str
}.

Definition clause_args (c : Clause) : str :=
  argument (c_operation c) (c_value c :: c_more c).

Definition clause_text (c : Clause) : str := clause (c_field c) (clause_args c).

(** A clause that is read back as it is written. *)
Definition clause_ok (c : Clause) : bool :=
  field_ok (c_field c) && field_text (c_field c)
  && piece_ok (c_operation c)
  && forallb piece_ok (c_value c :: c_more c).

(** The text of a first clause and of delimiters, each followed by a
    clause. *)
Definition shape (cs : list (ascii * Clause)) : list (ascii * (str * str)) :=
  map (fun p => (fst p, (c_field (snd p), clause_args (snd p)))) cs.

Definition filter_of (c : Clause) (cs : list (ascii * Clause)) : str :=
  clause_text c ++ text (shape cs).

Definition delimiters_ok {A : Type} (cs : list (ascii * A)) : bool :=
  forallb (fun p => is_delimiter (fst p)) cs.

(** The groups that the delimiters make of what they separate: a [;]
    closes the current group, any other delimiter goes on with it. *)
Fixpoint groups_of {A : Type} (current : list A) (cs : list (ascii * A))
  : list (list A) :=
  match cs with
  | [] => [current]
  | (d, c) :: cs' =>
      if chr_eqb d ";"%char then current :: groups_of [c] cs'
      else groups_of (current ++ [c]) cs'
  end.

(** The predicate of a clause with a comparison operator. *)
Definition comparison (c : Clause) : entry :=
  Pred (c_field c)
    (POp ("$" ++ c_operation c)
       (match c_more c with
        | [] => One (c_value c)
        | _ => Many (c_value c :: c_more c)
        end)).

(** The flag of a clause: the piece after its value, or the empty
    string. *)
Definition flag (c : Clause) : str :=
  match c_more c with
  | f :: _ => f
  | [] => []
  end.

(** The predicate that holds the value of a clause as it is. *)
Definition literal (c : Clause) : entry := Pred (c_field c) (PStr (c_value c)).

(** A clause whose operation builds a regular expression: [contains],
    and [match] with the flag [i]. *)
Definition is_pattern (c : Clause) : bool :=
  str_eqb (c_operation c) "contains"
  || (str_eqb (c_operation c) "match" && str_eqb (flag c) "i").

(** The regular expression of such a clause. *)
Definition pattern_of (c : Clause) : RegExp :=
  if str_eqb (c_operation c) "contains"
  then mkRegExp (c_value c) (if str_eqb (flag c) "i" then "ig" else "g")
  else mkRegExp ("^" ++ c_value c ++ "$") "i".

Definition pattern_entry (c : Clause) : entry :=
  Pred (c_field c) (PRegExp (pattern_of c)).

(** The sort keys that the field names and the flags give, one for
    each field name: descending when the flag at the same position
    is [true] in any case of its letters, ascending otherwise. *)
Fixpoint pair_up (fields flags : list str) : list (str * Z) :=
  match fields with
  | [] => []
  | f :: fields' =>
      (f, match flags with
          | flag :: _ => if str_eqb (toLowerCase flag) "true" then (-1)%Z else 1%Z
          | [] => 1%Z
          end) :: pair_up fields' (tl flags)
  end.

(** The direction at a position. *)
Definition direction (flags : list str) (i : nat) : Z :=
  match nth_error flags i with
  | Some flag => if str_eqb (toLowerCase flag) "true" then (-1)%Z else 1%Z
  | None => 1%Z
  end.

(** No property of an object is listed after a property that it goes
    before. *)
Fixpoint keys_ordered {V : Type} (o : list (str * V)) : bool :=
  match o with
  | [] => true
  | (k, _) :: o' =>
      forallb (fun p => negb (goes_before (fst p) k)) o' && keys_ordered o'
  end.

(** A value that is neither [null] nor an array. *)
Definition is_scalar (v : option value) : bool :=
  match v with
  | Some (VNum _) | Some (VStr _) => true
  | _ => false
  end.

(** A value that [$unwind] gives no row for. *)
Definition is_missing (v : option value) : bool :=
  match v with
  | None | Some VNull | Some (VArr []) => true
  | _ => false
  end.

(** A [getFilterList] that is not given or is empty. *)
Definition no_list (g : option str) : bool :=
  match g with
  | Some (_ :: _) => false
  | _ => true
  end.

(** An option that is left out, as the empty text. *)
Definition or_empty (o : option str) : option str :=
  match o with
  | Some s => Some s
  | None => Some []
  end.

(** The parameters with each text that is left out given as the empty
    text, and the search options that are left out as the empty
    object. *)
Definition explicit (params : Partial.QueryOptions) : Partial.QueryOptions :=
  Partial.mkQueryOptions
    (Partial.page params) (Partial.itemsPerPage params)
    (or_empty (Partial.getFilterList params))
    (or_empty (Partial.filter params))
    (or_empty (Partial.search params))
    (Some (match Partial.searchOptions params with Some o => o | None => [] end))
    (or_empty (Partial.sortBy params))
    (or_empty (Partial.sortDesc params)).

(** A property name that is not an array index. *)
Definition plain_key (key : str) : bool :=
  match array_index key with
  | None => true
  | Some _ => false
  end.

(** The elements at the even positions of a list, from 0. *)
Fixpoint evens {A : Type} (l : list A) : list A :=
  match l with
  | [] => []
  | x :: l' =>
      x :: match l' with
           | [] => []
           | _ :: l'' => evens l''
           end
  end.

(** White space that is no line terminator. *)
Definition blank (s : str) : bool := forallb (fun c => is_space c && dot c) s.

(** A clause with the white space [a] before and [b] after each piece
    of its argument. *)
Definition spaced (a b : str) (c : Clause) : Clause :=
  mkClause (c_field c) (a ++ c_operation c ++ b) (a ++ c_value c ++ b)
    (map (fun v => a ++ v ++ b) (c_more c)).

(** The names of a list without their repetitions, each one at its
    first place. *)
Fixpoint first_occurrences (l : list str) : list str :=
  match l with
  | [] => []
  | k :: l' => k :: filter (fun x => negb (str_eqb x k)) (first_occurrences l')
  end.

(** The order of the names that are array indices: that of the
    numbers they write. *)
Definition index_lt (a b : str) : Prop :=
  match array_index a, array_index b with
  | Some n, Some m => (n < m)%Z
  | _, _ => False
  end.

(** * Properties *)

(** ** Strings and lists *)

Lemma chr_eqb_eq (a b : ascii) : chr_eqb a b = true <-> a = b.
Proof. unfold chr_eqb. apply Ascii.eqb_eq. Qed.

Lemma str_eqb_eq (a b : str) : str_eqb a b = true <-> a = b.
Proof.
  revert b. induction a as [|x a IH]; intros [|y b]; simpl;
    try (split; [discriminate | discriminate]); try tauto.
  rewrite andb_true_iff, chr_eqb_eq, IH. split.
  - intros [-> ->]. reflexivity.
  - intros H. inversion H. auto.
Qed.

Lemma str_eqb_refl (a : str) : str_eqb a a = true.
Proof. apply str_eqb_eq. reflexivity. Qed.

Lemma str_eqb_neq (a b : str) : a <> b -> str_eqb a b = false.
Proof.
  intros H. destruct (str_eqb a b) eqn:E; [|reflexivity].
  apply str_eqb_eq in E. contradiction.
Qed.

Lemma includes_In (l : list str) (s : str) : includes l s = true <-> In s l.
Proof.
  unfold includes. rewrite existsb_exists. split.
  - intros (x & Hx & E). apply str_eqb_eq in E. subst. exact Hx.
  - intros H. exists s. split; [exact H | apply str_eqb_refl].
Qed.

Lemma split_not_nil (sep : ascii) (s : str) : split sep s <> [].
Proof.
  destruct s as [|c s]; simpl; [discriminate|].
  destruct (chr_eqb c sep); [discriminate|].
  destruct (split sep s); discriminate.
Qed.

(** A text without the separator is its own single piece. *)
Lemma split_none (sep : ascii) (s : str) :
  forallb (fun c => negb (chr_eqb c sep)) s = true -> split sep s = [s].
Proof.
  induction s as [|c s IH]; simpl; [reflexivity|].
  rewrite andb_true_iff. intros [Hc Hs].
  apply negb_true_iff in Hc. rewrite Hc, (IH Hs). reflexivity.
Qed.

Lemma split_app (sep : ascii) (a b : str) :
  forallb (fun c => negb (chr_eqb c sep)) a = true ->
  split sep (a ++ sep :: b) = a :: split sep b.
Proof.
  induction a as [|c a IH]; intros H; cbn [app split].
  - unfold chr_eqb. rewrite Ascii.eqb_refl. reflexivity.
  - cbn [forallb] in H. apply andb_true_iff in H. destruct H as [Hc Ha].
    apply negb_true_iff in Hc. rewrite Hc, (IH Ha). reflexivity.
Qed.

Lemma split_argument (vs : list str) : forall operation,
  no_colon operation = true -> forallb no_colon vs = true ->
  split ":" (argument operation vs) = operation :: vs.
Proof.
  unfold argument.
  induction vs as [|v vs IH]; intros operation Ho Hvs; cbn [flat_map].
  - rewrite app_nil_r. apply split_none. exact Ho.
  - cbn [forallb] in Hvs. apply andb_true_iff in Hvs. destruct Hvs as [Hv Hvs].
    cbn [app]. rewrite (split_app _ _ _ Ho), (IH v Hv Hvs). reflexivity.
Qed.

Lemma trim_start_id (v : str) :
  match v with [] => true | c :: _ => negb (is_space c) end = true ->
  trim_start v = v.
Proof.
  destruct v as [|c v]; [reflexivity|]. intros H.
  apply negb_true_iff in H. cbn [trim_start]. rewrite H. reflexivity.
Qed.

Lemma forallb_weaken {A : Type} (P Q : A -> bool) (l : list A) :
  (forall a, P a = true -> Q a = true) ->
  forallb P l = true -> forallb Q l = true.
Proof.
  intros H. rewrite !forallb_forall. intros HP a Ha. apply H, HP, Ha.
Qed.

Lemma none_of_sub (small big : str) (c : ascii) :
  (forall x, In x small -> In x big) ->
  none_of big c = true -> none_of small c = true.
Proof.
  unfold none_of, one_of. intros Hsub H. apply negb_true_iff in H.
  apply negb_true_iff. destruct (existsb (chr_eqb c) small) eqn:E; [|reflexivity].
  apply existsb_exists in E. destruct E as (x & Hx & Hc).
  rewrite <- H. symmetry. apply existsb_exists. exists x. auto.
Qed.

Lemma concat_all_nil {A B : Type} (l : list A) :
  List.concat (map (fun _ => @nil B) l) = [].
Proof. induction l; simpl; auto. Qed.

Lemma filter_all_nil {A B : Type} (l : list A) :
  filter (fun and : list B => negb (is_nil and)) (map (fun _ => []) l) = [].
Proof. induction l; simpl; auto. Qed.

(** ** Callbacks that may throw *)

Lemma mapM_map {A B C : Type} (g : A -> B) (f : B -> result C) (l : list A) :
  mapM f (map g l) = mapM (fun a => f (g a)) l.
Proof.
  induction l as [|a l IH]; simpl; [reflexivity|]. rewrite IH. reflexivity.
Qed.

Lemma mapM_all {A B : Type} (f : A -> result B) (b : B) (l : list A) :
  (forall a, In a l -> f a = Ok b) -> mapM f l = Ok (map (fun _ => b) l).
Proof.
  induction l as [|a l IH]; intros H; simpl; [reflexivity|].
  rewrite (H a) by (left; reflexivity).
  rewrite IH by (intros x Hx; apply H; right; exact Hx). reflexivity.
Qed.

(** Leaving the [null]s out of the compiled arguments is joining what
    each argument gives. *)
Lemma non_null_concat {A B : Type} (g : A -> result (option B)) (l : list A) :
  (parsed <- mapM g l ;; Ok (non_null parsed))
  = (ll <- mapM (fun a => r <- g a ;;
                          Ok (match r with Some e => [e] | None => [] end)) l ;;
     Ok (List.concat ll)).
Proof.
  induction l as [|a l IH]; simpl; [reflexivity|].
  destruct (g a) as [[e|]|x]; simpl; try reflexivity.
  - destruct (mapM g l) as [parsed|x]; simpl in *.
    + destruct (mapM _ l) as [ll|y]; simpl in *; [|discriminate].
      inversion IH. reflexivity.
    + destruct (mapM _ l) as [ll|y]; simpl in *; [discriminate|].
      inversion IH. reflexivity.
  - destruct (mapM g l) as [parsed|x]; simpl in *.
    + destruct (mapM _ l) as [ll|y]; simpl in *; [|discriminate].
      inversion IH. reflexivity.
    + destruct (mapM _ l) as [ll|y]; simpl in *; [discriminate|].
      inversion IH. reflexivity.
Qed.

(** ** The matcher *)

Lemma consumed_app (pre x : str) : consumed pre (rev x ++ pre) = x.
Proof.
  unfold consumed. rewrite length_app, length_rev.
  replace (List.length x + List.length pre - List.length pre)
    with (List.length (rev x)) by (rewrite length_rev; lia).
  rewrite firstn_app, firstn_all, Nat.sub_diag, firstn_0, app_nil_r.
  apply rev_involutive.
Qed.

Section MatcherFacts.
Context {A : Type}.
Implicit Types (k : @cont A) (p : ascii -> bool).

(** The continuation of a repetition is reached after a prefix of the
    input whose characters are all in the class. *)
Lemma star_sound p s : forall pre c k a,
  star p pre s c k = Some a ->
  exists x s', s = x ++ s' /\ forallb p x = true /\
               k (rev x ++ pre) s' c = Some a.
Proof.
  induction s as [|y s IH]; intros pre c k a H; simpl in H.
  - exists [], []. auto.
  - destruct (p y) eqn:Hy.
    + destruct (star p (y :: pre) s c k) eqn:E.
      * inversion H; subst. apply IH in E.
        destruct E as (x & s' & -> & Hx & Hk).
        exists (y :: x), s'. simpl. rewrite Hy, Hx, <- app_assoc.
        auto.
      * exists [], (y :: s). auto.
    + exists [], (y :: s). auto.
Qed.

(** A repetition first tries the longest run of the class: when the
    rest of the pattern accepts what follows that run, this is the
    match. *)
Lemma star_greedy p x : forall pre s c k a,
  forallb p x = true ->
  match s with [] => True | y :: _ => p y = false end ->
  k (rev x ++ pre) s c = Some a ->
  star p pre (x ++ s) c k = Some a.
Proof.
  induction x as [|h x IH]; intros pre s c k a Hx Hs Hk; simpl in *.
  - destruct s as [|y s]; simpl; [exact Hk|]. rewrite Hs. exact Hk.
  - apply andb_true_iff in Hx. destruct Hx as [Hh Hx].
    rewrite Hh. rewrite (IH (h :: pre) s c k a Hx Hs); [reflexivity|].
    rewrite <- app_assoc in Hk. exact Hk.
Qed.

(** A match consumes a prefix of the input. *)
Lemma rmatch_sound r : forall pre s c k a,
  rmatch r pre s c k = Some a ->
  exists x s' c', s = x ++ s' /\ k (rev x ++ pre) s' c' = Some a.
Proof.
  induction r as [p|p|p|r1 IH1 r2 IH2|r1 IH1 r2 IH2|n r IH| | | ];
    intros pre s c k a H; simpl in H.
  - destruct s as [|y s]; [discriminate|].
    destruct (p y); [|discriminate].
    exists [y], s, c. auto.
  - apply star_sound in H. destruct H as (x & s' & -> & _ & Hk).
    exists x, s', c. auto.
  - destruct s as [|y s]; [discriminate|].
    destruct (p y); [|discriminate].
    apply star_sound in H. destruct H as (x & s' & -> & _ & Hk).
    exists (y :: x), s', c. simpl. rewrite <- app_assoc. auto.
  - apply IH1 in H. destruct H as (x1 & s1 & c1 & -> & H).
    apply IH2 in H. destruct H as (x2 & s2 & c2 & -> & H).
    exists (x1 ++ x2), s2, c2. rewrite rev_app_distr, <- !app_assoc. auto.
  - destruct (rmatch r1 pre s c k) eqn:E.
    + inversion H; subst. eapply IH1; eauto.
    + eapply IH2; eauto.
  - apply IH in H. destruct H as (x & s' & c' & -> & H). eauto.
  - destruct pre; [|discriminate]. exists [], s, c. auto.
  - destruct s; [|discriminate]. exists [], [], c. auto.
  - exists [], s, c. auto.
Qed.
End MatcherFacts.

Lemma exec_at_sound (r : regex) (pre s : str) (m : found) :
  exec_at r pre s = Some m ->
  s = matched m ++ rest m /\ upto m = rev (matched m) ++ pre.
Proof.
  unfold exec_at. intros H. apply rmatch_sound in H.
  destruct H as (x & s' & c' & -> & H). inversion H; subst; simpl.
  rewrite consumed_app. auto.
Qed.

Lemma search_sound (r : regex) (s : str) : forall pre m,
  search r pre s = Some m ->
  exists y, s = y ++ matched m ++ rest m /\
            upto m = rev (matched m) ++ rev y ++ pre.
Proof.
  induction s as [|x s IH]; intros pre m H; simpl in H.
  - destruct (exec_at r pre []) eqn:E; [|discriminate].
    inversion H; subst. apply exec_at_sound in E. exists []. tauto.
  - destruct (exec_at r pre (x :: s)) eqn:E.
    + inversion H; subst. apply exec_at_sound in E. exists []. tauto.
    + apply IH in H. destruct H as (y & -> & Hup).
      exists (x :: y). simpl. rewrite <- app_assoc. auto.
Qed.

(** The fuel that [match_global] gives is enough: more fuel finds the
    same matches. *)
Lemma match_all_fuel (r : regex) : forall n m pre s,
  List.length s < n -> List.length s < m ->
  match_all n r pre s = match_all m r pre s.
Proof.
  induction n as [|n IH]; intros [|m] pre s Hn Hm; try lia. simpl.
  destruct (search r pre s) as [f|] eqn:E; [|reflexivity].
  apply search_sound in E. destruct E as (y & Hs & _).
  assert (Hlen : List.length s =
                 List.length y + List.length (matched f) + List.length (rest f))
    by (rewrite Hs, !length_app; lia).
  f_equal. destruct (matched f) as [|h t]; destruct (rest f) as [|x s'];
    simpl in *; try reflexivity; apply IH; simpl; lia.
Qed.

Lemma search_hit (r : regex) (pre s : str) (m : found) :
  exec_at r pre s = Some m -> search r pre s = Some m.
Proof. intros H. destruct s; simpl; rewrite H; reflexivity. Qed.

Section Backtracking.
Context {A : Type}.
Implicit Types (k : @cont A) (p : ascii -> bool).

(** A repetition fails when the rest of the pattern fails after each
    of its runs. *)
Lemma star_none p z : forall pre s c k,
  forallb p z = true ->
  match s with [] => True | y :: _ => p y = false end ->
  (forall x y, z = x ++ y -> k (rev x ++ pre) (y ++ s) c = None) ->
  star p pre (z ++ s) c k = None.
Proof.
  induction z as [|h z IH]; intros pre s c k Hz Hs Hk.
  - specialize (Hk [] [] eq_refl). simpl in *.
    destruct s as [|y s]; simpl; [exact Hk|]. rewrite Hs. exact Hk.
  - cbn [forallb] in Hz. apply andb_true_iff in Hz. destruct Hz as [Hh Hz].
    cbn [app star]. rewrite Hh. rewrite IH; auto.
    + apply (Hk [] (h :: z) eq_refl).
    + intros x y ->. specialize (Hk (h :: x) y eq_refl).
      cbn [rev] in Hk. rewrite <- app_assoc in Hk. exact Hk.
Qed.

(** A repetition stops at the longest run after which the rest of the
    pattern succeeds. *)
Lemma star_last p x : forall y pre s c k a,
  forallb p (x ++ y) = true ->
  match s with [] => True | h :: _ => p h = false end ->
  k (rev x ++ pre) (y ++ s) c = Some a ->
  (forall y1 y2, y = y1 ++ y2 -> y1 <> [] ->
                 k (rev (x ++ y1) ++ pre) (y2 ++ s) c = None) ->
  star p pre ((x ++ y) ++ s) c k = Some a.
Proof.
  induction x as [|h x IH]; intros y pre s c k a Hp Hs Hk Hno.
  - cbn [app rev] in *. destruct y as [|h y].
    + cbn [app] in *. destruct s as [|h s]; simpl; [exact Hk|].
      rewrite Hs. exact Hk.
    + cbn [forallb] in Hp. apply andb_true_iff in Hp.
      destruct Hp as [Hh Hy]. cbn [app star]. rewrite Hh.
      rewrite star_none; auto.
      intros x' y' ->. specialize (Hno (h :: x') y' eq_refl).
      cbn [rev app] in *. rewrite <- app_assoc in Hno.
      apply Hno. discriminate.
  - cbn [app forallb] in Hp. apply andb_true_iff in Hp.
    destruct Hp as [Hh Hp]. cbn [app star]. rewrite Hh.
    rewrite (IH y (h :: pre) s c k a); auto.
    + cbn [rev] in Hk. rewrite <- app_assoc in Hk. exact Hk.
    + intros y1 y2 Hy Hne. specialize (Hno y1 y2 Hy Hne).
      cbn [app rev] in Hno. rewrite <- app_assoc in Hno. exact Hno.
Qed.
End Backtracking.

(** ** The lexer: [terms.match(matchFilters)] *)

Lemma is_delimiter_cases (d : ascii) :
  is_delimiter d = true -> d = ","%char \/ d = ";"%char.
Proof.
  unfold is_delimiter, one_of. simpl. rewrite !orb_true_iff, !chr_eqb_eq.
  intros [H|[H|H]]; auto; discriminate.
Qed.

(** At a delimiter, the match is the delimiter alone. *)
Lemma exec_delimiter (d : ascii) (pre s : str) :
  is_delimiter d = true ->
  exists m, exec_at matchFilters pre (d :: s) = Some m /\
            matched m = [d] /\ upto m = d :: pre /\ rest m = s.
Proof.
  intros Hd. unfold exec_at, matchFilters. cbn [rmatch].
  unfold is_delimiter in Hd. rewrite Hd. eexists. split; [reflexivity|].
  cbn [matched upto rest]. split; [|auto]. apply (consumed_app pre [d]).
Qed.

(** At the start of a clause, the match is the clause. *)
Lemma exec_clause (f a pre s : str) :
  field_ok f = true -> args_ok a = true ->
  exists m, exec_at matchFilters pre (clause f a ++ s) = Some m /\
            matched m = clause f a /\
            upto m = rev (clause f a) ++ pre /\ rest m = s.
Proof.
  intros Hf Ha. unfold field_ok in Hf. destruct f as [|x f]; [discriminate|].
  apply andb_true_iff in Hf. destruct Hf as [Hx Hf]. cbn [forallb] in Hf.
  apply andb_true_iff in Hf. destruct Hf as [Hx' Hf].
  unfold args_ok in Ha. destruct a as [|y a]; [discriminate|].
  cbn [is_nil negb forallb andb] in Ha.
  apply andb_true_iff in Ha. destruct Ha as [Hy Ha].
  apply negb_true_iff in Hx. unfold is_delimiter in Hx.
  assert (E : exec_at matchFilters pre (clause (x :: f) (y :: a) ++ s) =
              Some (mkFound (consumed pre (rev (clause (x :: f) (y :: a)) ++ pre))
                      (rev (clause (x :: f) (y :: a)) ++ pre) s
                      [(1, consumed pre (rev (clause (x :: f) (y :: a)) ++ pre));
                       (3, consumed pre (rev (clause (x :: f) (y :: a)) ++ pre))])).
  { unfold exec_at, matchFilters, clause. cbn [rmatch app].
    rewrite Hx, Hx'. rewrite <- app_assoc.
    apply star_greedy; [exact Hf | reflexivity |].
    cbn [app]. unfold is_chr at 1. cbn [chr_eqb Ascii.eqb Bool.eqb andb].
    rewrite Hy. rewrite <- app_assoc.
    apply star_greedy; [exact Ha | reflexivity |].
    cbn [app]. unfold is_chr. cbn [chr_eqb Ascii.eqb Bool.eqb andb].
    replace (")"%char :: rev a ++ y :: "("%char :: rev f ++ x :: pre)
      with (rev (x :: f ++ "("%char :: y :: a ++ [")"%char]) ++ pre).
    - reflexivity.
    - cbn [rev]. rewrite !rev_app_distr. cbn [rev app].
      rewrite !rev_app_distr. cbn [rev app]. rewrite <- !app_assoc.
      reflexivity. }
  eexists. split; [exact E|]. cbn [matched upto rest].
  rewrite consumed_app. auto.
Qed.

(** The matches of a run of delimiters and clauses are the delimiters
    and the clauses, in their order. *)
Lemma match_all_text (cs : list (ascii * (str * str))) : forall n pre,
  clauses_ok cs = true -> List.length (text cs) < n ->
  match_all n matchFilters pre (text cs) = tokens cs.
Proof.
  induction cs as [|[d [f a]] cs IH]; intros n pre Hok Hn.
  - destruct n; reflexivity.
  - simpl in Hok. rewrite !andb_true_iff in Hok.
    destruct Hok as [[[Hd Hf] Ha] Hok].
    destruct n as [|n]; [simpl in Hn; lia|].
    destruct (exec_delimiter d pre (clause f a ++ text cs) Hd)
      as (m & Em & Hm & Hu & Hr).
    cbn [text tokens match_all]. rewrite (search_hit _ _ _ _ Em), Hm, Hr, Hu.
    f_equal.
    destruct n as [|n]; [simpl in Hn; unfold clause in Hn;
                         rewrite !length_app in Hn; simpl in Hn; lia|].
    destruct (exec_clause f a (d :: pre) (text cs) Hf Ha)
      as (m' & Em' & Hm' & Hu' & Hr').
    cbn [match_all]. rewrite (search_hit _ _ _ _ Em'), Hm', Hr', Hu'.
    f_equal.
    assert (Hc : exists h t, clause f a = h :: t).
    { unfold clause. destruct f; simpl; eauto. }
    destruct Hc as (h & t & Hc). rewrite Hc at 1.
    apply IH; [exact Hok|].
    simpl in Hn. rewrite length_app in Hn. rewrite Hc in Hn. simpl in Hn. lia.
Qed.

(** The lexer on a filter text made of clauses separated by single
    delimiters. *)
Lemma lex_text (f a : str) (cs : list (ascii * (str * str))) :
  field_ok f = true -> args_ok a = true -> clauses_ok cs = true ->
  match_global matchFilters (clause f a ++ text cs)
  = Some (clause f a :: tokens cs).
Proof.
  intros Hf Ha Hok. unfold match_global.
  destruct (exec_clause f a [] (text cs) Hf Ha) as (m & Em & Hm & Hu & Hr).
  cbn [match_all]. rewrite (search_hit _ _ _ _ Em), Hm, Hr, Hu.
  assert (Hc : exists h t, clause f a = h :: t).
  { unfold clause. destruct f; simpl; eauto. }
  destruct Hc as (h & t & Hc). rewrite Hc at 1 2.
  rewrite <- Hc. f_equal. f_equal.
  apply match_all_text; [exact Hok|].
  rewrite length_app, Hc. simpl. lia.
Qed.

(** ** The clause parser: [filter.match(matchParams)] *)

Lemma none_of_open (h : ascii) : none_of "(" h = true -> is_chr "("%char h = false.
Proof.
  unfold none_of, one_of, is_chr. cbn [existsb list_ascii_of_string].
  rewrite orb_false_r. apply negb_true_iff.
Qed.

(** On a clause, [matchParams] gives the field and the argument list. *)
Lemma matchParams_clause (f a : str) :
  field_text f = true -> args_text a = true ->
  exists m, match_first matchParams (clause f a) = Some m /\
            capture 1 (groups m) = Some f /\ capture 2 (groups m) = Some a.
Proof.
  intros Hf Ha. unfold field_text in Hf. unfold args_text in Ha.
  apply andb_true_iff in Ha. destruct Ha as [Ha Hno].
  assert (E : exec_at matchParams [] (clause f a) =
    Some (mkFound (consumed [] (")"%char :: rev a ++ "("%char :: rev f))
            (")"%char :: rev a ++ "("%char :: rev f) []
            [(2, consumed ("("%char :: rev f) (rev a ++ "("%char :: rev f));
             (1, consumed [] (rev f))])).
  { unfold exec_at, matchParams, clause. cbn [rmatch].
    rewrite <- (app_nil_r (f ++ _)).
    apply star_last.
    - rewrite forallb_app. cbn [forallb]. rewrite forallb_app. cbn [forallb].
      rewrite Hf, Ha. reflexivity.
    - exact I.
    - cbn [app]. rewrite app_nil_r.
      replace (is_chr "(" "(") with true by reflexivity.
      apply star_last.
      + rewrite forallb_app, Ha. reflexivity.
      + exact I.
      + cbn [app]. replace (is_chr ")" ")") with true by reflexivity.
        reflexivity.
      + intros y1 y2 Hy Hne. destruct y1 as [|h y1]; [contradiction|].
        inversion Hy as [[Hh Ht]]. symmetry in Ht.
        apply app_eq_nil in Ht. destruct Ht as [_ ->]. reflexivity.
    - intros y1 y2 Hy Hne. destruct y1 as [|h y1]; [contradiction|].
      inversion Hy as [[Hh Ht]]. rewrite app_nil_r.
      destruct y2 as [|h' y2]; [reflexivity|].
      assert (Hh' : none_of "(" h' = true).
      { assert (Hall : forallb (none_of "(") (a ++ [")"%char]) = true)
          by (rewrite forallb_app, Hno; reflexivity).
        rewrite Ht, forallb_app in Hall. apply andb_true_iff in Hall.
        destruct Hall as [_ Hall]. cbn [forallb] in Hall.
        apply andb_true_iff in Hall. tauto. }
      rewrite (none_of_open _ Hh'). reflexivity. }
  eexists. split; [apply search_hit; exact E|]. cbn [groups capture Nat.eqb].
  split.
  - f_equal. rewrite <- (app_nil_r (rev f)). apply consumed_app.
  - f_equal. apply consumed_app.
Qed.

(** ** The grouping loop *)

Lemma blocks_loop_tokens (cs : list (ascii * (str * str))) :
  forall orBlocks andBlocks, andBlocks <> [] ->
  push_last
    match tokens cs with
    | [] => (orBlocks, andBlocks)
    | d :: after => blocks_loop (Some d) after orBlocks andBlocks
    end
  = orBlocks ++ and_groups andBlocks cs.
Proof.
  induction cs as [|[d [f a]] cs IH]; intros orBlocks andBlocks Hne.
  - simpl. destruct andBlocks; [contradiction|reflexivity].
  - cbn [tokens blocks_loop and_groups].
    replace (str_eqb [d] ";") with (chr_eqb d ";"%char)
      by (cbn; rewrite andb_true_r; reflexivity).
    destruct (chr_eqb d ";"%char).
    + rewrite IH by discriminate. rewrite <- app_assoc. reflexivity.
    + rewrite IH; [reflexivity|]. destruct andBlocks; discriminate.
Qed.

(** The groups of the tokens of a filter text are its AND groups. *)
Lemma blocks_tokens (c : str) (cs : list (ascii * (str * str))) :
  blocks (c :: tokens cs) = and_groups [c] cs.
Proof.
  unfold blocks. cbn [blocks_loop app].
  apply (blocks_loop_tokens cs [] [c]). discriminate.
Qed.

Lemma clause_not_semicolon (f a : str) : str_eqb (clause f a) ";" = false.
Proof.
  apply str_eqb_neq. unfold clause. intros H.
  destruct f as [|x f]; [discriminate|]. cbn in H. inversion H as [[Hx Hf]].
  destruct f; discriminate.
Qed.

Lemma blocks_loop_shifted (cs : list (ascii * (str * str))) :
  forall prev andBlocks,
  str_eqb prev ";" = false -> andBlocks <> [] ->
  push_last (blocks_loop (Some prev) (tokens cs) [] andBlocks)
  = [andBlocks ++ map (fun c => [fst c]) cs].
Proof.
  induction cs as [|[d [f a]] cs IH]; intros prev andBlocks Hp Hne.
  - cbn. rewrite app_nil_r. destruct andBlocks; [contradiction|reflexivity].
  - cbn [tokens blocks_loop map fst]. rewrite Hp.
    rewrite IH.
    + rewrite <- app_assoc. reflexivity.
    + apply clause_not_semicolon.
    + destruct andBlocks; discriminate.
Qed.

Lemma and_groups_In (cs : list (ascii * (str * str))) :
  forall current g c,
  In g (and_groups current cs) -> In c g ->
  In c current \/ exists d f a, In (d, (f, a)) cs /\ c = clause f a.
Proof.
  induction cs as [|[d [f a]] cs IH]; intros current g c Hg Hc.
  - destruct Hg as [<-|[]]. left. exact Hc.
  - cbn [and_groups] in Hg. destruct (chr_eqb d ";"%char).
    + destruct Hg as [<-|Hg]; [left; exact Hc|].
      destruct (IH _ _ _ Hg Hc) as [[<-|[]]|(d' & f' & a' & Hin & ->)].
      * right. exists d, f, a. split; [left; reflexivity|reflexivity].
      * right. exists d', f', a'. split; [right; exact Hin|reflexivity].
    + destruct (IH _ _ _ Hg Hc) as [Hin|(d' & f' & a' & Hin & ->)].
      * apply in_app_or in Hin. destruct Hin as [Hin|[<-|[]]];
          [left; exact Hin|].
        right. exists d, f, a. split; [left; reflexivity|reflexivity].
      * right. exists d', f', a'. split; [right; exact Hin|reflexivity].
Qed.

(** ** The compilation of a clause *)

(** A clause compiles to what its arguments compile to, one after the
    other. *)
Lemma compile_filter_clause (pattern_ok : str -> bool) (f r : str) :
  field_text f = true -> args_text r = true ->
  compile_filter pattern_ok (clause f r)
  = (l <- mapM (compile_argument pattern_ok f) (split "," r) ;;
     Ok (List.concat l)).
Proof.
  intros Hf Hr. unfold compile_filter.
  destruct (matchParams_clause f r Hf Hr) as (m & -> & -> & ->).
  rewrite !mapM_map. apply non_null_concat.
Qed.

(** A token that is a delimiter compiles to nothing. *)
Lemma compile_filter_delimiter (pattern_ok : str -> bool) (d : ascii) :
  is_delimiter d = true -> compile_filter pattern_ok [d] = Ok [].
Proof.
  intros Hd. apply is_delimiter_cases in Hd. destruct Hd as [-> | ->];
    reflexivity.
Qed.


(** An operation name that is neither one of the filter language nor a
    property that [operations] inherits is dropped. *)
Lemma unknown_operation_dropped (pattern_ok : str -> bool)
    (field operation : str) (params : list str) :
  includes operation_names operation = false ->
  includes Object_prototype operation = false ->
  compile_params pattern_ok field (operation :: params) = Ok None.
Proof.
  intros Hn Hp. unfold operation_names in Hn. unfold includes in Hn.
  cbn [existsb] in Hn. apply orb_false_iff in Hn. destruct Hn as [Hm Hn].
  apply orb_false_iff in Hn. destruct Hn as [Hc Hn].
  unfold compile_params, operations_get.
  destruct (is_nil operation); [reflexivity|].
  rewrite Hm, Hc, Hp. unfold includes. rewrite Hn. reflexivity.
Qed.

(** A comparison operator compiles to the predicate that carries it,
    with its single operand or with the list of its operands. *)
Lemma comparison_dispatch (pattern_ok : str -> bool)
    (field operation v : str) (vs : list str) :
  includes allowedOperators operation = true ->
  compile_params pattern_ok field (operation :: v :: vs)
  = Ok (Some (Pred field
                (POp ("$" ++ operation)
                   (match vs with [] => One v | _ => Many (v :: vs) end)))).
Proof.
  intros H. apply includes_In in H. unfold allowedOperators in H.
  cbn [In] in H.
  repeat (destruct H as [<- | H]; [destruct vs; reflexivity|]).
  contradiction.
Qed.

Section Pieces.
Variable v : str.
Hypothesis piece : piece_ok v = true.

Lemma piece_chars : forallb (fun c => none_of ":,()" c && dot c) v = true.
Proof.
  unfold piece_ok in piece. rewrite !andb_true_iff in piece. tauto.
Qed.

Lemma piece_trim : trim v = v.
Proof.
  unfold piece_ok in piece. rewrite !andb_true_iff in piece.
  destruct piece as [[_ Hfirst] Hlast]. unfold trim.
  rewrite (trim_start_id v Hfirst), (trim_start_id (rev v) Hlast).
  apply rev_involutive.
Qed.

Lemma piece_none_of (cs : str) :
  (forall x, In x cs -> In x (":,()" : str)) -> forallb (none_of cs) v = true.
Proof.
  intros Hsub.
  apply (forallb_weaken (fun c => none_of ":,()" c && dot c));
    [|exact piece_chars].
  intros c H. apply andb_true_iff in H. destruct H as [H _].
  exact (none_of_sub cs _ c Hsub H).
Qed.

Lemma piece_no_colon : no_colon v = true.
Proof.
  unfold no_colon.
  apply (forallb_weaken (none_of ":")); [|apply piece_none_of].
  - intros c. unfold none_of, one_of. cbn [existsb list_ascii_of_string].
    rewrite orb_false_r. auto.
  - cbn. tauto.
Qed.

Lemma piece_no_comma : forallb (fun c => negb (chr_eqb c ","%char)) v = true.
Proof.
  apply (forallb_weaken (none_of ",")); [|apply piece_none_of].
  - intros c. unfold none_of, one_of. cbn [existsb list_ascii_of_string].
    rewrite orb_false_r. auto.
  - cbn. tauto.
Qed.

Lemma piece_dot : forallb dot v = true.
Proof.
  apply (forallb_weaken (fun c => none_of ":,()" c && dot c));
    [|exact piece_chars].
  intros c H. apply andb_true_iff in H. tauto.
Qed.
End Pieces.

Lemma argument_forallb (P : ascii -> bool) (operation : str) (vs : list str) :
  P ":"%char = true -> forallb P operation = true ->
  forallb (forallb P) vs = true ->
  forallb P (argument operation vs) = true.
Proof.
  intros Hc Ho Hvs. unfold argument. rewrite forallb_app, Ho.
  induction vs as [|v vs IH]; [reflexivity|].
  cbn [forallb] in Hvs. apply andb_true_iff in Hvs. destruct Hvs as [Hv Hvs].
  cbn [flat_map app forallb andb]. rewrite Hc, forallb_app, Hv. apply IH, Hvs.
Qed.

Lemma pieces_forallb (P : ascii -> bool) (vs : list str) :
  (forall v, piece_ok v = true -> forallb P v = true) ->
  forallb piece_ok vs = true -> forallb (forallb P) vs = true.
Proof. intros H. apply forallb_weaken. exact H. Qed.

(** A clause with one argument, written with its operation name and
    its pieces, compiles to what the dispatch gives for them. *)
Lemma compile_filter_argument (pattern_ok : str -> bool)
    (f operation : str) (vs : list str) :
  field_text f = true -> piece_ok operation = true ->
  forallb piece_ok vs = true ->
  compile_filter pattern_ok (clause f (argument operation vs))
  = (r <- compile_params pattern_ok f (default_match (operation :: vs)) ;;
     Ok (match r with Some e => [e] | None => [] end)).
Proof.
  intros Hf Ho Hvs.
  rewrite compile_filter_clause; [|exact Hf|].
  - rewrite split_none.
    + cbn [mapM]. unfold compile_argument.
      rewrite split_argument;
        [|apply piece_no_colon; exact Ho
         |apply (forallb_weaken piece_ok); [apply piece_no_colon|exact Hvs]].
      replace (map trim (operation :: vs)) with (operation :: vs).
      * destruct (compile_params _ _ _) as [r|e]; [|reflexivity].
        cbn [bind List.concat]. rewrite app_nil_r. reflexivity.
      * cbn [map]. rewrite (piece_trim _ Ho). f_equal.
        clear Ho. induction vs as [|v vs IH]; [reflexivity|].
        cbn [forallb] in Hvs. apply andb_true_iff in Hvs.
        destruct Hvs as [Hv Hvs]. cbn [map].
        rewrite (piece_trim _ Hv), <- (IH Hvs). reflexivity.
    + apply argument_forallb; [reflexivity|apply piece_no_comma; exact Ho|].
      apply pieces_forallb; [apply piece_no_comma|exact Hvs].
  - unfold args_text. apply andb_true_iff. split.
    + apply argument_forallb; [reflexivity|apply piece_dot; exact Ho|].
      apply pieces_forallb; [apply piece_dot|exact Hvs].
    + apply argument_forallb; [reflexivity| |].
      * apply piece_none_of; [exact Ho|]. cbn. tauto.
      * apply pieces_forallb; [|exact Hvs].
        intros v Hv. apply piece_none_of; [exact Hv|]. cbn. tauto.
Qed.

Lemma argument_args_ok (operation v : str) (vs : list str) :
  piece_ok operation = true -> forallb piece_ok (v :: vs) = true ->
  args_ok (argument operation (v :: vs)) = true.
Proof.
  intros Ho Hvs. unfold args_ok. apply andb_true_iff. split.
  - unfold argument. destruct operation; reflexivity.
  - apply argument_forallb; [reflexivity| |].
    + apply piece_none_of; [exact Ho|]. cbn. tauto.
    + apply pieces_forallb; [|exact Hvs].
      intros x Hx. apply piece_none_of; [exact Hx|]. cbn. tauto.
Qed.

Lemma allowedOperators_pieces (operation : str) :
  includes allowedOperators operation = true -> piece_ok operation = true.
Proof.
  intros H. apply includes_In in H. unfold allowedOperators in H.
  cbn [In] in H. repeat (destruct H as [<- | H]; [reflexivity|]).
  contradiction.
Qed.

(** A clause whose operation name is unknown compiles to nothing. *)
Lemma unknown_clause_dropped (pattern_ok : str -> bool)
    (f operation v : str) (vs : list str) :
  field_text f = true -> piece_ok operation = true ->
  forallb piece_ok (v :: vs) = true -> unknown operation = true ->
  compile_filter pattern_ok (clause f (argument operation (v :: vs))) = Ok [].
Proof.
  intros Hf Ho Hvs Hu. unfold unknown in Hu. apply andb_true_iff in Hu.
  destruct Hu as [Hn Hp]. apply negb_true_iff in Hn, Hp.
  rewrite (compile_filter_argument pattern_ok f operation (v :: vs) Hf Ho Hvs).
  unfold default_match. cbn [List.length Nat.leb].
  rewrite (unknown_operation_dropped pattern_ok f operation (v :: vs) Hn Hp).
  reflexivity.
Qed.

(** ** dataTableFilter on a filter text *)

Lemma clause_not_nil (f a : str) : is_nil (clause f a) = false.
Proof. unfold clause. destruct f; reflexivity. Qed.

Lemma filter_result (this : Query) (or : list (list entry)) :
  (let or := filter (fun and => negb (is_nil and)) or in
   if is_nil or then Ok this else Ok (Find this or))
  = Ok (apply_groups this or).
Proof.
  unfold apply_groups. cbv zeta.
  destruct (filter _ or); reflexivity.
Qed.

(** The filter of a text made of clauses and single delimiters is the
    compilation of its AND groups. *)
Lemma dataTableFilter_text (pattern_ok : str -> bool) (q : Query)
    (f a : str) (cs : list (ascii * (str * str))) :
  field_ok f = true -> args_ok a = true -> clauses_ok cs = true ->
  dataTableFilter pattern_ok q (clause f a ++ text cs)
  = (or <- mapM (compile_and pattern_ok) (and_groups [clause f a] cs) ;;
     Ok (apply_groups q or)).
Proof.
  intros Hf Ha Hcs. unfold dataTableFilter.
  assert (Hnil : is_nil (clause f a ++ text cs) = false).
  { pose proof (clause_not_nil f a) as H.
    destruct (clause f a); [discriminate|reflexivity]. }
  rewrite Hnil, (lex_text f a cs Hf Ha Hcs), blocks_tokens.
  destruct (mapM (compile_and pattern_ok) (and_groups [clause f a] cs));
    [|reflexivity].
  apply filter_result.
Qed.

(** A filter of one clause with a comparison operator compiles to the
    predicate on the field that carries the operator, with the single
    operand when there is one and the list of the operands when there
    are more. *)
Lemma comparison_clause (pattern_ok : str -> bool) (q : Query)
    (f operation v : str) (vs : list str) :
  field_ok f = true -> field_text f = true ->
  includes allowedOperators operation = true ->
  forallb piece_ok (v :: vs) = true ->
  dataTableFilter pattern_ok q (clause f (argument operation (v :: vs)))
  = Ok (Find q [ [ Pred f (POp ("$" ++ operation)
                             (match vs with [] => One v | _ => Many (v :: vs) end)) ] ]).
Proof.
  intros Hf Hft Hop Hvs.
  pose proof (allowedOperators_pieces _ Hop) as Ho.
  pose proof (dataTableFilter_text pattern_ok q f
                (argument operation (v :: vs)) [] Hf
                (argument_args_ok _ _ _ Ho Hvs) eq_refl) as H.
  cbn [text] in H. rewrite app_nil_r in H. rewrite H.
  cbn [and_groups mapM]. unfold compile_and. cbn [mapM].
  rewrite (compile_filter_argument pattern_ok f operation (v :: vs) Hft Ho Hvs).
  unfold default_match. cbn [List.length Nat.leb].
  rewrite (comparison_dispatch pattern_ok f operation v vs Hop).
  reflexivity.
Qed.

(** A query with one more [find] is another query. *)
Lemma Find_neq (q : Query) : forall or, Find q or <> q.
Proof.
  induction q as [|q IH or'|q IH n|q IH n]; intros or H; try discriminate.
  inversion H as [[H1 H2]]. exact (IH _ H1).
Qed.

(** ** Filters that leave the query unchanged *)

(** An empty filter text leaves the query unchanged. *)
Lemma pass_through_empty (pattern_ok : str -> bool) (q : Query) :
  dataTableFilter pattern_ok q [] = Ok q.
Proof. reflexivity. Qed.

(** A filter text without a token leaves the query unchanged. *)
Lemma pass_through_no_token (pattern_ok : str -> bool) (q : Query) (terms : str) :
  match_global matchFilters terms = None ->
  dataTableFilter pattern_ok q terms = Ok q.
Proof.
  intros H. unfold dataTableFilter. rewrite H. destruct (is_nil terms); reflexivity.
Qed.

(** A filter text whose groups all compile to nothing leaves the query
    unchanged. *)
Lemma pass_through_all_dropped (pattern_ok : str -> bool) (q : Query)
    (terms : str) (filters : list str) :
  match_global matchFilters terms = Some filters ->
  (forall and, In and (blocks filters) -> compile_and pattern_ok and = Ok []) ->
  dataTableFilter pattern_ok q terms = Ok q.
Proof.
  intros H Hall. unfold dataTableFilter. rewrite H.
  destruct (is_nil terms); [reflexivity|].
  rewrite (mapM_all _ [] _ Hall). cbn [bind].
  rewrite filter_all_nil. reflexivity.
Qed.

(** A text whose clauses all compile to nothing leaves the query
    unchanged. *)
Lemma pass_through_text (pattern_ok : str -> bool) (q : Query)
    (f a : str) (cs : list (ascii * (str * str))) :
  field_ok f = true -> args_ok a = true -> clauses_ok cs = true ->
  (forall d f' a', In (d, (f', a')) ((","%char, (f, a)) :: cs) ->
                   compile_filter pattern_ok (clause f' a') = Ok []) ->
  dataTableFilter pattern_ok q (clause f a ++ text cs) = Ok q.
Proof.
  intros Hf Ha Hcs Hall.
  rewrite (dataTableFilter_text pattern_ok q f a cs Hf Ha Hcs).
  assert (Hg : forall g : list str, In g (and_groups [clause f a] cs) ->
                          compile_and pattern_ok g = Ok []).
  { intros g Hg. unfold compile_and.
    assert (Hc : forall c : str, In c g -> compile_filter pattern_ok c = Ok []).
    { intros c Hc.
      destruct (and_groups_In cs _ g c Hg Hc)
        as [[<-|[]]|(d' & f' & a' & Hin & ->)].
      - apply (Hall ","%char). left. reflexivity.
      - apply (Hall d'). right. exact Hin. }
    rewrite (mapM_all _ [] _ Hc). cbn [bind]. rewrite concat_all_nil.
    reflexivity. }
  rewrite (mapM_all _ [] _ Hg). cbn [bind]. unfold apply_groups.
  rewrite filter_all_nil. reflexivity.
Qed.

(** The pass-through of the unknown operation names: a text of clauses
    separated by single delimiters, each clause with one argument whose
    operation name is unknown, leaves the query unchanged. *)
Lemma unknown_operations_pass_through (pattern_ok : str -> bool) (q : Query)
    (f a : str) (cs : list (ascii * (str * str))) :
  field_ok f = true -> clauses_ok cs = true ->
  (forall d f' a', In (d, (f', a')) ((","%char, (f, a)) :: cs) ->
     field_text f' = true /\
     exists operation v vs,
       a' = argument operation (v :: vs) /\ piece_ok operation = true /\
       forallb piece_ok (v :: vs) = true /\ unknown operation = true) ->
  dataTableFilter pattern_ok q (clause f a ++ text cs) = Ok q.
Proof.
  intros Hf Hcs Hall. apply pass_through_text; [exact Hf| |exact Hcs|].
  - destruct (Hall ","%char f a (or_introl eq_refl))
      as (_ & operation & v & vs & -> & Ho & Hvs & _).
    apply argument_args_ok; assumption.
  - intros d f' a' Hin.
    destruct (Hall d f' a' Hin) as (Hft & operation & v & vs & -> & Ho & Hvs & Hu).
    apply unknown_clause_dropped; assumption.
Qed.

(** After a leading delimiter, the loop takes the delimiters for the
    filters and the clauses for the delimiters: a text that starts with
    a delimiter and goes on with clauses separated by single delimiters
    leaves the query unchanged, whatever its clauses. *)
Lemma leading_delimiter_pass_through (pattern_ok : str -> bool) (q : Query)
    (cs : list (ascii * (str * str))) :
  clauses_ok cs = true ->
  dataTableFilter pattern_ok q (text cs) = Ok q.
Proof.
  intros Hok. destruct cs as [|[d [f a]] cs]; [reflexivity|].
  apply (pass_through_all_dropped pattern_ok q _ (tokens ((d, (f, a)) :: cs))).
  - unfold match_global. rewrite match_all_text; [reflexivity|exact Hok|lia].
  - intros and Hin. unfold blocks in Hin. cbn [tokens blocks_loop app] in Hin.
    rewrite blocks_loop_shifted in Hin;
      [|apply clause_not_semicolon|discriminate].
    destruct Hin as [<-|[]]. unfold compile_and.
    cbn [clauses_ok forallb] in Hok. rewrite !andb_true_iff in Hok.
    destruct Hok as [[[Hd _] _] Hok].
    assert (Hall : forall x : str, In x ([[d]] ++ map (fun c => [fst c]) cs) ->
                             compile_filter pattern_ok x = Ok []).
    { intros x [<-|Hx]; [apply compile_filter_delimiter; exact Hd|].
      apply in_map_iff in Hx. destruct Hx as ([d' [f' a']] & <- & Hin).
      apply compile_filter_delimiter.
      unfold clauses_ok in Hok. rewrite forallb_forall in Hok.
      specialize (Hok _ Hin). cbn in Hok. rewrite !andb_true_iff in Hok.
      tauto. }
    match goal with
    | |- context [mapM ?g ?L] =>
        assert (E : mapM g L = Ok (map (fun _ => []) L))
          by (apply mapM_all; exact Hall);
        rewrite E; clear E Hall; cbn [bind]; f_equal;
        induction L; simpl; auto
    end.
Qed.

(** ** The claims on dataTableFilter *)

(** C1: a filter whose only clause uses the unknown operation name
    [constructor] does not leave the query unchanged: the lookup of the
    name in [operations] finds the inherited [Object] function, whose
    result is kept as an element of the AND group. (An empty text, a
    text without a token, a text whose clauses all compile to nothing
    and a text whose operation names are unknown and not inherited do
    leave the query unchanged: [pass_through_empty],
    [pass_through_no_token], [pass_through_text],
    [unknown_operations_pass_through].) *)
Theorem unknown_operation_constrains (pattern_ok : str -> bool) (q : Query) :
  dataTableFilter pattern_ok q "a(constructor:1)"
  = Ok (Find q [ [ Value (StringObject "a") ] ])
  /\ dataTableFilter pattern_ok q "a(constructor:1)" <> Ok q.
Proof.
  split; [reflexivity|]. intros H.
  assert (E : dataTableFilter pattern_ok q "a(constructor:1)"
              = Ok (Find q [ [ Value (StringObject "a") ] ])) by reflexivity.
  rewrite E in H. inversion H as [H']. exact (Find_neq _ _ H').
Qed.

(** C2: the filter [a(eq:1),b(eq:2);c(eq:3)] compiles to an OR list of
    two AND groups, the first with the predicates a = 1 and b = 2 in
    that order and the second with c = 3 alone; and in general, for a
    text of clauses separated by single delimiters, the tokens are
    grouped clause by clause, a [;] starting a new AND group and any
    other delimiter (or none, for the first clause) adding the clause
    to the current group, and the compiled filter is the compilation
    of those groups. *)
Theorem and_or_grouping (pattern_ok : str -> bool) (q : Query)
    (f a : str) (cs : list (ascii * (str * str))) :
  field_ok f = true -> args_ok a = true -> clauses_ok cs = true ->
  dataTableFilter pattern_ok q "a(eq:1),b(eq:2);c(eq:3)"
  = Ok (Find q [ [ Pred "a" (POp "$eq" (One "1"));
                   Pred "b" (POp "$eq" (One "2")) ];
                 [ Pred "c" (POp "$eq" (One "3")) ] ])
  /\ match_global matchFilters (clause f a ++ text cs)
     = Some (clause f a :: tokens cs)
  /\ blocks (clause f a :: tokens cs) = and_groups [clause f a] cs
  /\ dataTableFilter pattern_ok q (clause f a ++ text cs)
     = (or <- mapM (compile_and pattern_ok) (and_groups [clause f a] cs) ;;
        Ok (apply_groups q or)).
Proof.
  intros Hf Ha Hcs. split; [reflexivity|]. split; [|split].
  - apply lex_text; assumption.
  - apply blocks_tokens.
  - apply dataTableFilter_text; assumption.
Qed.

Lemma and_or_grouping_witness :
  field_ok "a" = true /\ args_ok "eq:1" = true /\
  clauses_ok example_rest = true /\
  (dataTableFilter plain_pattern AllDocuments "a(eq:1),b(eq:2);c(eq:3)"
   = Ok (Find AllDocuments
           [ [ Pred "a" (POp "$eq" (One "1"));
               Pred "b" (POp "$eq" (One "2")) ];
             [ Pred "c" (POp "$eq" (One "3")) ] ])
   /\ match_global matchFilters (clause "a" "eq:1" ++ text example_rest)
      = Some (clause "a" "eq:1" :: tokens example_rest)
   /\ blocks (clause "a" "eq:1" :: tokens example_rest)
      = and_groups [clause "a" "eq:1"] example_rest
   /\ dataTableFilter plain_pattern AllDocuments
        (clause "a" "eq:1" ++ text example_rest)
      = (or <- mapM (compile_and plain_pattern)
                 (and_groups [clause "a" "eq:1"] example_rest) ;;
         Ok (apply_groups AllDocuments or))).
Proof.
  split; [reflexivity|]. split; [reflexivity|]. split; [reflexivity|].
  apply (and_or_grouping plain_pattern AllDocuments "a" "eq:1" example_rest);
    reflexivity.
Defined.

(** C3: an operation name outside the fixed set is not always dropped
    without error: [isPrototypeOf] compiles to the value [false], which
    stays in the AND group, and [__proto__] makes [dataTableFilter]
    throw. (The operators of the fixed set do compile to their
    predicate, [comparison_clause], and the names that [operations]
    does not inherit are dropped, [unknown_clause_dropped].) *)
Theorem inherited_operation_not_dropped (pattern_ok : str -> bool) (q : Query) :
  dataTableFilter pattern_ok q "a(isPrototypeOf:1)"
  = Ok (Find q [ [ Value (Boolean false) ] ])
  /\ dataTableFilter pattern_ok q "a(__proto__:1)" = Throw TypeError.
Proof. split; reflexivity. Qed.

(** C4, as the code has it: the flag of a pattern operation is the
    piece after a second colon. [name(match:Bob:i)] compiles to the
    anchored, case-insensitive pattern over Bob, which accepts bob and
    BOB but not Bobby, and [name(contains:ob:i)] compiles to the
    case-insensitive pattern ob, which accepts Bob and bob but not Bxy;
    an i written after a comma is one more argument of the clause, a
    match of the string i. *)
Theorem flag_after_colon (pattern_ok : str -> bool) (q : Query) :
  pattern_ok "^Bob$" = true -> pattern_ok "ob" = true ->
  dataTableFilter pattern_ok q "name(match:Bob:i)"
  = Ok (Find q [ [ Pred "name" (PRegExp (mkRegExp "^Bob$" "i")) ] ])
  /\ regexp_test (mkRegExp "^Bob$" "i") "bob" = Some true
  /\ regexp_test (mkRegExp "^Bob$" "i") "BOB" = Some true
  /\ regexp_test (mkRegExp "^Bob$" "i") "Bobby" = Some false
  /\ dataTableFilter pattern_ok q "name(contains:ob:i)"
     = Ok (Find q [ [ Pred "name" (PRegExp (mkRegExp "ob" "ig")) ] ])
  /\ regexp_test (mkRegExp "ob" "ig") "Bob" = Some true
  /\ regexp_test (mkRegExp "ob" "ig") "bob" = Some true
  /\ regexp_test (mkRegExp "ob" "ig") "Bxy" = Some false
  /\ dataTableFilter pattern_ok q "name(match:Bob,i)"
     = Ok (Find q [ [ Pred "name" (PStr "Bob"); Pred "name" (PStr "i") ] ]).
Proof.
  intros H1 H2. cbv in H1, H2.
  repeat split; try reflexivity.
  - cbv. rewrite H1. reflexivity.
  - cbv. rewrite H2. reflexivity.
Qed.

Lemma flag_after_colon_witness :
  plain_pattern "^Bob$" = true /\ plain_pattern "ob" = true /\
  dataTableFilter plain_pattern AllDocuments "name(match:Bob:i)"
  = Ok (Find AllDocuments [ [ Pred "name" (PRegExp (mkRegExp "^Bob$" "i")) ] ])
  /\ regexp_test (mkRegExp "^Bob$" "i") "bob" = Some true
  /\ regexp_test (mkRegExp "^Bob$" "i") "BOB" = Some true
  /\ regexp_test (mkRegExp "^Bob$" "i") "Bobby" = Some false
  /\ dataTableFilter plain_pattern AllDocuments "name(contains:ob:i)"
     = Ok (Find AllDocuments [ [ Pred "name" (PRegExp (mkRegExp "ob" "ig")) ] ])
  /\ regexp_test (mkRegExp "ob" "ig") "Bob" = Some true
  /\ regexp_test (mkRegExp "ob" "ig") "bob" = Some true
  /\ regexp_test (mkRegExp "ob" "ig") "Bxy" = Some false
  /\ dataTableFilter plain_pattern AllDocuments "name(match:Bob,i)"
     = Ok (Find AllDocuments
             [ [ Pred "name" (PStr "Bob"); Pred "name" (PStr "i") ] ]).
Proof.
  split; [reflexivity|]. split; [reflexivity|].
  apply (flag_after_colon plain_pattern AllDocuments); reflexivity.
Defined.

(** C4 as stated fails: with the i after a comma, the filter
    [name(match:Bob,i)] accepts neither bob nor BOB, and the filter
    [name(contains:ob,i)] accepts neither Bob nor bob. *)
Lemma flag_after_comma_counterexample :
  (exists q, dataTableFilter plain_pattern AllDocuments "name(match:Bob,i)" = Ok q
             /\ accepts q "bob" = Some false /\ accepts q "BOB" = Some false)
  /\ (exists q, dataTableFilter plain_pattern AllDocuments "name(contains:ob,i)" = Ok q
                /\ accepts q "Bob" = Some false /\ accepts q "bob" = Some false).
Proof.
  split; eexists; (split; [reflexivity|]); split; reflexivity.
Qed.

(** C5: [dataTableFilter] throws on the filter texts [a(contains:[)]
    and [a(match:[:i)]: the value goes as it is into the pattern of a
    regular expression, and the engine rejects a pattern whose bracket
    is not closed. *)
Theorem filter_text_can_throw (pattern_ok : str -> bool) (q : Query) :
  pattern_ok "[" = false -> pattern_ok "^[$" = false ->
  dataTableFilter pattern_ok q "a(contains:[)" = Throw SyntaxError
  /\ dataTableFilter pattern_ok q "a(match:[:i)" = Throw SyntaxError.
Proof.
  intros H1 H2. cbv in H1, H2. split; cbv; [rewrite H1|rewrite H2]; reflexivity.
Qed.

Lemma filter_text_can_throw_witness :
  plain_pattern "[" = false /\ plain_pattern "^[$" = false /\
  (dataTableFilter plain_pattern AllDocuments "a(contains:[)"
   = Throw SyntaxError
   /\ dataTableFilter plain_pattern AllDocuments "a(match:[:i)"
      = Throw SyntaxError).
Proof.
  split; [reflexivity|]. split; [reflexivity|].
  apply (filter_text_can_throw plain_pattern AllDocuments); reflexivity.
Defined.

(** C6, as the code has it: a delimiter before the first clause is the
    first token, so the loop takes the delimiters for the filters and
    the clauses for the delimiters; for every filter text made of
    clauses separated by single delimiters, the text with one more
    delimiter in front leaves the query unchanged. So [;a(eq:1)] leaves
    the query unchanged, while [a(eq:1)] constrains it. *)
Theorem leading_delimiter_drops_clauses (pattern_ok : str -> bool) (q : Query)
    (d : ascii) (f a : str) (cs : list (ascii * (str * str))) :
  is_delimiter d = true -> field_ok f = true -> args_ok a = true ->
  clauses_ok cs = true ->
  dataTableFilter pattern_ok q (d :: clause f a ++ text cs) = Ok q
  /\ dataTableFilter pattern_ok q ";a(eq:1)" = Ok q
  /\ dataTableFilter pattern_ok q "a(eq:1)"
     = Ok (Find q [ [ Pred "a" (POp "$eq" (One "1")) ] ]).
Proof.
  intros Hd Hf Ha Hcs. split; [|split; reflexivity].
  apply (leading_delimiter_pass_through pattern_ok q ((d, (f, a)) :: cs)).
  cbn [clauses_ok forallb]. rewrite Hd, Hf, Ha. exact Hcs.
Qed.

Lemma leading_delimiter_drops_clauses_witness :
  is_delimiter ";" = true /\ field_ok "a" = true /\ args_ok "eq:1" = true /\
  clauses_ok example_rest = true /\
  (dataTableFilter plain_pattern AllDocuments
     (";"%char :: clause "a" "eq:1" ++ text example_rest)
   = Ok AllDocuments
   /\ dataTableFilter plain_pattern AllDocuments ";a(eq:1)" = Ok AllDocuments
   /\ dataTableFilter plain_pattern AllDocuments "a(eq:1)"
      = Ok (Find AllDocuments [ [ Pred "a" (POp "$eq" (One "1")) ] ])).
Proof.
  split; [reflexivity|]. split; [reflexivity|]. split; [reflexivity|].
  split; [reflexivity|].
  apply (leading_delimiter_drops_clauses plain_pattern AllDocuments
           ";" "a" "eq:1" example_rest); reflexivity.
Defined.

(** C6 as stated fails: [;a(eq:1)] does not compile as [a(eq:1)]
    does. *)
Lemma leading_delimiter_counterexample :
  dataTableFilter plain_pattern AllDocuments ";a(eq:1)"
  <> dataTableFilter plain_pattern AllDocuments "a(eq:1)".
Proof. discriminate. Qed.



(** ** Doubles on the safe integers *)

Section Doubles.
Local Open Scope Z_scope.

Lemma digits2_size (p : positive) : digits2_pos p = Pos.size p.
Proof. induction p as [p IH|p IH|]; simpl; rewrite ?IH; reflexivity. Qed.

Lemma digits_bounds (p : positive) :
  2 ^ (Zpos (digits2_pos p) - 1) <= Zpos p < 2 ^ Zpos (digits2_pos p).
Proof.
  rewrite digits2_size. split.
  - pose proof (Pos.size_le p) as H.
    assert (H' : Zpos (2 ^ Pos.size p) <= Zpos p~0) by exact H.
    rewrite Pos2Z.inj_pow in H'.
    replace (Zpos (Pos.size p)) with (Z.succ (Zpos (Pos.size p) - 1)) in H'
      by lia.
    rewrite Z.pow_succ_r in H' by lia.
    change (Zpos p~0) with (2 * Zpos p) in H'. lia.
  - pose proof (Pos.size_gt p) as H.
    assert (H' : Zpos p < Zpos (2 ^ Pos.size p)) by exact H.
    rewrite Pos2Z.inj_pow in H'. exact H'.
Qed.

Lemma digits_le (p : positive) (n : Z) :
  Zpos p < 2 ^ n -> Zpos (digits2_pos p) <= n.
Proof.
  intros H. destruct (digits_bounds p) as [Hl _].
  destruct (Z_le_gt_dec (Zpos (digits2_pos p)) n) as [|Hgt]; [assumption|].
  exfalso.
  assert (0 <= n) by (destruct n; try lia; simpl in H; lia).
  assert (2 ^ n <= 2 ^ (Zpos (digits2_pos p) - 1))
    by (apply Z.pow_le_mono_r; lia).
  lia.
Qed.

Lemma digits_unique (p : positive) (d : Z) :
  2 ^ (d - 1) <= Zpos p < 2 ^ d -> Zpos (digits2_pos p) = d.
Proof.
  intros [Hl Hu]. destruct (digits_bounds p) as [Hl' Hu'].
  assert (0 < d) by (destruct d; try lia; simpl in Hu; lia).
  destruct (Z.lt_trichotomy (Zpos (digits2_pos p)) d) as [Hlt|[->|Hgt]];
    [exfalso|reflexivity|exfalso].
  - assert (2 ^ Zpos (digits2_pos p) <= 2 ^ (d - 1))
      by (apply Z.pow_le_mono_r; lia).
    lia.
  - assert (2 ^ d <= 2 ^ (Zpos (digits2_pos p) - 1))
      by (apply Z.pow_le_mono_r; lia).
    lia.
Qed.

Lemma scaled_bounds (x d k : Z) :
  2 ^ (d - 1) <= x < 2 ^ d -> 0 < d -> 0 <= k ->
  2 ^ (d + k - 1) <= x * 2 ^ k < 2 ^ (d + k).
Proof.
  intros [Hl Hu] Hd Hk.
  assert (0 < 2 ^ k) by (apply Z.pow_pos_nonneg; lia).
  replace (d + k - 1) with (d - 1 + k) by lia.
  rewrite !Z.pow_add_r by lia.
  split; [apply Z.mul_le_mono_nonneg_r; lia|apply Z.mul_lt_mono_pos_r; lia].
Qed.

Lemma shift_value (c k : positive) :
  Zpos (Pos.iter xO c k) = Zpos c * 2 ^ Zpos k.
Proof.
  induction k as [|k IH] using Pos.peano_ind.
  - simpl. lia.
  - rewrite Pos.iter_succ, Pos2Z.inj_xO, IH, Pos2Z.inj_succ, Z.pow_succ_r by lia.
    ring.
Qed.

Lemma iter_pos_iter {A : Type} (f : A -> A) (n : positive) :
  forall x, iter_pos f n x = Pos.iter f x n.
Proof.
  induction n as [n IH|n IH|]; intros x; simpl; rewrite ?IH; try reflexivity.
  rewrite !Pos.iter_swap. reflexivity.
Qed.

Lemma shr_exact (c k : positive) :
  iter_pos shr_1 k (Build_shr_record (Zpos (Pos.iter xO c k)) false false)
  = Build_shr_record (Zpos c) false false.
Proof.
  rewrite iter_pos_iter.
  induction k as [|k IH] using Pos.peano_ind.
  - reflexivity.
  - rewrite (Pos.iter_succ k _ xO), (Pos.iter_succ_r k _ shr_1).
    cbn [shr_1 orb]. exact IH.
Qed.

(** A mantissa of 53 bits followed by [j] zero bits is rounded to
    itself. *)
Lemma round_aux_exact (s : bool) (c : positive) (e j : Z) (m : positive) :
  Zpos (digits2_pos c) = 53 -> -1074 <= e <= 971 -> 0 <= j ->
  Zpos m = Zpos c * 2 ^ j ->
  binary_round_aux 53 1024 s (Zpos m) (e - j) loc_Exact = S754_finite s c e.
Proof.
  intros Hc He Hj Hm.
  assert (Hd : Zpos (digits2_pos m) = 53 + j).
  { apply digits_unique. rewrite Hm. pose proof (digits_bounds c) as Hb.
    rewrite Hc in Hb. apply scaled_bounds; [exact Hb|lia|exact Hj]. }
  assert (Hfinal : forall e',
            e' = e ->
            (let '(mrs'', e'') :=
               shr_fexp 53 1024
                 (round_nearest_even (Zpos c) loc_Exact) e' loc_Exact in
             match shr_m mrs'' with
             | Z0 => S754_zero s
             | Zpos m0 =>
                 if e'' <=? 1024 - 53 then S754_finite s m0 e''
                 else S754_infinity s
             | Zneg _ => S754_nan
             end) = S754_finite s c e).
  { intros e' ->. unfold shr_fexp, fexp, emin, round_nearest_even, Zdigits2.
    rewrite Hc.
    replace (Z.max (53 + e - 53) (3 - 1024 - 53) - e) with 0 by lia.
    cbn [shr shr_record_of_loc shr_m].
    destruct (Z.leb_spec e (1024 - 53)); [reflexivity|lia]. }
  unfold binary_round_aux.
  unfold shr_fexp at 1. unfold fexp, emin, Zdigits2. rewrite Hd.
  replace (Z.max (53 + j + (e - j) - 53) (3 - 1024 - 53) - (e - j)) with j
    by lia.
  destruct j as [|jp|jp]; [| |lia].
  - cbn [shr shr_record_of_loc]. rewrite Z.mul_1_r in Hm. inversion Hm; subst m.
    cbn [shr_m loc_of_shr_record]. apply Hfinal. lia.
  - assert (Em : m = Pos.iter xO c jp)
      by (apply Pos2Z.inj; rewrite shift_value; exact Hm).
    subst m. cbn [shr shr_record_of_loc]. rewrite shr_exact.
    cbn [shr_m loc_of_shr_record]. apply Hfinal. lia.
Qed.

Lemma mant_value (p : positive) :
  Zpos (digits2_pos p) <= 53 ->
  Zpos (mant p) = Zpos p * 2 ^ (53 - Zpos (digits2_pos p))
  /\ Zpos (digits2_pos (mant p)) = 53.
Proof.
  intros H. unfold mant.
  destruct (53 - Zpos (digits2_pos p)) as [|k|k] eqn:E; [| |lia].
  - split; [lia|lia].
  - rewrite shift_value. split; [reflexivity|].
    apply digits_unique. rewrite shift_value.
    assert (E' : 53 = Zpos (digits2_pos p) + Zpos k) by lia.
    rewrite E'. apply scaled_bounds; [apply digits_bounds|lia|lia].
Qed.

(** The double of [z * 2^(-k)] when [z] is a safe integer. *)
Lemma round_exact (s : bool) (z m : positive) (k : Z) :
  Zpos (digits2_pos z) <= 53 -> 0 <= k ->
  Zpos m = Zpos z * 2 ^ k ->
  binary_round 53 1024 s m (- k)
  = S754_finite s (mant z) (Zpos (digits2_pos z) - 53).
Proof.
  intros Hz Hk Hm. destruct (mant_value z Hz) as [Hv Hc].
  pose proof (Pos2Z.is_pos (digits2_pos z)) as Hpos.
  assert (Hd : Zpos (digits2_pos m) = Zpos (digits2_pos z) + k).
  { apply digits_unique. rewrite Hm.
    apply scaled_bounds; [apply digits_bounds|lia|exact Hk]. }
  unfold binary_round, shl_align, fexp, emin. rewrite Hd.
  replace (Z.max (Zpos (digits2_pos z) + k + - k - 53) (3 - 1024 - 53) - - k)
    with (Zpos (digits2_pos z) + k - 53) by lia.
  replace (Z.max (Zpos (digits2_pos z) + k + - k - 53) (3 - 1024 - 53))
    with (Zpos (digits2_pos z) - 53) by lia.
  destruct (Zpos (digits2_pos z) + k - 53) as [|n|n] eqn:E.
  - replace (- k) with ((Zpos (digits2_pos z) - 53) - 0) by lia.
    apply round_aux_exact; [exact Hc|lia|lia|].
    rewrite Hv, Hm. replace (53 - Zpos (digits2_pos z)) with k by lia. ring.
  - replace (- k) with ((Zpos (digits2_pos z) - 53) - Zpos n) by lia.
    apply round_aux_exact; [exact Hc|lia|lia|].
    rewrite Hv, Hm, <- Z.mul_assoc, <- Z.pow_add_r by lia.
    f_equal. f_equal. lia.
  - replace (Zpos (digits2_pos z) - 53)
      with ((Zpos (digits2_pos z) - 53) - 0) at 1 by lia.
    apply round_aux_exact; [exact Hc|lia|lia|].
    rewrite shift_value, Hm, Hv, Z.mul_1_r, <- Z.mul_assoc, <- Z.pow_add_r by lia.
    f_equal. f_equal. lia.
Qed.

Lemma safe_digits (p : positive) :
  Zpos p < 9007199254740992 -> Zpos (digits2_pos p) <= 53.
Proof. intros H. apply digits_le. exact H. Qed.

Lemma normalize_exact (z : Z) (k : Z) :
  safe z = true -> 0 <= k ->
  binary_normalize 53 1024 (z * 2 ^ k) (- k) false = safe_double z.
Proof.
  unfold safe. intros Hs Hk. apply Z.ltb_lt in Hs.
  assert (Hp : 0 < 2 ^ k) by (apply Z.pow_pos_nonneg; lia).
  destruct z as [|p|p].
  - reflexivity.
  - destruct (Zpos p * 2 ^ k) as [|m|m] eqn:E; try lia.
    cbn [binary_normalize safe_double].
    apply round_exact; [apply safe_digits; exact Hs|exact Hk|symmetry; exact E].
  - destruct (Zneg p * 2 ^ k) as [|m|m] eqn:E; try lia.
    cbn [binary_normalize safe_double].
    apply round_exact; [apply safe_digits; exact Hs|exact Hk|]. lia.
Qed.

Lemma Num_exact (z : Z) : safe z = true -> Num z = safe_double z.
Proof.
  intros Hs. unfold Num.
  replace z with (z * 2 ^ 0) at 1 by (rewrite Z.mul_1_r; reflexivity).
  exact (normalize_exact z 0 Hs (Z.le_refl 0)).
Qed.

Lemma number_lt_exact (z : Z) :
  safe z = true -> number_lt (Num z) (Num 0) = (z <? 0).
Proof.
  intros Hs. rewrite (Num_exact z Hs). destruct z; reflexivity.
Qed.

Lemma number_mul_exact (a b : Z) :
  safe a = true -> safe b = true -> safe (a * b) = true ->
  0 <= a -> 0 <= b ->
  number_mul (Num a) (Num b) = Num (a * b).
Proof.
  intros Ha Hb Hab Ha0 Hb0.
  rewrite (Num_exact a Ha), (Num_exact b Hb), (Num_exact _ Hab).
  unfold safe in *. apply Z.ltb_lt in Ha, Hb, Hab.
  destruct a as [|p|p]; [destruct b; [reflexivity|reflexivity|lia]| |lia].
  destruct b as [|r|r]; [reflexivity| |lia].
  cbn [Z.mul safe_double number_mul SFmul xorb].
  pose proof (safe_digits p Ha) as Hp. pose proof (safe_digits r Hb) as Hr.
  pose proof (safe_digits (p * r) Hab) as Hpr.
  destruct (mant_value p Hp) as [Vp _]. destruct (mant_value r Hr) as [Vr _].
  destruct (mant_value (p * r) Hpr) as [Vpr Cpr].
  destruct (digits_bounds p) as [Lp Up]. destruct (digits_bounds r) as [Lr Ur].
  destruct (digits_bounds (p * r)) as [Lpr Upr].
  pose proof (Pos2Z.is_pos (digits2_pos p)).
  pose proof (Pos2Z.is_pos (digits2_pos r)).
  pose proof (Pos2Z.is_pos (digits2_pos (p * r))).
  set (dp := Zpos (digits2_pos p)) in *. set (dr := Zpos (digits2_pos r)) in *.
  set (dpr := Zpos (digits2_pos (p * r))) in *.
  assert (Hj : dp + dr - 1 <= dpr).
  { destruct (Z_le_gt_dec (dp + dr - 1) dpr) as [|Hgt]; [assumption|exfalso].
    assert (2 ^ dpr <= 2 ^ (dp - 1 + (dr - 1)))
      by (apply Z.pow_le_mono_r; lia).
    rewrite Z.pow_add_r in * by lia.
    assert (2 ^ (dp - 1) * 2 ^ (dr - 1) <= Zpos p * Zpos r)
      by (apply Z.mul_le_mono_nonneg; try lia;
          apply Z.pow_nonneg; lia).
    rewrite Pos2Z.inj_mul in Upr. lia. }
  replace (dp - 53 + (dr - 53)) with ((dpr - 53) - (dpr - dp - dr + 53))
    by lia.
  apply round_aux_exact; [exact Cpr|lia|lia|].
  rewrite Pos2Z.inj_mul, Vp, Vr, Vpr, Pos2Z.inj_mul.
  fold dp dr dpr.
  replace (Zpos p * 2 ^ (53 - dp) * (Zpos r * 2 ^ (53 - dr)))
    with (Zpos p * Zpos r * (2 ^ (53 - dp) * 2 ^ (53 - dr))) by ring.
  rewrite <- (Z.pow_add_r 2 (53 - dp) (53 - dr)) by lia.
  rewrite <- (Z.mul_assoc (Zpos p * Zpos r)),
    <- (Z.pow_add_r 2 (53 - dpr)) by lia.
  f_equal. f_equal. lia.
Qed.

Lemma shl_align_value (m : positive) (e ez : Z) :
  ez <= e -> Zpos (fst (shl_align m e ez)) = Zpos m * 2 ^ (e - ez).
Proof.
  intros H. unfold shl_align.
  destruct (ez - e) as [|d|d] eqn:E; cbn [fst]; [| lia |].
  - replace (e - ez) with 0 by lia. lia.
  - rewrite shift_value. f_equal. f_equal. lia.
Qed.

Lemma exact_value (z : Z) (s : bool) (m : positive) (e : Z) :
  safe z = true -> safe_double z = S754_finite s m e ->
  cond_Zopp s (Zpos m) = z * 2 ^ (- e) /\ -52 <= e <= 0.
Proof.
  unfold safe. intros Hs E. apply Z.ltb_lt in Hs.
  assert (H : forall p, Zpos p < 9007199254740992 ->
            Zpos (mant p) = Zpos p * 2 ^ (- (Zpos (digits2_pos p) - 53))
            /\ -52 <= Zpos (digits2_pos p) - 53 <= 0).
  { intros p Hp. pose proof (safe_digits p Hp) as Hd.
    destruct (mant_value p Hd) as [Vp _].
    pose proof (Pos2Z.is_pos (digits2_pos p)).
    replace (- (Zpos (digits2_pos p) - 53)) with (53 - Zpos (digits2_pos p))
      by lia.
    split; [exact Vp|lia]. }
  destruct z as [|p|p]; [discriminate| |]; cbn [safe_double] in E;
    inversion E; subst s m e; clear E; cbn [cond_Zopp].
  - apply H. exact Hs.
  - destruct (H p Hs) as [V R]. split; [|exact R].
    rewrite V. change (Zneg p) with (- Zpos p). rewrite Z.mul_opp_l.
    reflexivity.
Qed.

Lemma number_sub_exact (a b : Z) :
  safe a = true -> safe b = true -> safe (a - b) = true ->
  number_sub (Num a) (Num b) = Num (a - b).
Proof.
  intros Ha Hb Hab.
  rewrite (Num_exact a Ha), (Num_exact b Hb), (Num_exact _ Hab).
  assert (Hfin : forall sa ma ea sb mb eb,
            safe_double a = S754_finite sa ma ea -> safe_double b = S754_finite sb mb eb ->
            number_sub (S754_finite sa ma ea) (S754_finite sb mb eb)
            = safe_double (a - b)).
  { intros sa ma ea sb mb eb Ea Eb.
    destruct (exact_value a sa ma ea Ha Ea) as [Va Ra].
    destruct (exact_value b sb mb eb Hb Eb) as [Vb Rb].
    cbn [number_sub SFsub].
    set (ez := Z.min ea eb).
    assert (Hz : ez <= ea /\ ez <= eb /\ -52 <= ez <= 0) by (unfold ez; lia).
    destruct Hz as (Hza & Hzb & Hzr).
    assert (Sa : cond_Zopp sa (Zpos (fst (shl_align ma ea ez)))
                 = a * 2 ^ (- ez)).
    { rewrite shl_align_value by exact Hza.
      replace (cond_Zopp sa (Zpos ma * 2 ^ (ea - ez)))
        with (cond_Zopp sa (Zpos ma) * 2 ^ (ea - ez))
        by (destruct sa; cbn [cond_Zopp]; ring).
      rewrite Va, <- Z.mul_assoc, <- Z.pow_add_r by lia.
      f_equal. f_equal. lia. }
    assert (Sb : cond_Zopp sb (Zpos (fst (shl_align mb eb ez)))
                 = b * 2 ^ (- ez)).
    { rewrite shl_align_value by exact Hzb.
      replace (cond_Zopp sb (Zpos mb * 2 ^ (eb - ez)))
        with (cond_Zopp sb (Zpos mb) * 2 ^ (eb - ez))
        by (destruct sb; cbn [cond_Zopp]; ring).
      rewrite Vb, <- Z.mul_assoc, <- Z.pow_add_r by lia.
      f_equal. f_equal. lia. }
    rewrite Sa, Sb, <- Z.mul_sub_distr_r.
    replace ez with (- (- ez)) at 2 by lia.
    apply normalize_exact; [exact Hab|lia]. }
  destruct a as [|p|p]; destruct b as [|r|r];
    try reflexivity; apply Hfin; reflexivity.
Qed.

(** No integer is read as [NaN]. *)
Lemma shr_1_nonneg (mrs : shr_record) :
  0 <= shr_m mrs -> 0 <= shr_m (shr_1 mrs).
Proof.
  destruct mrs as [m r s]. cbn [shr_m].
  destruct m as [|[p|p|]|[p|p|]]; cbn [shr_1 shr_m]; lia.
Qed.

Lemma iter_pos_invariant {A : Type} (P : A -> Prop) (f : A -> A) :
  (forall x, P x -> P (f x)) -> forall n x, P x -> P (iter_pos f n x).
Proof.
  intros Hf. induction n as [n IH|n IH|]; intros x Hx; cbn [iter_pos]; auto.
Qed.

Lemma shr_fexp_nonneg (m e : Z) (l : location) :
  0 <= m -> 0 <= shr_m (fst (shr_fexp 53 1024 m e l)).
Proof.
  intros Hm. unfold shr_fexp, shr.
  assert (H0 : 0 <= shr_m (shr_record_of_loc m l))
    by (destruct l as [|[| |]]; exact Hm).
  destruct (fexp 53 1024 (Zdigits2 m + e) - e) as [|n|n]; cbn [fst];
    [exact H0| |exact H0].
  apply (iter_pos_invariant (fun mrs => 0 <= shr_m mrs)); [|exact H0].
  exact shr_1_nonneg.
Qed.

Lemma round_aux_not_nan (s : bool) (m : positive) (e : Z) :
  binary_round_aux 53 1024 s (Zpos m) e loc_Exact <> S754_nan.
Proof.
  unfold binary_round_aux.
  pose proof (shr_fexp_nonneg (Zpos m) e loc_Exact ltac:(lia)) as H1.
  destruct (shr_fexp 53 1024 (Zpos m) e loc_Exact) as [mrs' e'].
  cbn [fst] in H1.
  assert (H2 : 0 <= round_nearest_even (shr_m mrs') (loc_of_shr_record mrs')).
  { unfold round_nearest_even.
    destruct (loc_of_shr_record mrs') as [|[| |]]; try lia.
    destruct (Z.even (shr_m mrs')); lia. }
  pose proof (shr_fexp_nonneg _ e' loc_Exact H2) as H3.
  destruct (shr_fexp 53 1024 _ e' loc_Exact) as [mrs'' e''].
  cbn [fst] in H3.
  destruct (shr_m mrs'') as [|x|x]; [discriminate| |lia].
  destruct (e'' <=? 1024 - 53); discriminate.
Qed.

Lemma Num_not_NaN (z : Z) : Num z <> NaN.
Proof.
  unfold Num, NaN, binary_normalize.
  destruct z as [|p|p]; [discriminate| |]; unfold binary_round;
    destruct (shl_align _ _ _) as [mz ez]; apply round_aux_not_nan.
Qed.

Lemma Num_inj (a b : Z) :
  safe a = true -> safe b = true -> Num a = Num b -> a = b.
Proof.
  intros Ha Hb. rewrite (Num_exact a Ha), (Num_exact b Hb).
  unfold safe in *. apply Z.ltb_lt in Ha, Hb.
  assert (H : forall p r, Zpos p < 9007199254740992 ->
            Zpos r < 9007199254740992 ->
            mant p = mant r ->
            Zpos (digits2_pos p) - 53 = Zpos (digits2_pos r) - 53 -> p = r).
  { intros p r Hp Hr Hm Hd.
    destruct (mant_value p (safe_digits p Hp)) as [Vp _].
    destruct (mant_value r (safe_digits r Hr)) as [Vr _].
    rewrite Hm, Vr in Vp. replace (Zpos (digits2_pos r)) with (Zpos (digits2_pos p)) in Vp by lia.
    pose proof (safe_digits p Hp).
    assert (0 < 2 ^ (53 - Zpos (digits2_pos p)))
      by (apply Z.pow_pos_nonneg; lia).
    apply Pos2Z.inj. nia. }
  destruct a as [|p|p], b as [|r|r]; cbn [safe_double]; intros E;
    try discriminate E; try reflexivity; inversion E as [[Hm Hd]];
    f_equal; apply H; try assumption; lia.
Qed.

End Doubles.

(** ** dataTablePaginate *)

(** The two clamps on the safe integers. *)
Lemma page_clamped (p : Z) :
  safe p = true ->
  (if number_lt (number_sub (Num p) (Num 1)) (Num 0) then Num 0
   else number_sub (Num p) (Num 1))
  = Num (Z.max (p - 1) 0).
Proof.
  intros Hp. destruct (safe (p - 1)) eqn:Hp1.
  - rewrite (number_sub_exact p 1 Hp eq_refl Hp1), (number_lt_exact _ Hp1).
    destruct (Z.ltb_spec (p - 1) 0);
      [rewrite Z.max_r by lia|rewrite Z.max_l by lia]; reflexivity.
  - assert (E : p = (-9007199254740991)%Z).
    { unfold safe in Hp, Hp1. apply Z.ltb_lt in Hp. apply Z.ltb_ge in Hp1.
      lia. }
    subst p. vm_compute. reflexivity.
Qed.

Lemma limit_clamped (i : Z) :
  safe i = true ->
  (if number_lt (Num i) (Num 0) then Num 0 else Num i) = Num (Z.max i 0).
Proof.
  intros Hi. rewrite (number_lt_exact i Hi).
  destruct (Z.ltb_spec i 0);
    [rewrite Z.max_r by lia|rewrite Z.max_l by lia]; reflexivity.
Qed.

Lemma safe_max (z y : Z) :
  safe z = true -> (y <= z)%Z -> safe (Z.max y 0) = true.
Proof.
  unfold safe. intros H Hy. apply Z.ltb_lt in H. apply Z.ltb_lt. lia.
Qed.

(** On the safe integers whose product is safe, the limit is
    max(itemsPerPage, 0) and the offset max(page - 1, 0) times the
    limit. *)
Lemma paginate_numbers (options : Options) (q : Query) (a b : arg) (p i : Z) :
  given a = true -> given b = true ->
  numeric a = Num p -> numeric b = Num i ->
  safe p = true -> safe i = true ->
  safe (Z.max (p - 1) 0 * Z.max i 0) = true ->
  dataTablePaginate options q a b
  = Limit (Skip q (Num (Z.max (p - 1) 0 * Z.max i 0))) (Num (Z.max i 0)).
Proof.
  intros Ga Gb Ha Hb Hp Hi Hpi.
  assert (E : forall x y : number, x = Num p -> y = Num i ->
            Limit
              (Skip q
                 (number_mul
                    (if number_lt (number_sub x (Num 1)) (Num 0) then Num 0
                     else number_sub x (Num 1))
                    (if number_lt y (Num 0) then Num 0 else y)))
              (if number_lt y (Num 0) then Num 0 else y)
            = Limit (Skip q (Num (Z.max (p - 1) 0 * Z.max i 0)))
                (Num (Z.max i 0))).
  { intros x y -> ->. rewrite (page_clamped p Hp), (limit_clamped i Hi).
    rewrite number_mul_exact;
      [reflexivity|apply (safe_max p); [exact Hp|lia]
      |apply (safe_max i); [exact Hi|lia]|exact Hpi|lia|lia]. }
  unfold dataTablePaginate.
  destruct a as [| |na|sa]; try discriminate;
    destruct b as [| |nb|sb]; try discriminate;
    cbn [default_param to_number numeric] in *; apply E; assumption.
Qed.

(** A text without a number, as [itemsPerPage], gives a limit and an
    offset that are [NaN]. *)
Lemma paginate_limit_nan (options : Options) (q : Query) (a : arg) (s : str) :
  parseInt s = NaN ->
  dataTablePaginate options q a (AString s) = Limit (Skip q NaN) NaN.
Proof.
  intros H. unfold dataTablePaginate. cbn [default_param to_number].
  rewrite H. change (number_lt NaN (Num 0)) with false. cbv iota.
  destruct (if number_lt _ _ then _ else _) as [x|x| |x m e]; reflexivity.
Qed.

(** A text without a number, as [page], gives an offset that is
    [NaN]. *)
Lemma paginate_page_nan (options : Options) (q : Query) (b : arg) (s : str) :
  parseInt s = NaN ->
  exists limit, dataTablePaginate options q (AString s) b
                = Limit (Skip q NaN) limit.
Proof.
  intros H. unfold dataTablePaginate. cbn [default_param to_number].
  rewrite H. change (number_sub NaN (Num 1)) with NaN.
  change (number_lt NaN (Num 0)) with false. cbv iota.
  eexists. reflexivity.
Qed.

(** The default page size is what [null] gives. *)
Lemma null_items_per_page (options : Options) (q : Query) (n : Z) :
  defaultItemsPerPage options = Num n -> (0 <= n)%Z -> safe n = true ->
  dataTablePaginate options q Null Null = Limit (Skip q (Num 0)) (Num n).
Proof.
  intros H Hn Hs.
  unfold dataTablePaginate. cbn [default_param to_number]. rewrite H.
  rewrite (page_clamped 1 eq_refl), (limit_clamped n Hs).
  change (Z.max (1 - 1) 0) with 0%Z. rewrite (Z.max_l n 0) by lia.
  rewrite (number_mul_exact 0 n eq_refl Hs eq_refl); [reflexivity|lia|lia].
Qed.

(** C7, as the code has it: for a page and an itemsPerPage that are
    safe integers (below 2^53 in absolute value), or texts that
    [parseInt] reads as safe integers, and whose product of
    max(page - 1, 0) and max(itemsPerPage, 0) is safe, the limit is
    max(itemsPerPage, 0) and the offset is max(page - 1, 0) times the
    limit; so page 1 with 10 items gives offset 0 and limit 10, page 3
    with 20 items offset 40 and limit 20, page 0 with 10 items offset 0
    and limit 10, and -5 items the limit 0. Beyond the safe integers
    the numbers are doubles: the product of 94906267 by itself is
    rounded to 9007199515875288, and an infinite page with the limit 0
    gives the offset [NaN]. A text that [parseInt] reads as no number
    is not clamped: as itemsPerPage it gives the limit and the offset
    [NaN], as page the offset [NaN]. The function is total: it never
    throws. *)
Theorem pagination_arithmetic (options : Options) (q : Query)
    (a b : arg) (p i : Z) (s : str) :
  given a = true -> given b = true ->
  numeric a = Num p -> numeric b = Num i ->
  safe p = true -> safe i = true ->
  safe (Z.max (p - 1) 0 * Z.max i 0) = true ->
  parseInt s = NaN ->
  dataTablePaginate options q a b
  = Limit (Skip q (Num (Z.max (p - 1) 0 * Z.max i 0))) (Num (Z.max i 0))
  /\ dataTablePaginate options q (ANumber (Num 1)) (ANumber (Num 10))
     = Limit (Skip q (Num 0)) (Num 10)
  /\ dataTablePaginate options q (ANumber (Num 3)) (ANumber (Num 20))
     = Limit (Skip q (Num 40)) (Num 20)
  /\ dataTablePaginate options q (AString "3") (AString "20")
     = Limit (Skip q (Num 40)) (Num 20)
  /\ dataTablePaginate options q (ANumber (Num 0)) (ANumber (Num 10))
     = Limit (Skip q (Num 0)) (Num 10)
  /\ dataTablePaginate options q a (ANumber (Num (-5)))
     = Limit (Skip q (Num 0)) (Num 0)
  /\ dataTablePaginate options q
       (ANumber (Num 94906268)) (ANumber (Num 94906267))
     = Limit (Skip q (Num 9007199515875288)) (Num 94906267)
  /\ dataTablePaginate options q
       (ANumber (S754_infinity false)) (ANumber (Num 0))
     = Limit (Skip q NaN) (Num 0)
  /\ dataTablePaginate options q a (AString s) = Limit (Skip q NaN) NaN
  /\ (exists limit, dataTablePaginate options q (AString s) b
                    = Limit (Skip q NaN) limit).
Proof.
  intros Ga Gb Ha Hb Hp Hi Hpi Hs.
  split; [apply paginate_numbers; assumption|].
  do 4 (split; [vm_compute; reflexivity|]).
  split.
  { rewrite (paginate_numbers options q a (ANumber (Num (-5))) p (-5));
      auto;
      replace (Z.max (-5) 0) with 0%Z by reflexivity;
      rewrite ?Z.mul_0_r; reflexivity. }
  do 2 (split; [vm_compute; reflexivity|]).
  split; [apply paginate_limit_nan; exact Hs|].
  apply paginate_page_nan. exact Hs.
Qed.

Lemma pagination_arithmetic_witness :
  given (AString "3") = true /\ given (ANumber (Num 20)) = true /\
  numeric (AString "3") = Num 3 /\ numeric (ANumber (Num 20)) = Num 20 /\
  safe 3 = true /\ safe 20 = true /\
  safe (Z.max (3 - 1) 0 * Z.max 20 0) = true /\
  parseInt "abc" = NaN /\
  (dataTablePaginate default_options AllDocuments
     (AString "3") (ANumber (Num 20))
   = Limit (Skip AllDocuments (Num (Z.max (3 - 1) 0 * Z.max 20 0)))
       (Num (Z.max 20 0))
   /\ dataTablePaginate default_options AllDocuments
        (ANumber (Num 1)) (ANumber (Num 10))
      = Limit (Skip AllDocuments (Num 0)) (Num 10)
   /\ dataTablePaginate default_options AllDocuments
        (ANumber (Num 3)) (ANumber (Num 20))
      = Limit (Skip AllDocuments (Num 40)) (Num 20)
   /\ dataTablePaginate default_options AllDocuments
        (AString "3") (AString "20")
      = Limit (Skip AllDocuments (Num 40)) (Num 20)
   /\ dataTablePaginate default_options AllDocuments
        (ANumber (Num 0)) (ANumber (Num 10))
      = Limit (Skip AllDocuments (Num 0)) (Num 10)
   /\ dataTablePaginate default_options AllDocuments
        (AString "3") (ANumber (Num (-5)))
      = Limit (Skip AllDocuments (Num 0)) (Num 0)
   /\ dataTablePaginate default_options AllDocuments
        (ANumber (Num 94906268)) (ANumber (Num 94906267))
      = Limit (Skip AllDocuments (Num 9007199515875288)) (Num 94906267)
   /\ dataTablePaginate default_options AllDocuments
        (ANumber (S754_infinity false)) (ANumber (Num 0))
      = Limit (Skip AllDocuments NaN) (Num 0)
   /\ dataTablePaginate default_options AllDocuments
        (AString "3") (AString "abc")
      = Limit (Skip AllDocuments NaN) NaN
   /\ (exists limit,
         dataTablePaginate default_options AllDocuments
           (AString "abc") (ANumber (Num 20))
         = Limit (Skip AllDocuments NaN) limit)).
Proof.
  split; [reflexivity|]. split; [reflexivity|]. split; [reflexivity|].
  split; [reflexivity|]. split; [reflexivity|]. split; [reflexivity|].
  split; [reflexivity|]. split; [reflexivity|].
  apply (pagination_arithmetic default_options AllDocuments
           (AString "3") (ANumber (Num 20)) 3 20 "abc"); reflexivity.
Defined.

(** C7 as stated fails: with the texts abc and xyz for page and
    itemsPerPage, the offset and the limit are not numbers clamped to
    zero or more, they are [NaN]. *)
Lemma pagination_counterexample :
  dataTablePaginate default_options AllDocuments (AString "abc") (AString "xyz")
  = Limit (Skip AllDocuments NaN) NaN
  /\ ~ (exists offset limit : Z,
          (0 <= offset)%Z /\ (0 <= limit)%Z /\
          dataTablePaginate default_options AllDocuments
            (AString "abc") (AString "xyz")
          = Limit (Skip AllDocuments (Num offset)) (Num limit)).
Proof.
  split; [reflexivity|]. intros (offset & limit & _ & _ & H).
  change (Limit (Skip AllDocuments NaN) NaN
          = Limit (Skip AllDocuments (Num offset)) (Num limit)) in H.
  injection H as _ Hl. exact (Num_not_NaN limit (eq_sym Hl)).
Qed.

(** C8: without a page and without an itemsPerPage, the page is 1 but
    the limit is 0, whatever the configured default page size; the
    default parameter value 0 comes before the default of the options,
    which only [null] reaches ([null_items_per_page]). *)
Theorem absent_items_per_page (options : Options) (q : Query) (a : arg) :
  dataTablePaginate options q Absent Absent = Limit (Skip q (Num 0)) (Num 0)
  /\ dataTablePaginate options q a Absent
     = dataTablePaginate options q a (ANumber (Num 0))
  /\ dataTablePaginate options q Absent a
     = dataTablePaginate options q (ANumber (Num 1)) a
  /\ dataTablePaginate default_options q Absent Absent
     <> Limit (Skip q (Num 0)) (Num 10).
Proof.
  repeat split; try reflexivity. intros H. vm_compute in H. discriminate H.
Qed.

(** ** dataTableGetFilterList *)

(** Induction on values, through the arrays. *)
Lemma value_ind_nested (P : value -> Prop) :
  P VNull -> (forall z, P (VNum z)) -> (forall s, P (VStr s)) ->
  (forall l, Forall P l -> P (VArr l)) ->
  forall v, P v.
Proof.
  intros HNull HNum HStr HArr. fix IH 1. intros [ |z|s|l].
  - exact HNull.
  - apply HNum.
  - apply HStr.
  - apply HArr. induction l as [|v l IHl]; constructor.
    + apply IH.
    + exact IHl.
Qed.

Lemma value_eqb_eq (a : value) : forall b, value_eqb a b = true <-> a = b.
Proof.
  induction a as [ |z|s|l IH] using value_ind_nested; intros [ |z'|s'|l'];
    cbn [value_eqb]; try (split; [discriminate|discriminate]);
    try (split; reflexivity).
  - rewrite Z.eqb_eq. split; [intros ->; reflexivity|intros H; inversion H; auto].
  - rewrite str_eqb_eq. split; [intros ->; reflexivity|intros H; inversion H; auto].
  - revert l'. induction IH as [|v l Hv Hl IHl]; intros [|v' l'];
      try (split; [discriminate|discriminate]); try (split; reflexivity).
    rewrite andb_true_iff, Hv, IHl. split.
    + intros [-> H]. inversion H. reflexivity.
    + intros H. inversion H. auto.
Qed.

Lemma value_eqb_refl (a : value) : value_eqb a a = true.
Proof. apply value_eqb_eq. reflexivity. Qed.

Lemma value_eqb_neq (a b : value) : a <> b -> value_eqb a b = false.
Proof.
  intros H. destruct (value_eqb a b) eqn:E; [|reflexivity].
  apply value_eqb_eq in E. contradiction.
Qed.

(** *** The six [$unwind] stages *)

Lemma flat_map_flat_map {A B C : Type} (f : B -> list C) (g : A -> list B)
    (l : list A) :
  flat_map f (flat_map g l) = flat_map (fun a => flat_map f (g a)) l.
Proof.
  induction l as [|a l IH]; simpl; [reflexivity|].
  rewrite flat_map_app, IH. reflexivity.
Qed.

Lemma unwind_values (l : list value) :
  unwind (map Some l) = map Some (flat_map unwind_value l).
Proof.
  unfold unwind. induction l as [|v l IH]; simpl; [reflexivity|].
  rewrite IH, map_app. reflexivity.
Qed.

Lemma unwind_flatten (n : nat) : forall l,
  Nat.iter n unwind (map Some l) = map Some (flat_map (flatten n) l).
Proof.
  induction n as [|n IH]; intros l.
  - simpl. f_equal. induction l; simpl; congruence.
  - rewrite Nat.iter_succ_r, unwind_values, IH, flat_map_flat_map.
    reflexivity.
Qed.

Lemma unwind_app (a b : list (option value)) :
  unwind (a ++ b) = unwind a ++ unwind b.
Proof. unfold unwind. apply flat_map_app. Qed.

Lemma iter_unwind_app (n : nat) : forall a b,
  Nat.iter n unwind (a ++ b) = Nat.iter n unwind a ++ Nat.iter n unwind b.
Proof.
  induction n as [|n IH]; intros a b; [reflexivity|].
  rewrite !Nat.iter_succ_r, unwind_app. apply IH.
Qed.

Lemma iter_unwind_nil (n : nat) : Nat.iter n unwind [] = [].
Proof. induction n as [|n IH]; [reflexivity|]. simpl. rewrite IH. reflexivity. Qed.

(** The rows that reach [$group] are the values of the field, flattened
    six levels deep. *)
Lemma unwound_occurrences {document : Type}
    (resolve : str -> document -> option value)
    (collection : list document) (field : str) :
  unwound document resolve collection field
  = map Some (occurrences resolve collection field).
Proof.
  change (unwound document resolve collection field)
    with (Nat.iter 6 unwind (project_field document resolve field collection)).
  unfold occurrences, project_field.
  induction collection as [|d docs IH].
  - apply iter_unwind_nil.
  - cbn [map flat_map].
    change (resolve field d :: map (resolve field) docs)
      with ([resolve field d] ++ map (resolve field) docs).
    rewrite iter_unwind_app, IH, map_app. f_equal.
    destruct (resolve field d) as [v|].
    + change [Some v] with (map Some [v]).
      rewrite (unwind_flatten 6 [v]). cbn [flat_map]. rewrite app_nil_r.
      reflexivity.
    + reflexivity.
Qed.

(** Six levels are flattened, and no more. *)
Lemma flatten_nest (k n : nat) (v : value) :
  flatten k (nest (k + n) v) = [nest n v].
Proof.
  induction k as [|k IH]; [reflexivity|].
  cbn [Nat.add nest flatten unwind_value flat_map]. rewrite IH. reflexivity.
Qed.

(** *** The [$group] stage *)

Lemma times_app (v : value) (a b : list value) :
  times v (a ++ b) = times v a + times v b.
Proof. unfold times. rewrite filter_app, length_app. reflexivity. Qed.

Lemma add_to_group_keys (key : value) (groups : list (value * nat)) :
  keys (add_to_group key groups)
  = if existsb (value_eqb key) (keys groups) then keys groups
    else keys groups ++ [key].
Proof.
  unfold keys. induction groups as [|[k n] groups IH]; [reflexivity|].
  cbn [add_to_group map fst existsb].
  destruct (value_eqb k key) eqn:E.
  - apply value_eqb_eq in E. subst. rewrite value_eqb_refl. reflexivity.
  - assert (E' : value_eqb key k = false).
    { apply value_eqb_neq. intros ->. rewrite value_eqb_refl in E. discriminate. }
    rewrite E'. cbn [map fst orb]. rewrite IH.
    destruct (existsb (value_eqb key) (map fst groups)); reflexivity.
Qed.

Lemma existsb_value_In (key : value) (l : list value) :
  existsb (value_eqb key) l = true <-> In key l.
Proof.
  rewrite existsb_exists. split.
  - intros (x & Hx & E). apply value_eqb_eq in E. subst. exact Hx.
  - intros H. exists key. split; [exact H | apply value_eqb_refl].
Qed.

Lemma times_absent (v : value) (l : list value) : ~ In v l -> times v l = 0.
Proof.
  unfold times. induction l as [|x l IH]; intros H; [reflexivity|].
  cbn [filter]. rewrite value_eqb_neq.
  - apply IH. intros Hin. apply H. right. exact Hin.
  - intros ->. apply H. left. reflexivity.
Qed.

Lemma times_one (k key : value) :
  times k [key] = if value_eqb k key then 1 else 0.
Proof. unfold times. cbn [filter]. destruct (value_eqb k key); reflexivity. Qed.

Lemma add_to_group_sum (key : value) (groups : list (value * nat)) :
  fold_right (fun g n => snd g + n) 0 (add_to_group key groups)
  = S (fold_right (fun g n => snd g + n) 0 groups).
Proof.
  induction groups as [|[k n] groups IH]; [reflexivity|].
  cbn [add_to_group]. destruct (value_eqb k key); cbn [fold_right snd].
  - reflexivity.
  - rewrite IH. lia.
Qed.

(** What an entry of the groups is after one more occurrence of a
    key. *)
Lemma add_to_group_In (key : value) (groups : list (value * nat)) :
  NoDup (keys groups) ->
  forall k n, In (k, n) (add_to_group key groups) ->
  (k <> key /\ In (k, n) groups)
  \/ (k = key /\ exists m, In (key, m) groups /\ n = S m)
  \/ (k = key /\ ~ In key (keys groups) /\ n = 1).
Proof.
  unfold keys. induction groups as [|[k0 n0] groups IH]; intros Hnd k n Hin.
  - destruct Hin as [E|[]]. inversion E; subst. right. right. auto.
  - cbn [map fst] in Hnd. inversion Hnd as [|? ? Hk0 Hnd']; subst.
    cbn [add_to_group] in Hin. destruct (value_eqb k0 key) eqn:E.
    + apply value_eqb_eq in E. subst k0. destruct Hin as [E|Hin].
      * inversion E; subst. right. left. split; [reflexivity|].
        exists n0. split; [left; reflexivity|reflexivity].
      * left. split; [|right; exact Hin].
        intros ->. apply Hk0. apply in_map_iff. exists (key, n). auto.
    + assert (Hne : k0 <> key).
      { intros ->. rewrite value_eqb_refl in E. discriminate. }
      destruct Hin as [E'|Hin].
      * inversion E'; subst. left. split; [exact Hne|left; reflexivity].
      * destruct (IH Hnd' k n Hin) as [[H1 H2]|[[H1 (m & H2 & H3)]|[H1 [H2 H3]]]].
        -- left. split; [exact H1|right; exact H2].
        -- right. left. split; [exact H1|]. exists m. split; [right; exact H2|exact H3].
        -- right. right. split; [exact H1|]. split; [|exact H3].
           cbn [map fst]. intros [Hk|Hk]; [exact (Hne Hk)|exact (H2 Hk)].
Qed.

(** One more row keeps the groups right. *)
Lemma counts_step (key : value) (groups : list (value * nat)) (l : list value) :
  counts groups l -> counts (add_to_group key groups) (l ++ [key]).
Proof.
  intros (Hnd & Hn & Hall & Hsum). unfold counts.
  pose proof (add_to_group_keys key groups) as Hk.
  split; [|split; [|split]].
  - rewrite Hk. destruct (existsb (value_eqb key) (keys groups)) eqn:E;
      [exact Hnd|].
    apply NoDup_app; [exact Hnd|constructor; [intros []|constructor]|].
    intros x Hx [E'|[]]. subst x.
    apply existsb_value_In in Hx. congruence.
  - intros k n Hin. rewrite times_app, times_one.
    destruct (add_to_group_In key groups Hnd k n Hin)
      as [[H1 H2]|[[H1 (m & H2 & H3)]|[H1 [H2 H3]]]].
    + rewrite (value_eqb_neq _ _ H1). destruct (Hn k n H2) as [-> H].
      split; lia.
    + subst. rewrite value_eqb_refl. destruct (Hn key m H2) as [-> H].
      split; lia.
    + subst. rewrite value_eqb_refl. rewrite times_absent; [split; lia|].
      intros Hin'. apply H2. apply Hall. exact Hin'.
  - intros v Hv. rewrite Hk. apply in_app_or in Hv.
    destruct (existsb (value_eqb key) (keys groups)) eqn:E.
    + destruct Hv as [Hv|[<-|[]]]; [apply Hall; exact Hv|].
      apply existsb_value_In. exact E.
    + apply in_or_app. destruct Hv as [Hv|Hv]; [left; apply Hall; exact Hv|].
      right. exact Hv.
  - rewrite add_to_group_sum, Hsum, length_app. simpl. lia.
Qed.

Lemma counts_fold (rows : list value) : forall groups l,
  counts groups l ->
  counts (fold_left (fun groups row => add_to_group (group_key row) groups)
            (map Some rows) groups) (l ++ rows).
Proof.
  induction rows as [|v rows IH]; intros groups l H.
  - rewrite app_nil_r. exact H.
  - cbn [map fold_left group_key].
    replace (l ++ v :: rows) with ((l ++ [v]) ++ rows)
      by (rewrite <- app_assoc; reflexivity).
    apply IH. apply counts_step. exact H.
Qed.

(** The groups of [$group] count the rows. *)
Lemma group_count_counts (rows : list value) :
  counts (group_count (map Some rows)) rows.
Proof.
  unfold group_count. apply (counts_fold rows [] []).
  unfold counts, keys. cbn. repeat split; try constructor; intros; contradiction.
Qed.

(** *** The [$sort] stage *)

Section SortFacts.
Variable value_leb : value -> value -> bool.
Hypothesis leb_total : forall a b, value_leb a b = true \/ value_leb b a = true.
Hypothesis leb_trans : forall a b c,
  value_leb a b = true -> value_leb b c = true -> value_leb a c = true.

Lemma insert_result_perm (r : QueryFilterResult) (l : list QueryFilterResult) :
  Permutation (insert_result value_leb r l) (r :: l).
Proof.
  induction l as [|x l IH]; cbn [insert_result]; [reflexivity|].
  destruct (value_leb (value_of r) (value_of x)); [reflexivity|].
  rewrite IH. apply perm_swap.
Qed.

Lemma sort_value_perm (l : list QueryFilterResult) :
  Permutation (sort_value value_leb l) l.
Proof.
  induction l as [|x l IH]; cbn [sort_value fold_right]; [reflexivity|].
  rewrite insert_result_perm. constructor. exact IH.
Qed.

Lemma insert_result_sorted (r : QueryFilterResult) (l : list QueryFilterResult) :
  StronglySorted (ascending value_leb) l ->
  StronglySorted (ascending value_leb) (insert_result value_leb r l).
Proof.
  induction l as [|x l IH]; intros Hs; cbn [insert_result].
  - constructor; constructor.
  - inversion Hs as [|? ? Hs' Hx]; subst.
    destruct (value_leb (value_of r) (value_of x)) eqn:E.
    + constructor; [exact Hs|]. constructor; [exact E|].
      rewrite Forall_forall in *. intros y Hy. unfold ascending.
      apply (leb_trans _ (value_of x)); [exact E|apply Hx; exact Hy].
    + constructor; [apply IH; exact Hs'|].
      rewrite Forall_forall in *. intros y Hy.
      apply (Permutation_in _ (insert_result_perm r l)) in Hy.
      destruct Hy as [<-|Hy]; [|apply Hx; exact Hy].
      unfold ascending. destruct (leb_total (value_of r) (value_of x)); congruence.
Qed.

Lemma sort_value_sorted (l : list QueryFilterResult) :
  StronglySorted (ascending value_leb) (sort_value value_leb l).
Proof.
  induction l as [|x l IH]; cbn [sort_value fold_right]; [constructor|].
  apply insert_result_sorted. exact IH.
Qed.
End SortFacts.

Lemma total_perm (a b : list QueryFilterResult) :
  Permutation a b -> total a = total b.
Proof.
  unfold total. induction 1; cbn [fold_right]; lia.
Qed.

Lemma total_project (groups : list (value * nat)) :
  total (project_result groups)
  = fold_right (fun g n => snd g + n) 0 groups.
Proof.
  unfold total, project_result.
  induction groups as [|g l IH]; [reflexivity|].
  cbn [map fold_right count]. rewrite IH. reflexivity.
Qed.

Lemma number_first_total (a b : value) :
  number_first a b = true \/ number_first b a = true.
Proof.
  destruct a, b; cbn; auto.
  destruct (Z.leb_spec z z0); [auto|]. right. apply Z.leb_le. lia.
Qed.

Lemma number_first_trans (a b c : value) :
  number_first a b = true -> number_first b c = true ->
  number_first a c = true.
Proof.
  destruct a, b, c; cbn; auto; try discriminate.
  rewrite !Z.leb_le. lia.
Qed.

(** *** The result *)

(** C9: for every field path, the rows that are grouped are the values
    of the field across the documents, flattened six levels deep: a
    value inside six arrays is reached, and a value inside more arrays
    is grouped with the arrays that are left; the result gives each
    distinct value once, with the number of its occurrences, in
    ascending order of the values, and the counts add up to the number
    of flattened occurrences. *)
Theorem distinct_values (document : Type)
    (resolve : str -> document -> option value)
    (value_leb : value -> value -> bool)
    (collection : list document) (field : str) (n : nat) (v : value) :
  (forall a b, value_leb a b = true \/ value_leb b a = true) ->
  (forall a b c, value_leb a b = true -> value_leb b c = true ->
                 value_leb a c = true) ->
  let result := dataTableGetFilterList document resolve value_leb collection field in
  let flattened := occurrences resolve collection field in
  unwound document resolve collection field = map Some flattened
  /\ flatten 6 (nest (6 + n) v) = [nest n v]
  /\ NoDup (map value_of result)
  /\ (forall x, In x flattened -> In x (map value_of result))
  /\ (forall r, In r result ->
        count r = times (value_of r) flattened /\ 1 <= count r)
  /\ StronglySorted (ascending value_leb) result
  /\ total result = List.length flattened.
Proof.
  intros Htotal Htrans result flattened.
  assert (Hu : unwound document resolve collection field = map Some flattened)
    by apply unwound_occurrences.
  pose proof (group_count_counts flattened) as (Hnd & Hn & Hall & Hsum).
  assert (Hp : Permutation result
                 (project_result (group_count (map Some flattened)))).
  { unfold result, dataTableGetFilterList. rewrite Hu. apply sort_value_perm. }
  assert (Hv : map value_of (project_result (group_count (map Some flattened)))
               = keys (group_count (map Some flattened))).
  { unfold project_result, keys. rewrite map_map. reflexivity. }
  split; [exact Hu|]. split; [apply (flatten_nest 6)|].
  split; [|split; [|split; [|split]]].
  - apply (Permutation_NoDup (l := keys (group_count (map Some flattened))));
      [|exact Hnd].
    rewrite <- Hv. apply Permutation_map. symmetry. exact Hp.
  - intros x Hx.
    apply (Permutation_in (l := keys (group_count (map Some flattened)))).
    + rewrite <- Hv. apply Permutation_map. symmetry. exact Hp.
    + apply Hall. exact Hx.
  - intros r Hr. apply (Permutation_in _ Hp) in Hr.
    unfold project_result in Hr. apply in_map_iff in Hr.
    destruct Hr as ([k m] & <- & Hin). cbn [count value_of fst snd].
    apply Hn. exact Hin.
  - unfold result, dataTableGetFilterList. apply sort_value_sorted; assumption.
  - rewrite (total_perm _ _ Hp), <- Hsum. apply total_project.
Qed.

Lemma distinct_values_witness :
  (forall a b, number_first a b = true \/ number_first b a = true) /\
  (forall a b c, number_first a b = true -> number_first b c = true ->
                 number_first a c = true) /\
  dataTableGetFilterList (option value) (fun _ d => d) number_first
    example_collection "tags"
  = [ mkResult 2 (VNum 1); mkResult 2 (VNum 3); mkResult 1 (VArr [VNum 5]) ] /\
  (let result :=
     dataTableGetFilterList (option value) (fun _ d => d) number_first
       example_collection "tags" in
   let flattened :=
     occurrences (fun (_ : str) (d : option value) => d)
       example_collection "tags" in
   unwound (option value) (fun _ d => d) example_collection "tags"
   = map Some flattened
   /\ flatten 6 (nest (6 + 1) (VNum 5)) = [nest 1 (VNum 5)]
   /\ NoDup (map value_of result)
   /\ (forall x, In x flattened -> In x (map value_of result))
   /\ (forall r, In r result ->
         count r = times (value_of r) flattened /\ 1 <= count r)
   /\ StronglySorted (ascending number_first) result
   /\ total result = List.length flattened).
Proof.
  split; [exact number_first_total|]. split; [exact number_first_trans|].
  split; [reflexivity|].
  apply (distinct_values (option value) (fun _ d => d) number_first
           example_collection "tags" 1 (VNum 5)
           number_first_total number_first_trans).
Defined.

(** * Further properties *)

(** ** Lists *)

Lemma mapM_results {A B : Type} (f : A -> result B) (g : A -> B) (l : list A) :
  (forall a, In a l -> f a = Ok (g a)) -> mapM f l = Ok (map g l).
Proof.
  induction l as [|a l IH]; intros H; simpl; [reflexivity|].
  rewrite (H a) by (left; reflexivity).
  rewrite IH by (intros x Hx; apply H; right; exact Hx). reflexivity.
Qed.

Lemma filter_all {A : Type} (p : A -> bool) (l : list A) :
  (forall a, In a l -> p a = true) -> filter p l = l.
Proof.
  induction l as [|a l IH]; intros H; simpl; [reflexivity|].
  rewrite (H a) by (left; reflexivity).
  rewrite IH by (intros x Hx; apply H; right; exact Hx). reflexivity.
Qed.

Lemma concat_singletons {A B : Type} (g : A -> B) (l : list A) :
  List.concat (map (fun a => [g a]) l) = map g l.
Proof. induction l as [|a l IH]; simpl; [reflexivity|]. rewrite IH. reflexivity. Qed.

(** ** Clauses with one argument, in a text *)

Section ClauseFacts.
Variable c : Clause.
Hypothesis ok : clause_ok c = true.

Lemma clause_field_ok : field_ok (c_field c) = true.
Proof. unfold clause_ok in ok. rewrite !andb_true_iff in ok. tauto. Qed.

Lemma clause_field_text : field_text (c_field c) = true.
Proof. unfold clause_ok in ok. rewrite !andb_true_iff in ok. tauto. Qed.

Lemma clause_operation_ok : piece_ok (c_operation c) = true.
Proof. unfold clause_ok in ok. rewrite !andb_true_iff in ok. tauto. Qed.

Lemma clause_pieces_ok : forallb piece_ok (c_value c :: c_more c) = true.
Proof. unfold clause_ok in ok. rewrite !andb_true_iff in ok. tauto. Qed.

Lemma clause_args_ok : args_ok (clause_args c) = true.
Proof.
  apply argument_args_ok; [apply clause_operation_ok|apply clause_pieces_ok].
Qed.
End ClauseFacts.

Lemma shape_ok (cs : list (ascii * Clause)) :
  delimiters_ok cs = true -> forallb clause_ok (map snd cs) = true ->
  clauses_ok (shape cs) = true.
Proof.
  unfold delimiters_ok, clauses_ok, shape.
  induction cs as [|[d c] cs IH]; intros Hd Hc; [reflexivity|].
  cbn [map forallb fst snd] in *.
  apply andb_true_iff in Hd. destruct Hd as [Hd Hds].
  apply andb_true_iff in Hc. destruct Hc as [Hc Hcs].
  rewrite Hd, (clause_field_ok c Hc), (clause_args_ok c Hc). apply IH; assumption.
Qed.

(** The groups of the clause texts are the texts of the groups of the
    clauses. *)
Lemma and_groups_shape (cs : list (ascii * Clause)) : forall current,
  and_groups (map clause_text current) (shape cs)
  = map (map clause_text) (groups_of current cs).
Proof.
  induction cs as [|[d c] cs IH]; intros current; [reflexivity|].
  cbn [shape map fst snd and_groups groups_of].
  destruct (chr_eqb d ";"%char).
  - cbn [map]. f_equal. apply (IH [c]).
  - rewrite <- (IH (current ++ [c])), map_app. reflexivity.
Qed.

Lemma groups_of_In {A : Type} (cs : list (ascii * A)) : forall current g x,
  In g (groups_of current cs) -> In x g ->
  In x current \/ In x (map snd cs).
Proof.
  induction cs as [|[d c] cs IH]; intros current g x Hg Hx.
  - destruct Hg as [<-|[]]. left. exact Hx.
  - cbn [groups_of] in Hg. cbn [map snd]. destruct (chr_eqb d ";"%char).
    + destruct Hg as [<-|Hg]; [left; exact Hx|].
      destruct (IH _ _ _ Hg Hx) as [[<-|[]]|H]; right; [left|right]; auto.
    + destruct (IH _ _ _ Hg Hx) as [H|H]; [|right; right; exact H].
      apply in_app_or in H. destruct H as [H|[<-|[]]]; [left; exact H|].
      right. left. reflexivity.
Qed.

Lemma groups_of_not_nil {A : Type} (cs : list (ascii * A)) : forall current g,
  current <> [] -> In g (groups_of current cs) -> g <> [].
Proof.
  induction cs as [|[d c] cs IH]; intros current g Hne Hg.
  - destruct Hg as [<-|[]]. exact Hne.
  - cbn [groups_of] in Hg. destruct (chr_eqb d ";"%char).
    + destruct Hg as [<-|Hg]; [exact Hne|].
      apply (IH [c]); [discriminate|exact Hg].
    + apply (IH (current ++ [c])); [|exact Hg].
      destruct current; discriminate.
Qed.

(** A text of clauses compiles group by group and clause by clause,
    when each clause compiles to one predicate. *)
Lemma filter_of_compiles (pattern_ok : str -> bool) (q : Query)
    (pred : Clause -> entry) (c : Clause) (cs : list (ascii * Clause)) :
  delimiters_ok cs = true -> forallb clause_ok (c :: map snd cs) = true ->
  (forall x, In x (c :: map snd cs) ->
             compile_filter pattern_ok (clause_text x) = Ok [pred x]) ->
  dataTableFilter pattern_ok q (filter_of c cs)
  = Ok (Find q (map (map pred) (groups_of [c] cs))).
Proof.
  intros Hd Hok Hall. cbn [forallb] in Hok. apply andb_true_iff in Hok.
  destruct Hok as [Hc Hcs]. unfold filter_of, clause_text.
  rewrite (dataTableFilter_text pattern_ok q _ _ _ (clause_field_ok c Hc)
             (clause_args_ok c Hc) (shape_ok cs Hd Hcs)).
  change [clause (c_field c) (clause_args c)] with (map clause_text [c]).
  rewrite and_groups_shape, mapM_map.
  rewrite (mapM_results _ (map pred)).
  - cbn [bind]. unfold apply_groups. rewrite filter_all.
    + destruct (groups_of [c] cs) eqn:E; [|reflexivity].
      destruct cs as [|[d x] cs]; [discriminate|]. cbn [groups_of] in E.
      exfalso. destruct (chr_eqb d ";"%char); [discriminate|].
      clear -E. revert E. generalize ([c] ++ [x]).
      induction cs as [|[d' x'] cs IH]; intros l E; [discriminate|].
      cbn [groups_of] in E. destruct (chr_eqb d' ";"%char); [discriminate|].
      exact (IH _ E).
    + intros g Hg. apply in_map_iff in Hg. destruct Hg as (g' & <- & Hg).
      pose proof (groups_of_not_nil cs [c] g' ltac:(discriminate) Hg) as Hne.
      destruct g'; [contradiction|reflexivity].
  - intros g Hg. unfold compile_and. rewrite mapM_map.
    rewrite (mapM_results _ (fun x => [pred x])).
    + cbn [bind]. rewrite concat_singletons. reflexivity.
    + intros x Hx. apply Hall.
      destruct (groups_of_In cs [c] g x Hg Hx) as [[<-|[]]|H];
        [left; reflexivity|right; exact H].
Qed.

(** A clause with a comparison operator compiles to its predicate. *)
Lemma compile_comparison (pattern_ok : str -> bool) (c : Clause) :
  clause_ok c = true -> includes allowedOperators (c_operation c) = true ->
  compile_filter pattern_ok (clause_text c) = Ok [comparison c].
Proof.
  intros Hc Hop. unfold clause_text, clause_args.
  rewrite (compile_filter_argument pattern_ok _ _ _ (clause_field_text c Hc)
             (clause_operation_ok c Hc) (clause_pieces_ok c Hc)).
  unfold default_match. cbn [List.length Nat.leb].
  rewrite (comparison_dispatch pattern_ok _ _ _ _ Hop). reflexivity.
Qed.

(** ** dataTableFilter: more on what it compiles *)

(** A filter text whose clauses all use comparison operators compiles
    to one predicate for each clause, in the order of the clauses, and
    the groups are those that the delimiters make; nothing throws. *)
Theorem comparisons_compile (pattern_ok : str -> bool) (q : Query)
    (c : Clause) (cs : list (ascii * Clause)) :
  delimiters_ok cs = true ->
  forallb clause_ok (c :: map snd cs) = true ->
  forallb (fun x => includes allowedOperators (c_operation x))
    (c :: map snd cs) = true ->
  dataTableFilter pattern_ok q (filter_of c cs)
  = Ok (Find q (map (map comparison) (groups_of [c] cs))).
Proof.
  intros Hd Hok Hop. apply filter_of_compiles; [exact Hd|exact Hok|].
  intros x Hx. rewrite forallb_forall in Hok, Hop.
  apply compile_comparison; [apply Hok|apply Hop]; exact Hx.
Qed.

Lemma comparisons_compile_witness :
  delimiters_ok
    [ (";"%char, mkClause "status" "in" "active" [ "pending" : str ]);
      (","%char, mkClause "age" "lt" "65" []) ] = true /\
  forallb clause_ok
    (mkClause "age" "gte" "18" [] ::
     map snd
       [ (";"%char, mkClause "status" "in" "active" [ "pending" : str ]);
         (","%char, mkClause "age" "lt" "65" []) ]) = true /\
  forallb (fun x => includes allowedOperators (c_operation x))
    (mkClause "age" "gte" "18" [] ::
     map snd
       [ (";"%char, mkClause "status" "in" "active" [ "pending" : str ]);
         (","%char, mkClause "age" "lt" "65" []) ]) = true /\
  dataTableFilter plain_pattern AllDocuments
    "age(gte:18);status(in:active:pending),age(lt:65)"
  = Ok (Find AllDocuments
          [ [ Pred "age" (POp "$gte" (One "18")) ];
            [ Pred "status" (POp "$in" (Many [ "active" : str; "pending" : str ]));
              Pred "age" (POp "$lt" (One "65")) ] ]).
Proof.
  split; [reflexivity|]. split; [reflexivity|]. split; [reflexivity|].
  exact (comparisons_compile plain_pattern AllDocuments
           (mkClause "age" "gte" "18" [])
           [ (";"%char, mkClause "status" "in" "active" [ "pending" : str ]);
             (","%char, mkClause "age" "lt" "65" []) ]
           eq_refl eq_refl eq_refl).
Defined.

(** The filter texts that are meant to leave the query unchanged do:
    the empty text, a text in which the lexer finds no token, and a
    text whose clauses all have an operation name that is neither
    one of the language nor inherited by [operations]. *)
Theorem filter_pass_through (pattern_ok : str -> bool) (q : Query)
    (terms : str) (c : Clause) (cs : list (ascii * Clause)) :
  match_global matchFilters terms = None ->
  delimiters_ok cs = true ->
  forallb clause_ok (c :: map snd cs) = true ->
  forallb (fun x => unknown (c_operation x)) (c :: map snd cs) = true ->
  dataTableFilter pattern_ok q [] = Ok q
  /\ dataTableFilter pattern_ok q terms = Ok q
  /\ dataTableFilter pattern_ok q (filter_of c cs) = Ok q.
Proof.
  intros Hnone Hd Hok Hun. split; [reflexivity|].
  split; [apply pass_through_no_token; exact Hnone|].
  pose proof Hok as Hok'. cbn [forallb] in Hok'.
  apply andb_true_iff in Hok'. destruct Hok' as [Hc Hcs].
  unfold filter_of, clause_text.
  apply pass_through_text;
    [apply clause_field_ok; exact Hc|apply clause_args_ok; exact Hc
    |apply shape_ok; assumption|].
  rewrite forallb_forall in Hok, Hun.
  assert (Hx : forall x, In x (c :: map snd cs) ->
                 compile_filter pattern_ok (clause (c_field x) (clause_args x))
                 = Ok []).
  { intros x Hx. unfold clause_args.
    apply unknown_clause_dropped;
      [apply clause_field_text|apply clause_operation_ok
      |apply clause_pieces_ok|]; auto. }
  intros d f' a' [E|Hin].
  - inversion E; subst. apply Hx. left. reflexivity.
  - unfold shape in Hin. apply in_map_iff in Hin.
    destruct Hin as ([d' x] & E & Hin). inversion E; subst.
    apply Hx. right. apply in_map_iff.
    eexists; split; [|exact Hin]; reflexivity.
Qed.

Lemma filter_pass_through_witness :
  match_global matchFilters "no clause here" = None /\
  delimiters_ok [ (";"%char, mkClause "b" "" "2" [ "3" : str ]) ] = true /\
  forallb clause_ok
    (mkClause "a" "between" "1" [] ::
     map snd [ (";"%char, mkClause "b" "" "2" [ "3" : str ]) ]) = true /\
  forallb (fun x => unknown (c_operation x))
    (mkClause "a" "between" "1" [] ::
     map snd [ (";"%char, mkClause "b" "" "2" [ "3" : str ]) ]) = true /\
  (dataTableFilter plain_pattern AllDocuments [] = Ok AllDocuments
   /\ dataTableFilter plain_pattern AllDocuments "no clause here"
      = Ok AllDocuments
   /\ dataTableFilter plain_pattern AllDocuments
        (filter_of (mkClause "a" "between" "1" [])
           [ (";"%char, mkClause "b" "" "2" [ "3" : str ]) ])
      = Ok AllDocuments).
Proof.
  split; [reflexivity|]. split; [reflexivity|]. split; [reflexivity|].
  split; [reflexivity|].
  exact (filter_pass_through plain_pattern AllDocuments "no clause here"
           (mkClause "a" "between" "1" [])
           [ (";"%char, mkClause "b" "" "2" [ "3" : str ]) ]
           eq_refl eq_refl eq_refl eq_refl).
Defined.

(** What [dataTableFilter] returns is the query itself or the query
    with one more [find], whose [$or] is not empty and has no empty
    [$and]. *)
Theorem filter_never_empty (pattern_ok : str -> bool) (q r : Query) (terms : str) :
  dataTableFilter pattern_ok q terms = Ok r ->
  r = q \/ exists or, r = Find q or /\ or <> []
                      /\ Forall (fun and => and <> []) or.
Proof.
  unfold dataTableFilter. destruct (is_nil terms).
  - intros H. inversion H. left. reflexivity.
  - destruct (match_global matchFilters terms) as [filters|].
    + destruct (mapM (compile_and pattern_ok) (blocks filters)) as [or|e];
        [|discriminate]. cbn [bind].
      destruct (filter (fun and => negb (is_nil and)) or) as [|g l] eqn:E;
        cbn [is_nil]; intros H; inversion H; [left; reflexivity|].
      right. exists (g :: l). split; [reflexivity|]. split; [discriminate|].
      rewrite <- E. apply Forall_forall. intros and Hin.
      apply filter_In in Hin. destruct Hin as [_ Hin].
      destruct and; [discriminate|discriminate].
    + intros H. inversion H. left. reflexivity.
Qed.

Lemma filter_never_empty_witness :
  dataTableFilter plain_pattern AllDocuments "a(eq:1);b(nothing:2)"
  = Ok (Find AllDocuments [ [ Pred "a" (POp "$eq" (One "1")) ] ]) /\
  (Find AllDocuments [ [ Pred "a" (POp "$eq" (One "1")) ] ] = AllDocuments
   \/ exists or,
        Find AllDocuments [ [ Pred "a" (POp "$eq" (One "1")) ] ]
        = Find AllDocuments or
        /\ or <> [] /\ Forall (fun and => and <> []) or).
Proof.
  split; [reflexivity|].
  exact (filter_never_empty plain_pattern AllDocuments _
           "a(eq:1);b(nothing:2)" eq_refl).
Defined.

(** A clause with the operation [match] and a flag that is not [i]
    compiles to the equality with its value; a clause that builds a
    regular expression compiles to it when the engine accepts its
    pattern, and throws otherwise. *)
Lemma compile_literal (pattern_ok : str -> bool) (c : Clause) :
  clause_ok c = true -> c_operation c = ("match" : str) ->
  str_eqb (flag c) "i" = false ->
  compile_filter pattern_ok (clause_text c) = Ok [literal c].
Proof.
  intros Hc Hop Hflag. unfold clause_text, clause_args.
  rewrite (compile_filter_argument pattern_ok _ _ _ (clause_field_text c Hc)
             (clause_operation_ok c Hc) (clause_pieces_ok c Hc)).
  rewrite Hop. unfold default_match. cbn [List.length Nat.leb].
  unfold compile_params.
  change (is_nil ("match" : str)) with false.
  change (operations_get "match") with (Some Match). cbn [call].
  unfold op_match. cbn [nth_error]. unfold flag in Hflag.
  destruct (c_more c) as [|f more]; cbn [nth_error];
    [reflexivity|]. rewrite Hflag. reflexivity.
Qed.

Lemma compile_pattern (pattern_ok : str -> bool) (c : Clause) :
  clause_ok c = true -> is_pattern c = true ->
  compile_filter pattern_ok (clause_text c)
  = if pattern_ok (source (pattern_of c)) then Ok [pattern_entry c]
    else Throw SyntaxError.
Proof.
  intros Hc Hp. unfold clause_text, clause_args.
  rewrite (compile_filter_argument pattern_ok _ _ _ (clause_field_text c Hc)
             (clause_operation_ok c Hc) (clause_pieces_ok c Hc)).
  unfold default_match. cbn [List.length Nat.leb].
  unfold is_pattern in Hp. unfold pattern_entry, pattern_of, flag in *.
  destruct (str_eqb (c_operation c) "contains") eqn:Ec.
  - apply str_eqb_eq in Ec. rewrite Ec. unfold compile_params.
    change (is_nil ("contains" : str)) with false.
    change (operations_get "contains") with (Some Contains). cbn [call].
    unfold op_contains, RegExp_new. cbn [nth_error source].
    destruct (c_more c) as [|f more]; cbn [nth_error];
      destruct (pattern_ok (c_value c)); reflexivity.
  - cbn [orb] in Hp. apply andb_true_iff in Hp. destruct Hp as [Em Ei].
    apply str_eqb_eq in Em. rewrite Em. unfold compile_params.
    change (is_nil ("match" : str)) with false.
    change (operations_get "match") with (Some Match). cbn [call].
    unfold op_match, RegExp_new. cbn [nth_error source].
    destruct (c_more c) as [|f more]; cbn [nth_error]; [discriminate|].
    rewrite Ei.
    destruct (pattern_ok ("^" ++ c_value c ++ "$")); reflexivity.
Qed.

(** The first exception ends a traversal: with an element that
    throws, the traversal throws one of the exceptions of its
    elements. *)
Lemma mapM_throws {A B : Type} (P : exn -> Prop) (f : A -> result B)
    (l : list A) (x : A) :
  In x l -> (exists e, f x = Throw e) ->
  (forall a e, In a l -> f a = Throw e -> P e) ->
  exists e, mapM f l = Throw e /\ P e.
Proof.
  induction l as [|a l IH]; intros Hx Hf HP; [contradiction|].
  cbn [mapM]. destruct (f a) as [b|e] eqn:Ea.
  - destruct Hx as [->|Hx].
    + destruct Hf as [e He]. rewrite Ea in He. discriminate.
    + destruct (IH Hx Hf) as (e & He & Pe).
      { intros a' e' Ha'. apply HP. right. exact Ha'. }
      exists e. cbn [bind]. rewrite He. split; [reflexivity|exact Pe].
  - exists e. split; [reflexivity|]. apply (HP a); [left; reflexivity|exact Ea].
Qed.

(** Each clause of a text is in one of its groups. *)
Lemma groups_of_covers {A : Type} (cs : list (ascii * A)) : forall current x,
  In x current \/ In x (map snd cs) ->
  exists g, In g (groups_of current cs) /\ In x g.
Proof.
  induction cs as [|[d c] cs IH]; intros current x Hx.
  - exists current. split; [left; reflexivity|].
    destruct Hx as [Hx|[]]. exact Hx.
  - cbn [groups_of]. cbn [map snd] in Hx. destruct (chr_eqb d ";"%char).
    + destruct Hx as [Hx|Hx].
      * exists current. split; [left; reflexivity|exact Hx].
      * destruct (IH [c] x) as (g & Hg & Hin).
        { destruct Hx as [->|Hx]; [left; left; reflexivity|right; exact Hx]. }
        exists g. split; [right; exact Hg|exact Hin].
    + apply IH. destruct Hx as [Hx|[->|Hx]].
      * left. apply in_or_app. left. exact Hx.
      * left. apply in_or_app. right. left. reflexivity.
      * right. exact Hx.
Qed.

(** A text with a clause that throws is rejected, with one of the
    exceptions of its clauses. *)
Lemma filter_of_throws (pattern_ok : str -> bool) (P : exn -> Prop)
    (q : Query) (c : Clause) (cs : list (ascii * Clause)) (x : Clause) :
  delimiters_ok cs = true -> forallb clause_ok (c :: map snd cs) = true ->
  In x (c :: map snd cs) ->
  (exists e, compile_filter pattern_ok (clause_text x) = Throw e) ->
  (forall y e, In y (c :: map snd cs) ->
               compile_filter pattern_ok (clause_text y) = Throw e -> P e) ->
  exists e, dataTableFilter pattern_ok q (filter_of c cs) = Throw e /\ P e.
Proof.
  intros Hd Hok Hx He HP. cbn [forallb] in Hok. apply andb_true_iff in Hok.
  destruct Hok as [Hc Hcs]. unfold filter_of, clause_text.
  rewrite (dataTableFilter_text pattern_ok q _ _ _ (clause_field_ok c Hc)
             (clause_args_ok c Hc) (shape_ok cs Hd Hcs)).
  change [clause (c_field c) (clause_args c)] with (map clause_text [c]).
  rewrite and_groups_shape, mapM_map.
  destruct (groups_of_covers cs [c] x) as (g & Hg & Hin).
  { destruct Hx as [<-|Hx]; [left; left; reflexivity|right; exact Hx]. }
  assert (Hgroup : forall g' : list Clause, In g' (groups_of [c] cs) ->
            forall y, In y g' -> In y (c :: map snd cs)).
  { intros g' Hg' y Hy.
    destruct (groups_of_In cs [c] g' y Hg' Hy) as [[<-|[]]|H];
      [left; reflexivity|right; exact H]. }
  destruct (mapM_throws P
              (fun g => compile_and pattern_ok (map clause_text g))
              (groups_of [c] cs) g Hg) as (e & E & Pe).
  - unfold compile_and. rewrite mapM_map.
    destruct (mapM_throws P
                (fun x => compile_filter pattern_ok (clause_text x))
                g x Hin He) as (e & E & _).
    + intros y e Hy. apply HP. exact (Hgroup g Hg y Hy).
    + exists e. rewrite E. reflexivity.
  - intros g' e Hg'. unfold compile_and. rewrite mapM_map.
    destruct (mapM (fun x => compile_filter pattern_ok (clause_text x)) g')
      as [l|e'] eqn:E; [discriminate|].
    cbn [bind]. intros Ee. inversion Ee; subst e'. clear Ee.
    revert E. generalize (Hgroup g' Hg'). clear -HP.
    induction g' as [|y g' IH]; intros Hall E; [discriminate|].
    cbn [mapM] in E.
    destruct (compile_filter pattern_ok (clause_text y)) as [r|e'] eqn:Ey.
    + cbn [bind] in E.
      destruct (mapM (fun x => compile_filter pattern_ok (clause_text x)) g')
        as [l|e'] eqn:E'; [discriminate|].
      cbn [bind] in E. inversion E; subst e'.
      apply IH; [|reflexivity]. intros z Hz. apply Hall. right. exact Hz.
    + cbn [bind] in E. inversion E; subst e'.
      apply (HP y); [apply Hall; left; reflexivity|exact Ey].
  - exists e. rewrite E. split; [reflexivity|exact Pe].
Qed.

(** ** The lexer and the grouping loop on a text with one more token *)

Lemma match_all_text_more (cs : list (ascii * (str * str))) (tail : str)
    (ts : list str) :
  (forall n pre, List.length tail < n ->
                 match_all n matchFilters pre tail = ts) ->
  forall n pre,
  clauses_ok cs = true -> List.length (text cs ++ tail) < n ->
  match_all n matchFilters pre (text cs ++ tail) = tokens cs ++ ts.
Proof.
  intros Htail.
  induction cs as [|[d [f a]] cs IH]; intros n pre Hok Hn.
  - apply Htail. exact Hn.
  - simpl in Hok. rewrite !andb_true_iff in Hok.
    destruct Hok as [[[Hd Hf] Ha] Hok].
    destruct n as [|n]; [simpl in Hn; lia|].
    cbn [text app] in *. rewrite <- app_assoc in *.
    destruct (exec_delimiter d pre (clause f a ++ text cs ++ tail) Hd)
      as (m & Em & Hm & Hu & Hr).
    cbn [tokens match_all app]. rewrite (search_hit _ _ _ _ Em), Hm, Hr, Hu.
    f_equal.
    destruct n as [|n]; [simpl in Hn; unfold clause in Hn;
                         rewrite !length_app in Hn; simpl in Hn; lia|].
    destruct (exec_clause f a (d :: pre) (text cs ++ tail) Hf Ha)
      as (m' & Em' & Hm' & Hu' & Hr').
    cbn [match_all]. rewrite (search_hit _ _ _ _ Em'), Hm', Hr', Hu'.
    f_equal.
    assert (Hc : exists h t, clause f a = h :: t).
    { unfold clause. destruct f; simpl; eauto. }
    destruct Hc as (h & t & Hc). rewrite Hc at 1.
    apply IH; [exact Hok|].
    simpl in Hn. rewrite length_app in Hn. rewrite Hc in Hn. simpl in Hn. lia.
Qed.

Lemma lex_text_more (f a : str) (cs : list (ascii * (str * str)))
    (tail : str) (ts : list str) :
  (forall n pre, List.length tail < n ->
                 match_all n matchFilters pre tail = ts) ->
  field_ok f = true -> args_ok a = true -> clauses_ok cs = true ->
  match_global matchFilters ((clause f a ++ text cs) ++ tail)
  = Some (clause f a :: tokens cs ++ ts).
Proof.
  intros Htail Hf Ha Hok. unfold match_global. rewrite <- app_assoc.
  destruct (exec_clause f a [] (text cs ++ tail) Hf Ha)
    as (m & Em & Hm & Hu & Hr).
  cbn [match_all]. rewrite (search_hit _ _ _ _ Em), Hm, Hr, Hu.
  assert (Hc : exists h t, clause f a = h :: t).
  { unfold clause. destruct f; simpl; eauto. }
  destruct Hc as (h & t & Hc). rewrite Hc at 1 2.
  rewrite <- Hc. f_equal. f_equal.
  apply match_all_text_more; [exact Htail|exact Hok|].
  rewrite (length_app (clause f a)), Hc. simpl. lia.
Qed.

(** A delimiter alone and a clause alone are one token. *)
Lemma lex_delimiter (d : ascii) :
  is_delimiter d = true ->
  forall n pre, List.length [d] < n ->
                match_all n matchFilters pre [d] = [[d]].
Proof.
  intros Hd n pre Hn. destruct n as [|n]; [simpl in Hn; lia|].
  destruct (exec_delimiter d pre [] Hd) as (m & Em & Hm & Hu & Hr).
  cbn [match_all]. rewrite (search_hit _ _ _ _ Em), Hm, Hr.
  destruct n; reflexivity.
Qed.

Lemma lex_clause (f a : str) :
  field_ok f = true -> args_ok a = true ->
  forall n pre, List.length (clause f a) < n ->
                match_all n matchFilters pre (clause f a) = [clause f a].
Proof.
  intros Hf Ha n pre Hn. destruct n as [|n]; [simpl in Hn; lia|].
  destruct (exec_clause f a pre [] Hf Ha) as (m & Em & Hm & Hu & Hr).
  rewrite app_nil_r in Em.
  cbn [match_all]. rewrite (search_hit _ _ _ _ Em), Hm, Hr.
  assert (Hc : exists h t, clause f a = h :: t).
  { unfold clause. destruct f; simpl; eauto. }
  destruct Hc as (h & t & Hc). rewrite Hc.
  destruct n; reflexivity.
Qed.

(** The loop does not read a last token at the place of a
    delimiter. *)
Lemma blocks_loop_tokens_more (cs : list (ascii * (str * str))) (t : str) :
  forall orBlocks andBlocks,
  match tokens cs ++ [t] with
  | [] => (orBlocks, andBlocks)
  | d :: after => blocks_loop (Some d) after orBlocks andBlocks
  end
  = match tokens cs with
    | [] => (orBlocks, andBlocks)
    | d :: after => blocks_loop (Some d) after orBlocks andBlocks
    end.
Proof.
  induction cs as [|[d [f a]] cs IH]; intros orBlocks andBlocks.
  - reflexivity.
  - cbn [tokens app blocks_loop].
    destruct (str_eqb [d] ";"); apply IH.
Qed.

Lemma blocks_tokens_more (c : str) (cs : list (ascii * (str * str))) (t : str) :
  blocks (c :: tokens cs ++ [t]) = blocks (c :: tokens cs).
Proof.
  unfold blocks. cbn [blocks_loop app]. f_equal.
  apply blocks_loop_tokens_more.
Qed.

(** ** dataTableFilter: the pattern operations, exceptions, tokens *)

(** A filter text whose clauses are [match] without the flag [i]
    compiles to equalities with the values as they are written: no
    regular expression is built, whatever the characters of the
    values and whatever the engine accepts. *)
Theorem literal_matches_compile (pattern_ok : str -> bool) (q : Query)
    (c : Clause) (cs : list (ascii * Clause)) :
  delimiters_ok cs = true ->
  forallb clause_ok (c :: map snd cs) = true ->
  forallb (fun x => str_eqb (c_operation x) "match"
                    && negb (str_eqb (flag x) "i")) (c :: map snd cs) = true ->
  dataTableFilter pattern_ok q (filter_of c cs)
  = Ok (Find q (map (map literal) (groups_of [c] cs))).
Proof.
  intros Hd Hok Hop. apply filter_of_compiles; [exact Hd|exact Hok|].
  intros x Hx. rewrite forallb_forall in Hok, Hop.
  specialize (Hop x Hx). apply andb_true_iff in Hop. destruct Hop as [Hm Hi].
  apply compile_literal; [apply Hok; exact Hx|apply str_eqb_eq; exact Hm|].
  apply negb_true_iff. exact Hi.
Qed.

Lemma literal_matches_compile_witness :
  delimiters_ok [ (";"%char, mkClause "note" "match" "^a.*" []) ] = true /\
  forallb clause_ok
    (mkClause "name" "match" "B[ob" [ "g" : str ] ::
     map snd [ (";"%char, mkClause "note" "match" "^a.*" []) ]) = true /\
  forallb (fun x => str_eqb (c_operation x) "match"
                    && negb (str_eqb (flag x) "i"))
    (mkClause "name" "match" "B[ob" [ "g" : str ] ::
     map snd [ (";"%char, mkClause "note" "match" "^a.*" []) ]) = true /\
  dataTableFilter (fun _ => false) AllDocuments
    "name(match:B[ob:g);note(match:^a.*)"
  = Ok (Find AllDocuments
          [ [ Pred "name" (PStr "B[ob") ]; [ Pred "note" (PStr "^a.*") ] ]).
Proof.
  split; [reflexivity|]. split; [reflexivity|]. split; [reflexivity|].
  exact (literal_matches_compile (fun _ => false) AllDocuments
           (mkClause "name" "match" "B[ob" [ "g" : str ])
           [ (";"%char, mkClause "note" "match" "^a.*" []) ]
           eq_refl eq_refl eq_refl).
Defined.

(** A filter text whose clauses all build a regular expression
    ([contains], and [match] with the flag [i]) compiles to the
    regular expressions of its clauses when the engine accepts every
    pattern, and is rejected with a [SyntaxError] when it refuses one
    of them: the value is the pattern as it is written, between [^]
    and [$] for [match], and [contains] takes the flags [g] or [ig]. *)
Theorem patterns_compile (pattern_ok : str -> bool) (q : Query)
    (c : Clause) (cs : list (ascii * Clause)) :
  delimiters_ok cs = true ->
  forallb clause_ok (c :: map snd cs) = true ->
  forallb is_pattern (c :: map snd cs) = true ->
  dataTableFilter pattern_ok q (filter_of c cs)
  = if forallb (fun x => pattern_ok (source (pattern_of x))) (c :: map snd cs)
    then Ok (Find q (map (map pattern_entry) (groups_of [c] cs)))
    else Throw SyntaxError.
Proof.
  intros Hd Hok Hp.
  assert (Hx : forall x, In x (c :: map snd cs) ->
            compile_filter pattern_ok (clause_text x)
            = if pattern_ok (source (pattern_of x)) then Ok [pattern_entry x]
              else Throw SyntaxError).
  { intros x Hx. rewrite forallb_forall in Hok, Hp.
    apply compile_pattern; [apply Hok|apply Hp]; exact Hx. }
  destruct (forallb (fun x => pattern_ok (source (pattern_of x)))
              (c :: map snd cs)) eqn:E.
  - apply filter_of_compiles; [exact Hd|exact Hok|].
    intros x Hin. rewrite (Hx x Hin). rewrite forallb_forall in E.
    rewrite (E x Hin). reflexivity.
  - assert (Hbad : exists x, In x (c :: map snd cs)
                             /\ pattern_ok (source (pattern_of x)) = false).
    { clear -E. induction (c :: map snd cs) as [|y l IH]; [discriminate|].
      cbn [forallb] in E. apply andb_false_iff in E. destruct E as [E|E].
      - exists y. split; [left; reflexivity|exact E].
      - destruct (IH E) as (x & Hin & Hf). exists x.
        split; [right; exact Hin|exact Hf]. }
    destruct Hbad as (x & Hin & Hf).
    destruct (filter_of_throws pattern_ok (fun e => e = SyntaxError) q c cs x
                Hd Hok Hin) as (e & -> & ->); [| |reflexivity].
    + exists SyntaxError. rewrite (Hx x Hin), Hf. reflexivity.
    + intros y e Hy. rewrite (Hx y Hy).
      destruct (pattern_ok (source (pattern_of y))); [discriminate|].
      intros H. inversion H. reflexivity.
Qed.

Lemma patterns_compile_witness :
  delimiters_ok
    [ (","%char, mkClause "name" "match" "Bob" [ "i" : str ]) ] = true /\
  forallb clause_ok
    (mkClause "city" "contains" "or." [ "i" : str ] ::
     map snd [ (","%char, mkClause "name" "match" "Bob" [ "i" : str ]) ])
  = true /\
  forallb is_pattern
    (mkClause "city" "contains" "or." [ "i" : str ] ::
     map snd [ (","%char, mkClause "name" "match" "Bob" [ "i" : str ]) ])
  = true /\
  dataTableFilter plain_pattern AllDocuments
    "city(contains:or.:i),name(match:Bob:i)"
  = Ok (Find AllDocuments
          [ [ Pred "city" (PRegExp (mkRegExp "or." "ig"));
              Pred "name" (PRegExp (mkRegExp "^Bob$" "i")) ] ]).
Proof.
  split; [reflexivity|]. split; [reflexivity|]. split; [reflexivity|].
  exact (patterns_compile plain_pattern AllDocuments
           (mkClause "city" "contains" "or." [ "i" : str ])
           [ (","%char, mkClause "name" "match" "Bob" [ "i" : str ]) ]
           eq_refl eq_refl eq_refl).
Defined.

(** One clause that throws rejects the whole filter: the clauses of
    the other groups of the [$or] are of no help. *)
Theorem one_failure_rejects (pattern_ok : str -> bool) (q : Query)
    (c : Clause) (cs : list (ascii * Clause)) (x : Clause) (e : exn) :
  delimiters_ok cs = true ->
  forallb clause_ok (c :: map snd cs) = true ->
  In x (c :: map snd cs) ->
  compile_filter pattern_ok (clause_text x) = Throw e ->
  exists e', dataTableFilter pattern_ok q (filter_of c cs) = Throw e'.
Proof.
  intros Hd Hok Hx He.
  destruct (filter_of_throws pattern_ok (fun _ => True) q c cs x Hd Hok Hx)
    as (e' & E & _); [exists e; exact He|auto|].
  exists e'. exact E.
Qed.

Lemma one_failure_rejects_witness :
  delimiters_ok
    [ (";"%char, mkClause "name" "contains" "a**" []) ] = true /\
  forallb clause_ok
    (mkClause "age" "gte" "18" [] ::
     map snd [ (";"%char, mkClause "name" "contains" "a**" []) ]) = true /\
  In (mkClause "name" "contains" "a**" [])
    (mkClause "age" "gte" "18" [] ::
     map snd [ (";"%char, mkClause "name" "contains" "a**" []) ]) /\
  compile_filter plain_pattern
    (clause_text (mkClause "name" "contains" "a**" [])) = Throw SyntaxError /\
  exists e', dataTableFilter plain_pattern AllDocuments
               (filter_of (mkClause "age" "gte" "18" [])
                  [ (";"%char, mkClause "name" "contains" "a**" []) ])
             = Throw e'.
Proof.
  split; [reflexivity|]. split; [reflexivity|].
  split; [right; left; reflexivity|]. split; [reflexivity|].
  exact (one_failure_rejects plain_pattern AllDocuments
           (mkClause "age" "gte" "18" [])
           [ (";"%char, mkClause "name" "contains" "a**" []) ]
           (mkClause "name" "contains" "a**" []) SyntaxError
           eq_refl eq_refl (or_intror (or_introl eq_refl)) eq_refl).
Defined.

(** A last token at the place of a delimiter is not read: a
    delimiter at the end of the text, and a clause that follows
    another clause without a delimiter, change nothing, whatever that
    clause is. *)
Theorem trailing_token_ignored (pattern_ok : str -> bool) (q : Query)
    (c : Clause) (cs : list (ascii * Clause)) (d : ascii) (f a : str) :
  delimiters_ok cs = true ->
  forallb clause_ok (c :: map snd cs) = true ->
  is_delimiter d = true -> field_ok f = true -> args_ok a = true ->
  dataTableFilter pattern_ok q (filter_of c cs ++ [d])
  = dataTableFilter pattern_ok q (filter_of c cs)
  /\ dataTableFilter pattern_ok q (filter_of c cs ++ clause f a)
     = dataTableFilter pattern_ok q (filter_of c cs).
Proof.
  intros Hd Hok Hdel Hf Ha. cbn [forallb] in Hok.
  apply andb_true_iff in Hok. destruct Hok as [Hc Hcs].
  pose proof (clause_field_ok c Hc) as Hcf.
  pose proof (clause_args_ok c Hc) as Hca.
  pose proof (shape_ok cs Hd Hcs) as Hsh.
  assert (Hmore : forall tail t,
            (forall n pre, List.length tail < n ->
                           match_all n matchFilters pre tail = [t]) ->
            dataTableFilter pattern_ok q (filter_of c cs ++ tail)
            = dataTableFilter pattern_ok q (filter_of c cs)).
  { intros tail t Ht. unfold dataTableFilter, filter_of, clause_text.
    rewrite (lex_text_more _ _ _ tail [t] Ht Hcf Hca Hsh).
    rewrite (lex_text _ _ _ Hcf Hca Hsh).
    rewrite blocks_tokens_more.
    pose proof (clause_not_nil (c_field c) (clause_args c)) as Hn.
    destruct (clause (c_field c) (clause_args c)); [discriminate|].
    reflexivity. }
  split.
  - apply (Hmore [d] [d]). apply lex_delimiter. exact Hdel.
  - apply (Hmore (clause f a) (clause f a)). apply lex_clause; assumption.
Qed.

Lemma trailing_token_ignored_witness :
  delimiters_ok [ (","%char, mkClause "b" "lt" "2" []) ] = true /\
  forallb clause_ok
    (mkClause "a" "eq" "1" [] ::
     map snd [ (","%char, mkClause "b" "lt" "2" []) ]) = true /\
  is_delimiter ";" = true /\ field_ok "c" = true /\ args_ok "ne:3" = true /\
  dataTableFilter plain_pattern AllDocuments "a(eq:1),b(lt:2);"
  = dataTableFilter plain_pattern AllDocuments "a(eq:1),b(lt:2)"
  /\ dataTableFilter plain_pattern AllDocuments "a(eq:1),b(lt:2)c(ne:3)"
     = dataTableFilter plain_pattern AllDocuments "a(eq:1),b(lt:2)".
Proof.
  split; [reflexivity|]. split; [reflexivity|]. split; [reflexivity|].
  split; [reflexivity|]. split; [reflexivity|].
  exact (trailing_token_ignored plain_pattern AllDocuments
           (mkClause "a" "eq" "1" [])
           [ (","%char, mkClause "b" "lt" "2" []) ] ";"%char "c" "ne:3"
           eq_refl eq_refl eq_refl eq_refl eq_refl).
Defined.

(** ** The chain of calls *)

(** [dataTableFilter] on a chain adds the [find] that it adds to a
    query. *)
Lemma chain_filter (pattern_ok : str -> bool) (this : Cursor) (terms : str) :
  Chain.dataTableFilter pattern_ok this terms
  = match dataTableFilter pattern_ok AllDocuments terms with
    | Ok (Find _ or) => Ok (CFind this (OrOf or))
    | Ok _ => Ok this
    | Throw e => Throw e
    end.
Proof.
  unfold Chain.dataTableFilter, dataTableFilter.
  destruct (is_nil terms); [reflexivity|].
  destruct (match_global matchFilters terms) as [filters|]; [|reflexivity].
  destruct (mapM (compile_and pattern_ok) (blocks filters)) as [or|e];
    [|reflexivity].
  cbn [bind]. destruct (filter _ or); reflexivity.
Qed.

Lemma query_filter (pattern_ok : str -> bool) (q : Query) (terms : str) :
  dataTableFilter pattern_ok q terms
  = match dataTableFilter pattern_ok AllDocuments terms with
    | Ok (Find _ or) => Ok (Find q or)
    | Ok _ => Ok q
    | Throw e => Throw e
    end.
Proof.
  unfold dataTableFilter.
  destruct (is_nil terms); [reflexivity|].
  destruct (match_global matchFilters terms) as [filters|]; [|reflexivity].
  destruct (mapM (compile_and pattern_ok) (blocks filters)) as [or|e];
    [|reflexivity].
  cbn [bind]. destruct (filter _ or); reflexivity.
Qed.

Lemma chain_filter_of_query (pattern_ok : str -> bool) (q : Query) (terms : str) :
  Chain.dataTableFilter pattern_ok (of_query q) terms
  = match dataTableFilter pattern_ok q terms with
    | Ok q' => Ok (of_query q')
    | Throw e => Throw e
    end.
Proof.
  rewrite chain_filter, (query_filter pattern_ok q).
  destruct (dataTableFilter pattern_ok AllDocuments terms) as [[| | |]|];
    reflexivity.
Qed.

Lemma chain_paginate (options : Options) (q : Query) (a b : arg) :
  Chain.dataTablePaginate options (of_query q) a b
  = of_query (dataTablePaginate options q a b).
Proof. reflexivity. Qed.

(** The calls after [find] leave the conditions as they are. *)
Lemma conditions_paginate (options : Options) (this : Cursor) (a b : arg) :
  _conditions (Chain.dataTablePaginate options this a b) = _conditions this.
Proof. reflexivity. Qed.

Lemma conditions_sort (this : Cursor) (sortBy sortDesc : option str) :
  _conditions (Chain.dataTableSort this sortBy sortDesc) = _conditions this.
Proof.
  unfold Chain.dataTableSort. destruct (is_nil _); reflexivity.
Qed.


(** ** dataTable, dataTablePaginated and queryDataTable *)

(** With a [getFilterList] that is not empty, the result is the list
    of the values of that field over the whole collection, counted
    twice by its length: it does not depend on the query that
    [dataTable] is called on, nor on any other parameter, and a filter
    text that would throw is not read. [queryDataTable] gives the
    same. *)
Theorem filter_list_comes_first
    (pattern_ok pattern_ok' : str -> bool) (options options' : Options)
    (document : Type) (resolve : str -> document -> option value)
    (value_leb : value -> value -> bool) (collection : list document)
    (matches matches' : conditions -> document -> bool)
    (exec exec' : Cursor -> list document)
    (this this' : Cursor) (params params' : Partial.QueryOptions) :
  no_list (Partial.getFilterList params) = false ->
  Partial.getFilterList params' = Partial.getFilterList params ->
  exists field rows,
    Partial.getFilterList params = Some field
    /\ rows = dataTableGetFilterList document resolve value_leb collection field
    /\ Chain.dataTable pattern_ok options document resolve value_leb
         collection matches exec this params
       = Ok (mkPaginatedResult (Values rows) (List.length rows) (List.length rows))
    /\ Chain.queryDataTable pattern_ok' options' document resolve value_leb
         collection matches' exec' this' params'
       = Ok (mkPaginatedResult (Values rows) (List.length rows) (List.length rows)).
Proof.
  intros Hlist Hsame. unfold Chain.queryDataTable, Chain.dataTable.
  rewrite Hsame.
  destruct (Partial.getFilterList params) as [[|c field]|]; try discriminate.
  exists (c :: field). eexists. split; [reflexivity|].
  split; [reflexivity|]. split; reflexivity.
Qed.

Lemma filter_list_comes_first_witness :
  no_list
    (Partial.getFilterList
       (Partial.mkQueryOptions Absent Absent (Some ("tags" : str))
          (Some ("name(contains:a**)" : str)) None None None None)) = false /\
  Partial.getFilterList
    (Partial.mkQueryOptions (ANumber (Num 2)) Null (Some ("tags" : str))
       None (Some ("x" : str)) None None None)
  = Partial.getFilterList
      (Partial.mkQueryOptions Absent Absent (Some ("tags" : str))
         (Some ("name(contains:a**)" : str)) None None None None) /\
  Chain.dataTable plain_pattern default_options (option value)
    (fun _ d => d) number_first example_collection
    (fun _ _ => true) (fun _ => example_collection) Fresh
    (Partial.mkQueryOptions Absent Absent (Some ("tags" : str))
       (Some ("name(contains:a**)" : str)) None None None None)
  = Ok (mkPaginatedResult
          (Values [ mkResult 2 (VNum 1); mkResult 2 (VNum 3);
                    mkResult 1 (VArr [VNum 5]) ]) 3 3) /\
  exists field rows,
    Partial.getFilterList
      (Partial.mkQueryOptions Absent Absent (Some ("tags" : str))
         (Some ("name(contains:a**)" : str)) None None None None)
    = Some field
    /\ rows = dataTableGetFilterList (option value) (fun _ d => d)
                number_first example_collection field
    /\ Chain.dataTable plain_pattern default_options (option value)
         (fun _ d => d) number_first example_collection
         (fun _ _ => true) (fun _ => example_collection) Fresh
         (Partial.mkQueryOptions Absent Absent (Some ("tags" : str))
            (Some ("name(contains:a**)" : str)) None None None None)
       = Ok (mkPaginatedResult (Values rows) (List.length rows) (List.length rows))
    /\ Chain.queryDataTable (fun _ => false) (mkOptions (Num 25)) (option value)
         (fun _ d => d) number_first example_collection
         (fun _ _ => false) (fun _ => [])
         (CFind Fresh (OrOf [ [ Pred "a" (PStr "1") ] ]))
         (Partial.mkQueryOptions (ANumber (Num 2)) Null (Some ("tags" : str))
            None (Some ("x" : str)) None None None)
       = Ok (mkPaginatedResult (Values rows) (List.length rows) (List.length rows)).
Proof.
  split; [reflexivity|]. split; [reflexivity|]. split; [reflexivity|].
  exact (filter_list_comes_first plain_pattern (fun _ => false)
           default_options (mkOptions (Num 25)) (option value)
           (fun _ d => d) number_first example_collection
           (fun _ _ => true) (fun _ _ => false)
           (fun _ => example_collection) (fun _ => [])
           Fresh (CFind Fresh (OrOf [ [ Pred "a" (PStr "1") ] ]))
           (Partial.mkQueryOptions Absent Absent (Some ("tags" : str))
              (Some ("name(contains:a**)" : str)) None None None None)
           (Partial.mkQueryOptions (ANumber (Num 2)) Null (Some ("tags" : str))
              None (Some ("x" : str)) None None None)
           eq_refl eq_refl).
Defined.

(** A text parameter that is left out and one that is the empty text
    give the same result, and so do search options that are left out
    and the empty object: the tests on [undefined] in [dataTable] make
    no difference for [filter], [search] and [sortBy], and an empty
    [getFilterList] asks for no list. *)
Theorem left_out_is_empty
    (pattern_ok : str -> bool) (options : Options)
    (document : Type) (resolve : str -> document -> option value)
    (value_leb : value -> value -> bool) (collection : list document)
    (matches : conditions -> document -> bool)
    (exec : Cursor -> list document)
    (this : Cursor) (params : Partial.QueryOptions) :
  Chain.dataTable pattern_ok options document resolve value_leb
    collection matches exec this (explicit params)
  = Chain.dataTable pattern_ok options document resolve value_leb
      collection matches exec this params.
Proof.
  destruct params as [page ipp list filter search opts sortBy sortDesc].
  unfold Chain.dataTable, explicit.
  cbn [Partial.page Partial.itemsPerPage Partial.getFilterList Partial.filter
       Partial.search Partial.searchOptions Partial.sortBy Partial.sortDesc
       or_empty].
  destruct list as [[|c field]|]; cbn [or_empty]; try reflexivity.
  - destruct filter as [t|]; cbn [or_empty].
    + destruct (Chain.dataTableFilter pattern_ok this t) as [cursor|e];
        [|reflexivity].
      cbn [bind]. destruct search as [s|], sortBy as [b|], sortDesc as [d|],
        opts as [o|]; reflexivity.
    + change (Chain.dataTableFilter pattern_ok this []) with (Ok this).
      cbn [bind]. destruct search as [s|], sortBy as [b|], sortDesc as [d|],
        opts as [o|]; reflexivity.
  - destruct filter as [t|]; cbn [or_empty].
    + destruct (Chain.dataTableFilter pattern_ok this t) as [cursor|e];
        [|reflexivity].
      cbn [bind]. destruct search as [s|], sortBy as [b|], sortDesc as [d|],
        opts as [o|]; reflexivity.
    + change (Chain.dataTableFilter pattern_ok this []) with (Ok this).
      cbn [bind]. destruct search as [s|], sortBy as [b|], sortDesc as [d|],
        opts as [o|]; reflexivity.
Qed.

(** The two counts do not depend on the page, on the page size, or on
    the sort: with the same filter and the same search, two calls are
    both rejected with the same exception or give the same counts;
    [totalCount] is the size of the collection and [resultCount] is
    at most that. *)
Theorem counts_ignore_page_and_sort
    (pattern_ok : str -> bool) (options : Options)
    (document : Type) (resolve : str -> document -> option value)
    (value_leb : value -> value -> bool) (collection : list document)
    (matches : conditions -> document -> bool)
    (exec : Cursor -> list document)
    (this : Cursor) (params params' : Partial.QueryOptions) :
  no_list (Partial.getFilterList params) = true ->
  no_list (Partial.getFilterList params') = true ->
  Partial.filter params' = Partial.filter params ->
  Partial.search params' = Partial.search params ->
  Partial.searchOptions params' = Partial.searchOptions params ->
  match Chain.dataTable pattern_ok options document resolve value_leb
          collection matches exec this params,
        Chain.dataTable pattern_ok options document resolve value_leb
          collection matches exec this params' with
  | Ok r, Ok r' =>
      resultCount r' = resultCount r /\ totalCount r' = totalCount r
      /\ totalCount r = List.length collection
      /\ resultCount r <= totalCount r
  | Throw e, Throw e' => e = e'
  | _, _ => False
  end.
Proof.
  intros Hl Hl' Hf Hs Ho. unfold Chain.dataTable.
  rewrite Hf, Hs, Ho.
  assert (E : forall A (x : ascii -> str -> A) (y : A) g, no_list g = true ->
            match g with Some (c :: f) => x c f | _ => y end = y)
    by (intros A x y [[|]|]; intros; try reflexivity; discriminate).
  rewrite (E _ _ _ _ Hl), (E _ _ _ _ Hl'). clear E.
  destruct (match Partial.filter params with
            | Some t => Chain.dataTableFilter pattern_ok this t
            | None => Ok this
            end) as [cursor|e]; [|reflexivity].
  cbn [bind]. unfold Chain.dataTablePaginated.
  cbn [resultCount totalCount Chain.countDocuments].
  rewrite !conditions_paginate.
  assert (Hc : forall c b d b' d',
            _conditions (match b with
                         | Some s => Chain.dataTableSort c (Some s) (Some d)
                         | None => c
                         end)
            = _conditions (match b' with
                           | Some s => Chain.dataTableSort c (Some s) (Some d')
                           | None => c
                           end)).
  { intros c [s|] d [s'|] d'; rewrite ?conditions_sort; reflexivity. }
  rewrite (Hc _ (Partial.sortBy params') _ (Partial.sortBy params)
             (match Partial.sortDesc params with Some s => s | None => [] end)).
  split; [reflexivity|]. split; [reflexivity|]. split; [reflexivity|].
  apply filter_length_le.
Qed.

Lemma counts_ignore_page_and_sort_witness :
  no_list (Partial.getFilterList
             (Partial.mkQueryOptions (ANumber (Num 1)) (ANumber (Num 2)) None
                (Some ("a(eq:1)" : str)) None None None None)) = true /\
  no_list (Partial.getFilterList
             (Partial.mkQueryOptions (AString "3") Absent (Some [])
                (Some ("a(eq:1)" : str)) None None
                (Some ("a,b" : str)) (Some ("true" : str)))) = true /\
  match Chain.dataTable plain_pattern default_options (option value)
          (fun _ d => d) number_first example_collection
          (fun _ d => is_scalar d) (fun _ => example_collection) Fresh
          (Partial.mkQueryOptions (ANumber (Num 1)) (ANumber (Num 2)) None
             (Some ("a(eq:1)" : str)) None None None None),
        Chain.dataTable plain_pattern default_options (option value)
          (fun _ d => d) number_first example_collection
          (fun _ d => is_scalar d) (fun _ => example_collection) Fresh
          (Partial.mkQueryOptions (AString "3") Absent (Some [])
             (Some ("a(eq:1)" : str)) None None
             (Some ("a,b" : str)) (Some ("true" : str))) with
  | Ok r, Ok r' =>
      resultCount r' = resultCount r /\ totalCount r' = totalCount r
      /\ totalCount r = List.length example_collection
      /\ resultCount r <= totalCount r
  | Throw e, Throw e' => e = e'
  | _, _ => False
  end.
Proof.
  split; [reflexivity|]. split; [reflexivity|].
  exact (counts_ignore_page_and_sort plain_pattern default_options
           (option value) (fun _ d => d) number_first example_collection
           (fun _ d => is_scalar d) (fun _ => example_collection) Fresh
           (Partial.mkQueryOptions (ANumber (Num 1)) (ANumber (Num 2)) None
              (Some ("a(eq:1)" : str)) None None None None)
           (Partial.mkQueryOptions (AString "3") Absent (Some [])
              (Some ("a(eq:1)" : str)) None None
              (Some ("a,b" : str)) (Some ("true" : str)))
           eq_refl eq_refl eq_refl eq_refl eq_refl).
Defined.

(** [dataTable] is rejected exactly when no filter list is asked for
    and the filter text throws; the exception is that of the filter
    text, whatever the query. *)
Theorem rejected_by_the_filter_only
    (pattern_ok : str -> bool) (options : Options)
    (document : Type) (resolve : str -> document -> option value)
    (value_leb : value -> value -> bool) (collection : list document)
    (matches : conditions -> document -> bool)
    (exec : Cursor -> list document)
    (this : Cursor) (params : Partial.QueryOptions) (e : exn) :
  Chain.dataTable pattern_ok options document resolve value_leb
    collection matches exec this params = Throw e
  <-> no_list (Partial.getFilterList params) = true
      /\ exists terms, Partial.filter params = Some terms
                       /\ dataTableFilter pattern_ok AllDocuments terms = Throw e.
Proof.
  unfold Chain.dataTable.
  assert (Hf : forall t,
            Chain.dataTableFilter pattern_ok this t = Throw e
            <-> dataTableFilter pattern_ok AllDocuments t = Throw e).
  { intros t. rewrite chain_filter.
    destruct (dataTableFilter pattern_ok AllDocuments t) as [[| | |]|e'];
      split; intros H; try discriminate; inversion H; reflexivity. }
  assert (Hcase : forall k : Cursor -> PaginatedResult document,
    (cursor <-
       match Partial.filter params with
       | Some t => Chain.dataTableFilter pattern_ok this t
       | None => Ok this
       end ;;
     Ok (k cursor)) = Throw e
    <-> true = true
        /\ exists terms, Partial.filter params = Some terms
                         /\ dataTableFilter pattern_ok AllDocuments terms
                            = Throw e).
  { intros k. destruct (Partial.filter params) as [t|].
    - split.
      + intros H.
        destruct (Chain.dataTableFilter pattern_ok this t) as [cursor|e'] eqn:E;
          cbn [bind] in H; [discriminate|].
        inversion H; subst e'. split; [reflexivity|].
        exists t. split; [reflexivity|]. apply Hf. exact E.
      + intros (_ & t' & Ht & H). inversion Ht; subst t'.
        apply Hf in H. rewrite H. reflexivity.
    - split; [discriminate|]. intros (_ & t' & Ht & _). discriminate. }
  destruct (Partial.getFilterList params) as [[|c field]|]; cbn [no_list].
  - apply (Hcase (fun cursor => _)).
  - split; [discriminate|]. intros [H _]. discriminate.
  - apply (Hcase (fun cursor => _)).
Qed.

(** With a filter, a page and a page size, [dataTable] is the
    composition of [dataTableFilter] and [dataTablePaginate]: the
    documents are those of the filtered query with its offset and its
    limit, [resultCount] counts the documents that the conditions of
    the filtered query accept, before the offset and the limit, and
    [totalCount] counts the collection. *)
Theorem dataTable_composes
    (pattern_ok : str -> bool) (options : Options)
    (document : Type) (resolve : str -> document -> option value)
    (value_leb : value -> value -> bool) (collection : list document)
    (matches : conditions -> document -> bool)
    (exec : Cursor -> list document)
    (q q' : Query) (terms : str) (page itemsPerPage : arg) :
  dataTableFilter pattern_ok q terms = Ok q' ->
  Chain.dataTable pattern_ok options document resolve value_leb
    collection matches exec (of_query q)
    (Partial.mkQueryOptions page itemsPerPage None (Some terms)
       None None None None)
  = Ok (mkPaginatedResult
          (Documents
             (exec (of_query
                      (dataTablePaginate options q'
                         (default_param page (Num 1))
                         (default_param itemsPerPage (Num 0))))))
          (List.length (filter (matches (_conditions (of_query q'))) collection))
          (List.length collection)).
Proof.
  intros H. unfold Chain.dataTable.
  cbn [Partial.page Partial.itemsPerPage Partial.getFilterList Partial.filter
       Partial.search Partial.searchOptions Partial.sortBy Partial.sortDesc].
  rewrite chain_filter_of_query, H. cbn [bind].
  unfold Chain.dataTablePaginated. rewrite conditions_paginate.
  rewrite chain_paginate. reflexivity.
Qed.

Lemma dataTable_composes_witness :
  dataTableFilter plain_pattern AllDocuments "age(gte:18)"
  = Ok (Find AllDocuments [ [ Pred "age" (POp "$gte" (One "18")) ] ]) /\
  Chain.dataTable plain_pattern default_options (option value)
    (fun _ d => d) number_first example_collection
    (fun _ d => is_scalar d) (fun _ => example_collection)
    (of_query AllDocuments)
    (Partial.mkQueryOptions (AString "2") (ANumber (Num 5)) None
       (Some ("age(gte:18)" : str)) None None None None)
  = Ok (mkPaginatedResult
          (Documents
             (example_collection))
          (List.length (filter (fun d => is_scalar d) example_collection))
          (List.length example_collection)).
Proof.
  split; [reflexivity|].
  exact (dataTable_composes plain_pattern default_options (option value)
           (fun _ d => d) number_first example_collection
           (fun _ d => is_scalar d) (fun _ => example_collection)
           AllDocuments _ "age(gte:18)" (AString "2") (ANumber (Num 5))
           eq_refl).
Defined.



(** ** Objects: the properties and their order *)

Section Properties.
Context {V : Type}.
Implicit Types (o : list (str * V)) (key : str) (v : V).

Lemma has_property_In o key :
  has_property o key = true <-> In key (map fst o).
Proof.
  induction o as [|[k w] o IH]; cbn [has_property map fst In].
  - split; [discriminate|contradiction].
  - rewrite orb_true_iff, IH, str_eqb_eq. tauto.
Qed.

Lemma get_property_absent o key :
  has_property o key = false -> get_property o key = None.
Proof.
  induction o as [|[k w] o IH]; cbn [has_property get_property];
    [reflexivity|].
  intros H. apply orb_false_iff in H. destruct H as [-> H]. exact (IH H).
Qed.

Lemma replace_property_keys o key v :
  map fst (replace_property o key v) = map fst o.
Proof.
  induction o as [|[k w] o IH]; cbn [replace_property]; [reflexivity|].
  destruct (str_eqb k key); cbn [map fst]; [reflexivity|].
  rewrite IH. reflexivity.
Qed.

Lemma get_replace_property o key v key' :
  has_property o key = true ->
  get_property (replace_property o key v) key'
  = if str_eqb key key' then Some v else get_property o key'.
Proof.
  induction o as [|[k w] o IH]; cbn [has_property replace_property];
    [discriminate|].
  destruct (str_eqb k key) eqn:E; cbn [orb get_property].
  - intros _. apply str_eqb_eq in E. subst k.
    destruct (str_eqb key key'); reflexivity.
  - intros H. rewrite (IH H).
    destruct (str_eqb k key') eqn:E'; [|reflexivity].
    apply str_eqb_eq in E'. subst key'.
    destruct (str_eqb key k) eqn:E''; [|reflexivity].
    apply str_eqb_eq in E''. subst key. rewrite str_eqb_refl in E.
    discriminate.
Qed.

Lemma get_add_property o key v key' :
  has_property o key = false ->
  get_property (add_property o key v) key'
  = if str_eqb key key' then Some v else get_property o key'.
Proof.
  induction o as [|[k w] o IH]; cbn [has_property add_property];
    [reflexivity|].
  intros H. apply orb_false_iff in H. destruct H as [E H].
  destruct (goes_before key k); cbn [get_property]; [reflexivity|].
  rewrite (IH H).
  destruct (str_eqb k key') eqn:E'; [|reflexivity].
  apply str_eqb_eq in E'. subst key'.
  destruct (str_eqb key k) eqn:E''; [|reflexivity].
  apply str_eqb_eq in E''. subst key. rewrite str_eqb_refl in E.
  discriminate.
Qed.

(** After [o[key] = v], the property [key] is [v] and the others are
    what they were. *)
Lemma get_set_property o key v key' :
  get_property (set_property o key v) key'
  = if str_eqb key key' then Some v else get_property o key'.
Proof.
  unfold set_property. destruct (has_property o key) eqn:E.
  - apply get_replace_property. exact E.
  - apply get_add_property. exact E.
Qed.

(** A name that is not an array index is added at the end. *)
Lemma add_property_plain o key v :
  plain_key key = true -> add_property o key v = o ++ [(key, v)].
Proof.
  intros H. unfold plain_key in H.
  induction o as [|[k w] o IH]; cbn [add_property app]; [reflexivity|].
  unfold goes_before. destruct (array_index key); [discriminate|].
  rewrite IH. reflexivity.
Qed.

Lemma add_property_keys o key v :
  forall k, In k (map fst (add_property o key v))
            <-> k = key \/ In k (map fst o).
Proof.
  induction o as [|[a w] o IH]; intros k; cbn [add_property map fst In].
  - intuition.
  - destruct (goes_before key a); cbn [map fst In]; [intuition|].
    rewrite IH. intuition.
Qed.

Lemma set_property_keys o key v :
  forall k, In k (map fst (set_property o key v))
            <-> k = key \/ In k (map fst o).
Proof.
  intros k. unfold set_property. destruct (has_property o key) eqn:E.
  - rewrite replace_property_keys. apply has_property_In in E.
    split; [auto|]. intros [->|H]; assumption.
  - apply add_property_keys.
Qed.

(** The order of the names only depends on the names. *)
Lemma keys_ordered_keys o : forall o' : list (str * V),
  map fst o = map fst o' -> keys_ordered o = keys_ordered o'.
Proof.
  induction o as [|[k w] o IH]; intros [|[k' w'] o'] H; try discriminate;
    [reflexivity|].
  cbn [map fst] in H. inversion H as [[Hk Ho]]. cbn [keys_ordered].
  rewrite (IH o' Ho). f_equal.
  clear -Ho. revert o' Ho.
  induction o as [|[a x] o IH]; intros [|[a' x'] o'] H; try discriminate;
    [reflexivity|].
  cbn [map fst] in H. inversion H as [[Ha Ho]]. cbn [forallb fst].
  rewrite (IH o' Ho). reflexivity.
Qed.

Lemma goes_before_between key a b :
  goes_before key a = true -> goes_before b a = false ->
  goes_before b key = false.
Proof.
  unfold goes_before.
  destruct (array_index key) as [n|]; [|discriminate].
  destruct (array_index b) as [m|]; [|reflexivity].
  destruct (array_index a) as [l|]; [|discriminate].
  intros H1 H2. apply Z.ltb_lt in H1. apply Z.ltb_ge in H2.
  apply Z.ltb_ge. lia.
Qed.

(** A new name is put where the order is kept. *)
Lemma add_property_ordered o key v :
  keys_ordered o = true -> keys_ordered (add_property o key v) = true.
Proof.
  induction o as [|[a w] o IH]; intros H; [reflexivity|].
  cbn [keys_ordered] in H. apply andb_true_iff in H. destruct H as [Ha Ho].
  cbn [add_property]. destruct (goes_before key a) eqn:E.
  - cbn [keys_ordered forallb fst]. rewrite Ha, Ho, !andb_true_r.
    apply andb_true_iff. split.
    + unfold goes_before in *. destruct (array_index key) as [n|];
        [|discriminate].
      destruct (array_index a) as [m|]; [|reflexivity].
      apply Z.ltb_lt in E. apply negb_true_iff, Z.ltb_ge. lia.
    + rewrite forallb_forall in Ha. apply forallb_forall. intros [b x] Hb.
      specialize (Ha _ Hb). cbn [fst] in *. apply negb_true_iff in Ha.
      apply negb_true_iff. exact (goes_before_between key a b E Ha).
  - cbn [keys_ordered]. rewrite (IH Ho), andb_true_r.
    apply forallb_forall. intros [b x] Hb. cbn [fst].
    assert (Hk : In b (map fst (add_property o key v)))
      by (apply in_map_iff; exists (b, x); auto).
    apply add_property_keys in Hk. destruct Hk as [->|Hk].
    + rewrite E. reflexivity.
    + rewrite forallb_forall in Ha. apply in_map_iff in Hk.
      destruct Hk as ([b' x'] & Hb' & Hin). cbn [fst] in Hb'. subst b'.
      exact (Ha _ Hin).
Qed.

Lemma set_property_ordered o key v :
  keys_ordered o = true -> keys_ordered (set_property o key v) = true.
Proof.
  intros H. unfold set_property. destruct (has_property o key).
  - rewrite (keys_ordered_keys _ o (replace_property_keys o key v)). exact H.
  - apply add_property_ordered. exact H.
Qed.

Lemma add_property_NoDup o key v :
  has_property o key = false -> NoDup (map fst o) ->
  NoDup (map fst (add_property o key v)).
Proof.
  induction o as [|[a w] o IH]; intros Hk Hnd; cbn [add_property].
  - cbn. constructor; [intros []|constructor].
  - cbn [has_property] in Hk. apply orb_false_iff in Hk.
    destruct Hk as [Ea Hk]. cbn [map fst] in Hnd.
    destruct (goes_before key a); cbn [map fst].
    + constructor; [|exact Hnd]. intros Hin.
      assert (Hh : has_property ((a, w) :: o) key = true)
        by (apply has_property_In; exact Hin).
      cbn [has_property] in Hh. rewrite Ea, Hk in Hh. discriminate.
    + inversion Hnd as [|x l Hx Hl]; subst. constructor; [|exact (IH Hk Hl)].
      intros Hin. apply add_property_keys in Hin. destruct Hin as [->|Hin].
      * rewrite str_eqb_refl in Ea. discriminate.
      * exact (Hx Hin).
Qed.

Lemma set_property_NoDup o key v :
  NoDup (map fst o) -> NoDup (map fst (set_property o key v)).
Proof.
  intros H. unfold set_property. destruct (has_property o key) eqn:E.
  - rewrite replace_property_keys. exact H.
  - apply add_property_NoDup; assumption.
Qed.

End Properties.

(** The object of [{ ...o, ...source }] has the properties of
    [source], and those of [o] that [source] does not have. *)
Lemma get_spread {V : Type} (source : list (str * V)) :
  forall (o : list (str * V)) (key : str),
  NoDup (map fst source) ->
  get_property (spread o source) key
  = match get_property source key with
    | Some v => Some v
    | None => get_property o key
    end.
Proof.
  unfold spread.
  induction source as [|[k w] source IH]; intros o key Hnd; [reflexivity|].
  cbn [map fst] in Hnd. inversion Hnd as [|x l Hx Hl]; subst.
  cbn [fold_left fst snd get_property]. rewrite (IH _ _ Hl).
  rewrite get_set_property.
  destruct (str_eqb k key) eqn:E; [|reflexivity].
  apply str_eqb_eq in E. subst key.
  rewrite get_property_absent; [reflexivity|].
  destruct (has_property source k) eqn:Eh; [|reflexivity].
  apply has_property_In in Eh. contradiction.
Qed.

(** ** dataTableSort *)

Lemma nth_error_skipn {A : Type} (l : list A) : forall i,
  nth_error l i = match skipn i l with x :: _ => Some x | [] => None end.
Proof.
  induction l as [|a l IH]; intros [|i]; cbn [nth_error skipn];
    try reflexivity.
  apply IH.
Qed.

Lemma tl_skipn {A : Type} (i : nat) : forall l : list A,
  tl (skipn i l) = skipn (S i) l.
Proof.
  induction i as [|i IH]; intros [|a l]; try reflexivity.
  exact (IH l).
Qed.

(** The sign that the reduction gives at a position. *)
Lemma sort_sign (flags : list str) (i : nat) :
  match nth_error
          (map (fun value => str_eqb (toLowerCase value) "true") flags) i with
  | Some true => (-1)%Z
  | _ => 1%Z
  end = direction flags i.
Proof.
  unfold direction. rewrite nth_error_map.
  destruct (nth_error flags i) as [flag|]; cbn [option_map]; reflexivity.
Qed.

(** With names that are different and none of which is an array
    index, the reduction adds one property for each name, in the order
    of the names. *)
Lemma reduce_sort_plain (flags : list str) (sortBy : list str) :
  forall (acc : list (str * Z)) (index : nat),
  NoDup sortBy -> forallb plain_key sortBy = true ->
  (forall k, In k sortBy -> has_property acc k = false) ->
  Chain.reduce_sort
    (map (fun value => str_eqb (toLowerCase value) "true") flags)
    acc index sortBy
  = acc ++ pair_up sortBy (skipn index flags).
Proof.
  induction sortBy as [|key after IH]; intros acc index Hnd Hplain Hnew.
  - cbn. rewrite app_nil_r. reflexivity.
  - cbn [Chain.reduce_sort pair_up]. inversion Hnd as [|x l Hx Hl]; subst.
    cbn [forallb] in Hplain. apply andb_true_iff in Hplain.
    destruct Hplain as [Hkey Hplain].
    unfold set_property. rewrite (Hnew key) by (left; reflexivity).
    rewrite (add_property_plain _ _ _ Hkey), sort_sign.
    rewrite IH; [|exact Hl|exact Hplain|].
    + rewrite <- app_assoc. cbn [app]. rewrite tl_skipn.
      unfold direction. rewrite nth_error_skipn.
      destruct (skipn index flags); reflexivity.
    + intros k Hk. destruct (has_property _ k) eqn:E; [|reflexivity].
      apply has_property_In in E. rewrite map_app in E.
      apply in_app_or in E. destruct E as [E|[E|[]]].
      * apply has_property_In in E. rewrite Hnew in E by (right; exact Hk).
        discriminate.
      * cbn [fst] in E. subst k. contradiction.
Qed.

(** The reduction does not touch the properties of the other names,
    and gives to a name the direction at its last position. *)
Lemma reduce_sort_other (flags : list bool) (sortBy : list str) (key : str) :
  forall (acc : list (str * Z)) (index : nat),
  (In key sortBy -> False) ->
  get_property (Chain.reduce_sort flags acc index sortBy) key
  = get_property acc key.
Proof.
  induction sortBy as [|k after IH]; intros acc index Hnot; [reflexivity|].
  cbn [Chain.reduce_sort]. rewrite IH by (intros H; apply Hnot; right; exact H).
  rewrite get_set_property.
  destruct (str_eqb k key) eqn:E; [|reflexivity].
  apply str_eqb_eq in E. exfalso. apply Hnot. left. exact E.
Qed.

Lemma reduce_sort_last (flags : list str) (sortBy : list str) (key : str) :
  forall (acc : list (str * Z)) (index i : nat),
  nth_error sortBy i = Some key ->
  (forall j, i < j -> nth_error sortBy j = Some key -> False) ->
  get_property
    (Chain.reduce_sort
       (map (fun value => str_eqb (toLowerCase value) "true") flags)
       acc index sortBy) key
  = Some (direction flags (index + i)).
Proof.
  induction sortBy as [|k after IH]; intros acc index i Hi Hlast.
  - destruct i; discriminate.
  - cbn [Chain.reduce_sort]. destruct i as [|i].
    + cbn [nth_error] in Hi. inversion Hi; subst k.
      rewrite reduce_sort_other.
      * rewrite get_set_property, str_eqb_refl, sort_sign, Nat.add_0_r.
        reflexivity.
      * intros Hin. apply In_nth_error in Hin. destruct Hin as [j Hj].
        apply (Hlast (S j)); [lia|exact Hj].
    + cbn [nth_error] in Hi. rewrite (IH _ (S index) i Hi).
      * f_equal. f_equal. lia.
      * intros j Hj Hk. apply (Hlast (S j)); [lia|exact Hk].
Qed.

Lemma reduce_sort_object (flags : list bool) (sortBy : list str) :
  forall (acc : list (str * Z)) (index : nat),
  keys_ordered acc = true -> NoDup (map fst acc) ->
  keys_ordered (Chain.reduce_sort flags acc index sortBy) = true
  /\ NoDup (map fst (Chain.reduce_sort flags acc index sortBy))
  /\ forall k, In k (map fst (Chain.reduce_sort flags acc index sortBy))
               <-> In k (map fst acc) \/ In k sortBy.
Proof.
  induction sortBy as [|key after IH]; intros acc index Ho Hnd.
  - cbn [Chain.reduce_sort]. split; [exact Ho|]. split; [exact Hnd|].
    intros k. cbn [In]. tauto.
  - cbn [Chain.reduce_sort].
    destruct (IH (set_property acc key
                    match nth_error flags index with
                    | Some true => (-1)%Z
                    | _ => 1%Z
                    end) (S index)
                (set_property_ordered _ _ _ Ho) (set_property_NoDup _ _ _ Hnd))
      as (H1 & H2 & H3).
    split; [exact H1|]. split; [exact H2|].
    intros k. rewrite H3, set_property_keys. cbn [In].
    split; intros H; intuition auto.
Qed.

(** With field names that are different and none of which is an array
    index, [dataTableSort] sorts by the field names in their order,
    each one descending when the flag at the same position of
    [sortDesc] is [true] in any case of its letters, and ascending
    when it is anything else or is missing. *)
Theorem sort_pairs_up (this : Cursor) (sortBy : str) (sortDesc : option str) :
  is_nil sortBy = false ->
  NoDup (split "," sortBy) ->
  forallb plain_key (split "," sortBy) = true ->
  Chain.dataTableSort this (Some sortBy) sortDesc
  = CSort this
      (pair_up (split "," sortBy)
         (split "," (match sortDesc with Some s => s | None => [] end))).
Proof.
  intros Hne Hnd Hplain. unfold Chain.dataTableSort. rewrite Hne.
  rewrite reduce_sort_plain; [reflexivity|exact Hnd|exact Hplain|].
  reflexivity.
Qed.

Lemma sort_pairs_up_witness :
  is_nil ("name,age,city" : str) = false /\
  NoDup (split "," "name,age,city") /\
  forallb plain_key (split "," "name,age,city") = true /\
  Chain.dataTableSort Fresh (Some ("name,age,city" : str))
    (Some ("false,TRUE" : str))
  = CSort Fresh [ ("name" : str, 1%Z); ("age" : str, (-1)%Z);
                  ("city" : str, 1%Z) ].
Proof.
  assert (Hnd : NoDup (split "," "name,age,city")).
  { repeat constructor; cbn; intros H;
      repeat (destruct H as [H|H]; [discriminate|]); exact H. }
  split; [reflexivity|]. split; [exact Hnd|]. split; [reflexivity|].
  exact (sort_pairs_up Fresh "name,age,city" (Some ("false,TRUE" : str))
           eq_refl Hnd eq_refl).
Defined.

(** A field name that is given more than once is one sort key, with
    the direction of the last place where it is given. *)
Theorem sort_last_direction_wins (this : Cursor) (sortBy : str)
    (sortDesc : option str) (key : str) (i : nat) :
  is_nil sortBy = false ->
  nth_error (split "," sortBy) i = Some key ->
  (forall j, i < j -> nth_error (split "," sortBy) j = Some key -> False) ->
  exists sort,
    Chain.dataTableSort this (Some sortBy) sortDesc = CSort this sort
    /\ get_property sort key
       = Some (direction
                 (split "," (match sortDesc with Some s => s | None => [] end))
                 i).
Proof.
  intros Hne Hi Hlast. unfold Chain.dataTableSort. rewrite Hne.
  eexists. split; [reflexivity|].
  rewrite (reduce_sort_last _ _ key [] 0 i Hi Hlast). reflexivity.
Qed.

Lemma sort_last_direction_wins_witness :
  is_nil ("a,b,a" : str) = false /\
  nth_error (split "," "a,b,a") 2 = Some ("a" : str) /\
  (forall j, 2 < j -> nth_error (split "," "a,b,a") j = Some ("a" : str)
             -> False) /\
  Chain.dataTableSort Fresh (Some ("a,b,a" : str)) (Some ("false,false,true" : str))
  = CSort Fresh [ ("a" : str, (-1)%Z); ("b" : str, 1%Z) ] /\
  exists sort,
    Chain.dataTableSort Fresh (Some ("a,b,a" : str))
      (Some ("false,false,true" : str)) = CSort Fresh sort
    /\ get_property sort "a"
       = Some (direction (split "," "false,false,true") 2).
Proof.
  assert (Hlast : forall j, 2 < j ->
            nth_error (split "," "a,b,a") j = Some ("a" : str) -> False).
  { intros j Hj. do 3 (destruct j as [|j]; [lia|]).
    destruct j; discriminate. }
  split; [reflexivity|]. split; [reflexivity|]. split; [exact Hlast|].
  split; [reflexivity|].
  exact (sort_last_direction_wins Fresh "a,b,a"
           (Some ("false,false,true" : str)) "a" 2 eq_refl eq_refl Hlast).
Defined.

(** *** The order of the sort keys *)

Lemma digit_range (c : ascii) (d : Z) :
  digit c = Some d -> (0 <= d <= 9)%Z /\ code c = 48 + Z.to_nat d.
Proof.
  unfold digit. destruct ((48 <=? code c) && (code c <=? 57)) eqn:E;
    [|discriminate].
  apply andb_true_iff in E. destruct E as [E1 E2].
  apply Nat.leb_le in E1, E2. intros H. inversion H. split; lia.
Qed.

Lemma digit_inj (c c' : ascii) (d : Z) :
  digit c = Some d -> digit c' = Some d -> c = c'.
Proof.
  intros H H'. apply digit_range in H, H'.
  destruct H as [_ H], H' as [_ H'].
  rewrite <- (ascii_nat_embedding c), <- (ascii_nat_embedding c').
  unfold code in H, H'. rewrite H, H'. reflexivity.
Qed.

Lemma digits_bounds_all (s : str) :
  forallb (fun x => match digit x with Some _ => true | None => false end) s
  = true ->
  forall acc, (0 <= acc)%Z ->
  exists v, digits (Some acc) s = Some v
            /\ (acc * 10 ^ Z.of_nat (List.length s) <= v
                < (acc + 1) * 10 ^ Z.of_nat (List.length s))%Z.
Proof.
  induction s as [|c s IH]; intros Hs acc Hacc.
  - exists acc. split; [reflexivity|]. cbn [List.length Z.of_nat]. lia.
  - cbn [forallb] in Hs. apply andb_true_iff in Hs. destruct Hs as [Hc Hs].
    destruct (digit c) as [d|] eqn:Ed; [|discriminate].
    destruct (digit_range c d Ed) as [Hd _].
    destruct (IH Hs (10 * acc + d)%Z ltac:(lia)) as (v & Ev & Hv).
    exists v. cbn [digits]. rewrite Ed. split; [exact Ev|].
    cbn [List.length]. rewrite Nat2Z.inj_succ, Z.pow_succ_r by lia.
    assert (0 < 10 ^ Z.of_nat (List.length s))%Z
      by (apply Z.pow_pos_nonneg; lia).
    nia.
Qed.

Lemma digits_same_length (s : str) : forall (t : str) (acc acc' : Z),
  forallb (fun x => match digit x with Some _ => true | None => false end) s
  = true ->
  forallb (fun x => match digit x with Some _ => true | None => false end) t
  = true ->
  List.length s = List.length t -> (0 <= acc)%Z -> (0 <= acc')%Z ->
  digits (Some acc) s = digits (Some acc') t -> acc = acc' /\ s = t.
Proof.
  induction s as [|c s IH]; intros [|c' t] acc acc' Hs Ht Hl Ha Ha' E;
    try discriminate Hl.
  - inversion E. auto.
  - cbn [forallb] in Hs, Ht. apply andb_true_iff in Hs, Ht.
    destruct Hs as [Hc Hs], Ht as [Hc' Ht].
    destruct (digit c) as [d|] eqn:Ed; [|discriminate].
    destruct (digit c') as [d'|] eqn:Ed'; [|discriminate].
    destruct (digit_range c d Ed) as [Hd _].
    destruct (digit_range c' d' Ed') as [Hd' _].
    cbn [digits] in E. rewrite Ed, Ed' in E.
    destruct (IH t (10 * acc + d)%Z (10 * acc' + d')%Z Hs Ht
                ltac:(cbn [List.length] in Hl; lia) ltac:(lia) ltac:(lia) E)
      as [Hv ->].
    assert (acc = acc') by lia. assert (d = d') by lia. subst.
    split; [reflexivity|]. f_equal. exact (digit_inj c c' d' Ed Ed').
Qed.

(** A number is the array index of one name. *)
Lemma array_index_inj (a b : str) (n : Z) :
  array_index a = Some n -> array_index b = Some n -> a = b.
Proof.
  assert (Hshape : forall k m, array_index k = Some m ->
            exists c rest d,
              k = c :: rest /\ digit c = Some d /\
              forallb (fun x => match digit x with
                                | Some _ => true | None => false end) rest
              = true /\
              (rest = [] \/ (1 <= d)%Z) /\
              digits (Some d) rest = Some m).
  { intros k m H. unfold array_index in H. destruct k as [|c rest];
      [discriminate|].
    destruct (forallb _ (c :: rest)) eqn:Hall; [|discriminate].
    cbn [andb] in H.
    destruct (is_nil rest || negb (chr_eqb c "0"%char)) eqn:Hlead;
      [|discriminate].
    cbn [forallb] in Hall. apply andb_true_iff in Hall.
    destruct Hall as [Hc Hrest].
    destruct (digit c) as [d|] eqn:Ed; [|discriminate].
    cbn [digits] in H. rewrite Ed in H.
    change (10 * 0 + d)%Z with d in H.
    destruct (digits (Some d) rest) as [v|] eqn:Ev; [|discriminate].
    destruct (v <=? 4294967294)%Z; [|discriminate]. inversion H; subst v.
    exists c, rest, d. repeat split; try assumption.
    apply orb_true_iff in Hlead. destruct Hlead as [Hn|Hz].
    - left. destruct rest; [reflexivity|discriminate].
    - right. destruct (digit_range c d Ed) as [Hd Hcode].
      destruct (Z.eq_dec d 0) as [->|]; [|lia].
      exfalso. apply negb_true_iff in Hz.
      assert (c = "0"%char).
      { rewrite <- (ascii_nat_embedding c). unfold code in Hcode.
        rewrite Hcode. reflexivity. }
      subst c. discriminate Hz. }
  assert (Hlen : forall (rest rest' : str) d d' m,
            forallb (fun x => match digit x with
                              | Some _ => true | None => false end) rest
            = true ->
            forallb (fun x => match digit x with
                              | Some _ => true | None => false end) rest'
            = true ->
            (0 <= d <= 9)%Z -> (1 <= d')%Z ->
            digits (Some d) rest = Some m -> digits (Some d') rest' = Some m ->
            List.length rest < List.length rest' -> False).
  { intros rest rest' d d' m Hr Hr' Hd Hd' E E' Hlt.
    destruct (digits_bounds_all rest Hr d ltac:(lia)) as (v & Ev & Hv).
    destruct (digits_bounds_all rest' Hr' d' ltac:(lia)) as (v' & Ev' & Hv').
    rewrite E in Ev. rewrite E' in Ev'. inversion Ev; inversion Ev'; subst.
    assert (Hp : (10 * 10 ^ Z.of_nat (List.length rest)
                  <= 10 ^ Z.of_nat (List.length rest'))%Z).
    { rewrite <- Z.pow_succ_r by lia. apply Z.pow_le_mono_r; lia. }
    assert (0 < 10 ^ Z.of_nat (List.length rest))%Z
      by (apply Z.pow_pos_nonneg; lia).
    assert (0 < 10 ^ Z.of_nat (List.length rest'))%Z
      by (apply Z.pow_pos_nonneg; lia).
    nia. }
  intros Ha Hb.
  destruct (Hshape a n Ha) as (c & rest & d & -> & Ed & Hr & Hlead & E).
  destruct (Hshape b n Hb) as (c' & rest' & d' & -> & Ed' & Hr' & Hlead' & E').
  destruct (digit_range c d Ed) as [Hd _].
  destruct (digit_range c' d' Ed') as [Hd' _].
  destruct (Nat.lt_trichotomy (List.length rest) (List.length rest'))
    as [Hlt|[Heq|Hgt]].
  - exfalso. destruct Hlead' as [->|H1]; [cbn in Hlt; lia|].
    exact (Hlen rest rest' d d' n Hr Hr' Hd H1 E E' Hlt).
  - destruct (digits_same_length rest rest' d d' Hr Hr' Heq
                ltac:(lia) ltac:(lia) ltac:(rewrite E, E'; reflexivity))
      as [-> ->].
    f_equal. exact (digit_inj c c' d' Ed Ed').
  - exfalso. destruct Hlead as [->|H1]; [cbn in Hgt; lia|].
    exact (Hlen rest' rest d' d n Hr' Hr Hd' H1 E' E Hgt).
Qed.

Lemma goes_before_plain (key other : str) :
  plain_key key = true -> goes_before key other = false.
Proof.
  unfold plain_key, goes_before. destruct (array_index key);
    [discriminate|reflexivity].
Qed.

(** In an object, the array indices are before the other names, in
    the order of their numbers. *)
Lemma ordered_split {V : Type} (o : list (str * V)) :
  keys_ordered o = true -> NoDup (map fst o) ->
  map fst o
  = filter (fun k => negb (plain_key k)) (map fst o)
    ++ filter plain_key (map fst o)
  /\ StronglySorted index_lt
       (filter (fun k => negb (plain_key k)) (map fst o)).
Proof.
  induction o as [|[k v] o IH]; intros Ho Hnd.
  - split; [reflexivity|constructor].
  - cbn [keys_ordered] in Ho. apply andb_true_iff in Ho.
    destruct Ho as [Hk Ho]. cbn [map fst] in Hnd.
    inversion Hnd as [|x l Hx Hl]; subst.
    destruct (IH Ho Hl) as [Hsplit Hsorted].
    cbn [map fst filter]. destruct (plain_key k) eqn:Ek; cbn [negb].
    + assert (Hnone : filter (fun k => negb (plain_key k)) (map fst o) = []).
      { rewrite forallb_forall in Hk.
        clear -Hk Ek. induction o as [|[a w] o IH]; [reflexivity|].
        cbn [map fst filter].
        destruct (plain_key a) eqn:Ea; cbn [negb].
        - apply IH. intros x Hx. apply Hk. right. exact Hx.
        - exfalso. specialize (Hk (a, w) (or_introl eq_refl)).
          cbn [fst] in Hk. apply negb_true_iff in Hk.
          unfold goes_before, plain_key in *.
          destruct (array_index a); [|discriminate].
          destruct (array_index k); discriminate. }
      rewrite Hnone in *. cbn [app] in *. split; [|constructor].
      f_equal. exact Hsplit.
    + split; [cbn [app]; f_equal; exact Hsplit|].
      constructor; [exact Hsorted|].
      apply Forall_forall. intros x Hin. apply filter_In in Hin.
      destruct Hin as [Hin Hidx]. apply negb_true_iff in Hidx.
      rewrite forallb_forall in Hk. apply in_map_iff in Hin.
      destruct Hin as ([x' w] & Ex & Hin). cbn [fst] in Ex. subst x'.
      specialize (Hk (x, w) Hin). cbn [fst] in Hk.
      apply negb_true_iff in Hk.
      unfold index_lt. unfold goes_before in Hk. unfold plain_key in Ek, Hidx.
      destruct (array_index k) as [n|] eqn:En; [|discriminate].
      destruct (array_index x) as [m|] eqn:Em; [|discriminate].
      apply Z.ltb_ge in Hk.
      destruct (Z.eq_dec n m) as [->|Hne]; [|lia].
      exfalso. apply Hx. rewrite (array_index_inj k x m En Em).
      apply in_map_iff. exists (x, w). auto.
Qed.

Lemma add_property_filter {V : Type} (P : str -> bool)
    (o : list (str * V)) (key : str) (v : V) :
  P key = false ->
  filter P (map fst (add_property o key v)) = filter P (map fst o).
Proof.
  intros HP. induction o as [|[a w] o IH]; cbn [add_property map fst filter].
  - rewrite HP. reflexivity.
  - destruct (goes_before key a); cbn [map fst filter].
    + rewrite HP. reflexivity.
    + rewrite IH. reflexivity.
Qed.

Lemma filter_filter {A : Type} (P Q : A -> bool) (l : list A) :
  filter P (filter Q l) = filter (fun x => P x && Q x) l.
Proof.
  induction l as [|x l IH]; [reflexivity|]. cbn [filter].
  destruct (Q x); cbn [filter]; rewrite ?andb_true_r, ?andb_false_r;
    [destruct (P x)|]; rewrite IH; reflexivity.
Qed.

Lemma filter_same {A : Type} (P Q : A -> bool) (l : list A) :
  (forall x, P x = Q x) -> filter P l = filter Q l.
Proof.
  intros H. induction l as [|x l IH]; [reflexivity|].
  cbn [filter]. rewrite H, IH. reflexivity.
Qed.

(** The names that are not array indices are kept in the order in
    which the reduction meets them first. *)
Lemma reduce_sort_names (flags : list bool) (sortBy : list str) :
  forall (acc : list (str * Z)) (index : nat),
  filter plain_key (map fst (Chain.reduce_sort flags acc index sortBy))
  = filter plain_key (map fst acc)
    ++ filter (fun x => negb (includes (filter plain_key (map fst acc)) x))
         (first_occurrences (filter plain_key sortBy)).
Proof.
  induction sortBy as [|key after IH]; intros acc index.
  - cbn. rewrite app_nil_r. reflexivity.
  - cbn [Chain.reduce_sort]. rewrite IH. clear IH.
    set (v := match nth_error flags index with
              | Some true => (-1)%Z
              | _ => 1%Z
              end).
    set (N := filter plain_key (map fst acc)).
    cbn [filter]. destruct (plain_key key) eqn:Ek.
    + unfold set_property. destruct (has_property acc key) eqn:Eh.
      * rewrite replace_property_keys. fold N.
        assert (Hin : includes N key = true).
        { unfold includes. apply existsb_exists. exists key.
          split; [|apply str_eqb_refl]. unfold N. apply filter_In.
          split; [apply has_property_In; exact Eh|exact Ek]. }
        cbn [first_occurrences filter]. rewrite Hin. cbn [negb].
        f_equal. rewrite filter_filter. apply filter_same. intros x.
        destruct (str_eqb x key) eqn:Ex; cbn [negb];
          rewrite ?andb_true_r, ?andb_false_r; [|reflexivity].
        apply str_eqb_eq in Ex. subst x. rewrite Hin. reflexivity.
      * rewrite (add_property_plain _ _ _ Ek), map_app, filter_app.
        cbn [map fst filter]. rewrite Ek. fold N.
        assert (Hout : includes N key = false).
        { destruct (includes N key) eqn:E; [|reflexivity].
          apply includes_In in E. unfold N in E. apply filter_In in E.
          destruct E as [E _]. apply has_property_In in E.
          rewrite E in Eh. discriminate. }
        cbn [first_occurrences filter]. rewrite Hout. cbn [negb].
        rewrite <- app_assoc. cbn [app]. f_equal. f_equal.
        rewrite filter_filter. apply filter_same. intros x.
        unfold includes. rewrite existsb_app. cbn [existsb].
        rewrite orb_false_r, negb_orb. reflexivity.
    + unfold set_property. destruct (has_property acc key).
      * rewrite replace_property_keys. reflexivity.
      * rewrite (add_property_filter plain_key _ _ _ Ek). reflexivity.
Qed.

(** The sort keys are the field names, each one once, in the order of
    the properties of an object: first the names that are array
    indices, in the order of their numbers, then the other names, in
    the order in which [sortBy] has them first. *)
Theorem sort_keys_in_object_order (this : Cursor) (sortBy : str)
    (sortDesc : option str) :
  is_nil sortBy = false ->
  exists sort indices,
    Chain.dataTableSort this (Some sortBy) sortDesc = CSort this sort
    /\ map fst sort
       = indices ++ first_occurrences (filter plain_key (split "," sortBy))
    /\ StronglySorted index_lt indices
    /\ forall k, In k indices
                 <-> In k (split "," sortBy) /\ plain_key k = false.
Proof.
  intros Hne. unfold Chain.dataTableSort. rewrite Hne.
  eexists. eexists. split; [reflexivity|].
  match goal with
  | |- context [Chain.reduce_sort ?flags [] 0 ?keys] =>
      destruct (reduce_sort_object flags keys [] 0 eq_refl (NoDup_nil _))
        as (H1 & H2 & H3);
      pose proof (reduce_sort_names flags keys [] 0) as H4;
      destruct (ordered_split _ H1 H2) as [H5 H6]
  end.
  cbn [map filter app] in H4.
  rewrite (filter_all (fun x : str => negb (includes [] x))) in H4
    by (intros; reflexivity).
  rewrite H4 in H5. split; [exact H5|]. split; [exact H6|].
  intros k. rewrite filter_In, H3. cbn [map In]. rewrite negb_true_iff.
  tauto.
Qed.

Lemma sort_keys_in_object_order_witness :
  is_nil ("b,2,a,10,b,1,01" : str) = false /\
  Chain.dataTableSort Fresh (Some ("b,2,a,10,b,1,01" : str)) None
  = CSort Fresh [ ("1" : str, 1%Z); ("2" : str, 1%Z); ("10" : str, 1%Z);
                  ("b" : str, 1%Z); ("a" : str, 1%Z); ("01" : str, 1%Z) ] /\
  first_occurrences (filter plain_key (split "," "b,2,a,10,b,1,01"))
  = [ "b" : str; "a" : str; "01" : str ] /\
  exists sort indices,
    Chain.dataTableSort Fresh (Some ("b,2,a,10,b,1,01" : str)) None
    = CSort Fresh sort
    /\ map fst sort
       = indices
         ++ first_occurrences (filter plain_key (split "," "b,2,a,10,b,1,01"))
    /\ StronglySorted index_lt indices
    /\ forall k, In k indices
                 <-> In k (split "," "b,2,a,10,b,1,01")
                     /\ plain_key k = false.
Proof.
  split; [reflexivity|]. split; [reflexivity|]. split; [reflexivity|].
  exact (sort_keys_in_object_order Fresh "b,2,a,10,b,1,01" None eq_refl).
Defined.

(** ** dataTableSearch *)

(** With a search text, [dataTableSearch] makes one [find] whose
    [$and] holds a copy of the conditions that the query has at the
    call and a [$text]; [$text] has the properties of the search
    options and, when these have no [$search], the search text as
    [$search]: a [$search] among the options replaces the text. *)
Theorem search_text_and_options (this : Cursor) (search : str)
    (params : list (str * option_value)) :
  is_nil search = false ->
  NoDup (map fst params) ->
  exists text,
    Chain.dataTableSearch this search (Some params)
    = CFind this (AndOf (_conditions this) text)
    /\ forall key,
         get_property text key
         = match get_property params key with
           | Some v => Some v
           | None => get_property [("$search" : str, OString search)] key
           end.
Proof.
  intros Hne Hnd. unfold Chain.dataTableSearch. rewrite Hne.
  eexists. split; [reflexivity|].
  intros key. apply get_spread. exact Hnd.
Qed.

Lemma search_text_and_options_witness :
  is_nil ("coffee" : str) = false /\
  NoDup (map fst [ ("$language" : str, OString "en");
                   ("$search" : str, OString "tea") ]) /\
  Chain.dataTableSearch (CFind Fresh (OrOf [ [ Pred "a" (PStr "1") ] ]))
    "coffee" (Some [ ("$language" : str, OString "en");
                     ("$search" : str, OString "tea") ])
  = CFind (CFind Fresh (OrOf [ [ Pred "a" (PStr "1") ] ]))
      (AndOf (Merged NoConditions (OrOf [ [ Pred "a" (PStr "1") ] ]))
         [ ("$search" : str, OString "tea");
           ("$language" : str, OString "en") ]) /\
  exists text,
    Chain.dataTableSearch (CFind Fresh (OrOf [ [ Pred "a" (PStr "1") ] ]))
      "coffee" (Some [ ("$language" : str, OString "en");
                       ("$search" : str, OString "tea") ])
    = CFind (CFind Fresh (OrOf [ [ Pred "a" (PStr "1") ] ]))
        (AndOf (_conditions (CFind Fresh (OrOf [ [ Pred "a" (PStr "1") ] ])))
           text)
    /\ forall key,
         get_property text key
         = match get_property [ ("$language" : str, OString "en");
                                ("$search" : str, OString "tea") ] key with
           | Some v => Some v
           | None => get_property [("$search" : str, OString "coffee")] key
           end.
Proof.
  assert (Hnd : NoDup (map fst [ ("$language" : str, OString "en");
                                 ("$search" : str, OString "tea") ])).
  { repeat constructor; cbn; intros H;
      repeat (destruct H as [H|H]; [discriminate|]); exact H. }
  split; [reflexivity|]. split; [exact Hnd|]. split; [reflexivity|].
  exact (search_text_and_options
           (CFind Fresh (OrOf [ [ Pred "a" (PStr "1") ] ])) "coffee"
           [ ("$language" : str, OString "en");
             ("$search" : str, OString "tea") ] eq_refl Hnd).
Defined.

(** ** dataTableGetFilterList: more on its rows *)

(** The rows are those of the groups of the flattened occurrences, in
    another order. *)
Lemma filter_list_groups {document : Type}
    (resolve : str -> document -> option value)
    (value_leb : value -> value -> bool)
    (collection : list document) (field : str) :
  Permutation
    (dataTableGetFilterList document resolve value_leb collection field)
    (project_result
       (group_count (map Some (occurrences resolve collection field)))).
Proof.
  unfold dataTableGetFilterList. rewrite unwound_occurrences.
  apply sort_value_perm.
Qed.

Lemma times_perm (v : value) (a b : list value) :
  Permutation a b -> times v a = times v b.
Proof.
  unfold times. induction 1 as [|x a b _ IH|x y a|a b c _ IH1 _ IH2];
    cbn [filter]; [reflexivity| | |congruence].
  - destruct (value_eqb v x); cbn [List.length]; congruence.
  - destruct (value_eqb v x), (value_eqb v y); reflexivity.
Qed.

Lemma times_present (v : value) (l : list value) : 1 <= times v l -> In v l.
Proof.
  unfold times. induction l as [|x l IH]; cbn [filter List.length]; [lia|].
  destruct (value_eqb v x) eqn:E.
  - intros _. left. symmetry. apply value_eqb_eq. exact E.
  - intros H. right. exact (IH H).
Qed.

(** The groups of two lists with the same values are the same groups,
    in another order. *)
Lemma counts_perm (g g' : list (value * nat)) (l l' : list value) :
  counts g l -> counts g' l' -> Permutation l l' -> Permutation g g'.
Proof.
  intros (Hnd & Hn & Hall & _) (Hnd' & Hn' & Hall' & _) Hp.
  assert (Hin : forall (a b : list (value * nat)) (x y : list value),
            (forall k n, In (k, n) a -> n = times k x /\ 1 <= n) ->
            (forall k n, In (k, n) b -> n = times k y /\ 1 <= n) ->
            (forall v, In v y -> In v (keys b)) ->
            Permutation x y ->
            forall p, In p a -> In p b).
  { intros a b x y Ha Hb Hkeys Hxy [k n] Hp'.
    destruct (Ha k n Hp') as [-> Hpos].
    apply times_present in Hpos.
    apply (Permutation_in _ Hxy), Hkeys in Hpos.
    unfold keys in Hpos. apply in_map_iff in Hpos.
    destruct Hpos as ([k' n'] & Hk & Hin'). cbn [fst] in Hk. subst k'.
    destruct (Hb k n' Hin') as [-> _].
    rewrite (times_perm k x y Hxy). exact Hin'. }
  apply NoDup_Permutation.
  - apply (NoDup_map_inv fst). exact Hnd.
  - apply (NoDup_map_inv fst). exact Hnd'.
  - intros p. split.
    + apply (Hin g g' l l'); assumption.
    + apply (Hin g' g l' l); try assumption. symmetry. exact Hp.
Qed.

Lemma occurrences_perm {document : Type}
    (resolve : str -> document -> option value)
    (a b : list document) (field : str) :
  Permutation a b ->
  Permutation (occurrences resolve a field) (occurrences resolve b field).
Proof. unfold occurrences. apply Permutation_flat_map. Qed.

(** A document whose value [$unwind] gives no row for has no
    occurrence. *)
Lemma occurrences_missing {document : Type}
    (resolve : str -> document -> option value)
    (collection : list document) (field : str) :
  occurrences resolve
    (filter (fun d => negb (is_missing (resolve field d))) collection) field
  = occurrences resolve collection field.
Proof.
  unfold occurrences.
  induction collection as [|d l IH]; [reflexivity|].
  cbn [filter flat_map].
  destruct (resolve field d) as [[ |z|s|[|x vs]]|] eqn:E;
    cbn [is_missing negb flat_map]; rewrite ?E, IH; reflexivity.
Qed.

(** The occurrences of a field whose values are scalars are the
    values of the documents. *)
Lemma occurrences_scalar {document : Type}
    (resolve : str -> document -> option value)
    (collection : list document) (field : str) :
  (forall d, In d collection -> is_scalar (resolve field d) = true) ->
  map Some (occurrences resolve collection field)
  = map (resolve field) collection.
Proof.
  unfold occurrences.
  induction collection as [|d l IH]; intros H; [reflexivity|].
  cbn [flat_map map]. rewrite map_app.
  rewrite IH by (intros x Hx; apply H; right; exact Hx).
  specialize (H d (or_introl eq_refl)).
  destruct (resolve field d) as [[ |z|s|vs]|]; try discriminate; reflexivity.
Qed.

(** The documents that have nothing for the field, [null] or an
    empty array give no row and change no count: the rows are those
    of the rest of the collection. *)
Theorem missing_values_give_no_row (document : Type)
    (resolve : str -> document -> option value)
    (value_leb : value -> value -> bool)
    (collection : list document) (field : str) :
  dataTableGetFilterList document resolve value_leb
    (filter (fun d => negb (is_missing (resolve field d))) collection) field
  = dataTableGetFilterList document resolve value_leb collection field.
Proof.
  unfold dataTableGetFilterList.
  rewrite !unwound_occurrences, occurrences_missing. reflexivity.
Qed.

(** For a field whose values are numbers and strings, there is one
    row for each value that a document has, the count of a row is the
    number of the documents with its value, and the counts add up to
    the number of the documents. *)
Theorem scalar_field_counts (document : Type)
    (resolve : str -> document -> option value)
    (value_leb : value -> value -> bool)
    (collection : list document) (field : str) :
  (forall d, In d collection -> is_scalar (resolve field d) = true) ->
  let result :=
    dataTableGetFilterList document resolve value_leb collection field in
  (forall r, In r result ->
     count r
     = List.length
         (filter (fun d => match resolve field d with
                           | Some v => value_eqb (value_of r) v
                           | None => false
                           end) collection))
  /\ (forall d, In d collection ->
        exists r, In r result /\ resolve field d = Some (value_of r))
  /\ NoDup (map value_of result)
  /\ total result = List.length collection.
Proof.
  intros Hscalar result.
  pose proof (filter_list_groups resolve value_leb collection field) as Hp.
  fold result in Hp.
  pose proof (occurrences_scalar resolve collection field Hscalar) as Hocc.
  pose proof (group_count_counts (occurrences resolve collection field))
    as (Hnd & Hn & Hall & Hsum).
  set (flattened := occurrences resolve collection field) in *.
  assert (Htimes : forall v,
            times v flattened
            = List.length
                (filter (fun d => match resolve field d with
                                  | Some x => value_eqb v x
                                  | None => false
                                  end) collection)).
  { intros v. unfold times.
    rewrite <- (length_map Some (filter (value_eqb v) flattened)).
    replace (map Some (filter (value_eqb v) flattened))
      with (filter (fun o : option value =>
                      match o with Some x => value_eqb v x | None => false end)
              (map Some flattened)).
    - rewrite Hocc. clear. induction collection as [|d l IH]; [reflexivity|].
      cbn [map filter]. destruct (resolve field d) as [x|].
      + destruct (value_eqb v x); cbn [List.length]; rewrite IH; reflexivity.
      + exact IH.
    - clear. induction flattened as [|x l IH]; [reflexivity|].
      cbn [map filter]. destruct (value_eqb v x); cbn [map]; rewrite IH;
        reflexivity. }
  assert (Hv : map value_of (project_result (group_count (map Some flattened)))
               = keys (group_count (map Some flattened))).
  { unfold project_result, keys. rewrite map_map. reflexivity. }
  split; [|split; [|split]].
  - intros r Hr. apply (Permutation_in _ Hp) in Hr.
    unfold project_result in Hr. apply in_map_iff in Hr.
    destruct Hr as ([k m] & <- & Hin). cbn [count value_of fst snd].
    rewrite <- Htimes. apply Hn. exact Hin.
  - intros d Hd.
    assert (Hin : In (resolve field d) (map Some flattened))
      by (rewrite Hocc; apply in_map; exact Hd).
    apply in_map_iff in Hin. destruct Hin as (v & Ev & Hin).
    apply Hall in Hin. rewrite <- Hv in Hin.
    apply (Permutation_in (l' := map value_of result)) in Hin;
      [|apply Permutation_map; symmetry; exact Hp].
    apply in_map_iff in Hin. destruct Hin as (r & Er & Hr).
    exists r. split; [exact Hr|]. rewrite Er. symmetry. exact Ev.
  - apply (Permutation_NoDup (l := keys (group_count (map Some flattened))));
      [|exact Hnd].
    rewrite <- Hv. apply Permutation_map. symmetry. exact Hp.
  - rewrite (total_perm _ _ Hp), total_project, Hsum.
    rewrite <- (length_map Some flattened), Hocc. apply length_map.
Qed.

Lemma scalar_field_counts_witness :
  (forall d, In d [ Some (VStr "red"); Some (VNum 3); Some (VStr "red") ] ->
             is_scalar ((fun (_ : str) (d : option value) => d) "color" d) = true) /\
  dataTableGetFilterList (option value) (fun _ d => d) number_first
    [ Some (VStr "red"); Some (VNum 3); Some (VStr "red") ] "color"
  = [ mkResult 1 (VNum 3); mkResult 2 (VStr "red") ] /\
  (let result :=
     dataTableGetFilterList (option value) (fun _ d => d) number_first
       [ Some (VStr "red"); Some (VNum 3); Some (VStr "red") ] "color" in
   (forall r, In r result ->
      count r
      = List.length
          (filter (fun d => match (fun (_ : str) (d : option value) => d)
                                    "color" d with
                            | Some v => value_eqb (value_of r) v
                            | None => false
                            end)
             [ Some (VStr "red"); Some (VNum 3); Some (VStr "red") ]))
   /\ (forall d, In d [ Some (VStr "red"); Some (VNum 3); Some (VStr "red") ] ->
         exists r, In r result
                   /\ (fun (_ : str) (d : option value) => d) "color" d
                      = Some (value_of r))
   /\ NoDup (map value_of result)
   /\ total result
      = List.length [ Some (VStr "red"); Some (VNum 3); Some (VStr "red") ]).
Proof.
  assert (Hs : forall d,
            In d [ Some (VStr "red"); Some (VNum 3); Some (VStr "red") ] ->
            is_scalar ((fun (_ : str) (d : option value) => d) "color" d) = true).
  { intros d H. repeat (destruct H as [<-|H]; [reflexivity|]). contradiction. }
  split; [exact Hs|]. split; [reflexivity|].
  exact (scalar_field_counts (option value) (fun _ d => d) number_first
           [ Some (VStr "red"); Some (VNum 3); Some (VStr "red") ] "color" Hs).
Defined.

(** The order of the documents in the collection makes no difference
    for the rows, only for the order of the rows that the store
    compares as equal: the rows of two orders of the collection are
    the same rows. *)
Theorem filter_list_order_independent (document : Type)
    (resolve : str -> document -> option value)
    (value_leb : value -> value -> bool)
    (collection collection' : list document) (field : str) :
  Permutation collection collection' ->
  Permutation
    (dataTableGetFilterList document resolve value_leb collection field)
    (dataTableGetFilterList document resolve value_leb collection' field).
Proof.
  intros Hp.
  rewrite (filter_list_groups resolve value_leb collection field).
  rewrite (filter_list_groups resolve value_leb collection' field).
  unfold project_result. apply Permutation_map.
  apply (counts_perm _ _ (occurrences resolve collection field)
           (occurrences resolve collection' field));
    [apply group_count_counts|apply group_count_counts|].
  apply occurrences_perm. exact Hp.
Qed.

Lemma filter_list_order_independent_witness :
  Permutation example_collection (rev example_collection) /\
  Permutation
    (dataTableGetFilterList (option value) (fun _ d => d) number_first
       example_collection "tags")
    (dataTableGetFilterList (option value) (fun _ d => d) number_first
       (rev example_collection) "tags").
Proof.
  split; [apply Permutation_rev|].
  exact (filter_list_order_independent (option value) (fun _ d => d)
           number_first example_collection (rev example_collection) "tags"
           (Permutation_rev example_collection)).
Defined.

(** ** The grouping loop on any tokens *)

Lemma concat_push_last (orBlocks : list (list str)) (andBlocks : list str) :
  List.concat (push_last (orBlocks, andBlocks))
  = List.concat orBlocks ++ andBlocks.
Proof.
  unfold push_last. destruct andBlocks as [|x l].
  - rewrite app_nil_r. reflexivity.
  - rewrite concat_app. cbn [List.concat]. rewrite app_nil_r. reflexivity.
Qed.

Lemma blocks_loop_evens (n : nat) :
  forall (filters : list str) (delimiter : option str)
         (orBlocks : list (list str)) (andBlocks : list str),
  List.length filters <= n ->
  Forall (fun and => and <> []) orBlocks ->
  delimiter = None \/ andBlocks <> [] ->
  List.concat (push_last (blocks_loop delimiter filters orBlocks andBlocks))
  = List.concat orBlocks ++ andBlocks ++ evens filters
  /\ Forall (fun and => and <> [])
       (push_last (blocks_loop delimiter filters orBlocks andBlocks)).
Proof.
  assert (Hpush : forall (o : list (list str)) (a : list str),
            Forall (fun and => and <> []) o ->
            Forall (fun and => and <> []) (push_last (o, a))).
  { intros o a Ho. unfold push_last. destruct a as [|x l]; [exact Ho|].
    apply Forall_app. split; [exact Ho|]. repeat constructor. discriminate. }
  induction n as [|n IH]; intros filters delimiter orBlocks andBlocks Hn Ho Ha.
  - destruct filters; [|cbn in Hn; lia]. cbn [blocks_loop evens].
    rewrite concat_push_last, app_nil_r. split; [reflexivity|].
    apply Hpush. exact Ho.
  - destruct filters as [|filter after].
    + cbn [blocks_loop evens]. rewrite concat_push_last, app_nil_r.
      split; [reflexivity|]. apply Hpush. exact Ho.
    + cbn [blocks_loop].
      set (state := match delimiter with
                    | Some d => if str_eqb d ";" then (orBlocks ++ [andBlocks], [])
                                else (orBlocks, andBlocks)
                    | None => (orBlocks, andBlocks)
                    end).
      assert (Hs : List.concat (fst state) ++ snd state
                   = List.concat orBlocks ++ andBlocks
                   /\ Forall (fun and => and <> []) (fst state)).
      { unfold state. destruct delimiter as [d|];
          [destruct (str_eqb d ";")|]; cbn [fst snd].
        - destruct Ha as [Ha|Ha]; [discriminate|]. split.
          + rewrite concat_app. cbn [List.concat].
            rewrite !app_nil_r. reflexivity.
          + apply Forall_app. split; [exact Ho|].
            repeat constructor. exact Ha.
        - split; [reflexivity|exact Ho].
        - split; [reflexivity|exact Ho]. }
      destruct state as [o a]. cbn [fst snd] in Hs. destruct Hs as [Hc Hf].
      cbn [evens]. destruct after as [|d after'].
      * rewrite concat_push_last, app_assoc, Hc, <- app_assoc.
        split; [reflexivity|]. apply Hpush. exact Hf.
      * destruct (IH after' (Some d) o (a ++ [filter])) as [H1 H2];
          [cbn in Hn; lia|exact Hf|right; destruct a; discriminate|].
        split; [|exact H2].
        rewrite H1, app_assoc, app_assoc, Hc, <- !app_assoc. reflexivity.
Qed.

(** The loop reads the tokens at the even positions, in their order,
    whatever the tokens are: a token at an odd position is only
    compared with [;], and no group is empty. *)
Theorem only_even_positions_are_read (filters : list str) :
  List.concat (blocks filters) = evens filters
  /\ Forall (fun and => and <> []) (blocks filters).
Proof.
  unfold blocks.
  destruct (blocks_loop_evens (List.length filters) filters None [] []
              (le_n _) (Forall_nil _) (or_introl eq_refl)) as [H1 H2].
  split; [exact H1|exact H2].
Qed.

(** ** dataTablePaginate: the pages *)

(** With an itemsPerPage that is a safe integer, the pages from 1 on
    whose offsets are safe integers are windows that follow each
    other: the offset of a page is the offset of the page before plus
    the limit. Every page below 1 that is a safe integer is the
    page 1. *)
Theorem pages_are_adjacent (options : Options) (q : Query) (b : arg)
    (p p' i : Z) :
  given b = true -> numeric b = Num i -> safe i = true ->
  (1 <= p)%Z -> safe (p + 1) = true -> safe (p * Z.max i 0) = true ->
  (p' <= 1)%Z -> safe p' = true ->
  (exists offset limit,
     dataTablePaginate options q (ANumber (Num p)) b
     = Limit (Skip q (Num offset)) (Num limit)
     /\ dataTablePaginate options q (ANumber (Num (p + 1))) b
        = Limit (Skip q (Num (offset + limit))) (Num limit)
     /\ (0 <= offset)%Z /\ (0 <= limit)%Z
     /\ safe (offset + limit) = true)
  /\ dataTablePaginate options q (ANumber (Num p')) b
     = dataTablePaginate options q (ANumber (Num 1)) b.
Proof.
  intros Gb Hb Si Hp Sp1 Spi Hp' Sp'.
  assert (Sp : safe p = true).
  { unfold safe in *. apply Z.ltb_lt in Sp1. apply Z.ltb_lt. lia. }
  assert (Hm : (0 <= Z.max i 0)%Z) by lia.
  assert (Spi' : safe (Z.max (p - 1) 0 * Z.max i 0) = true).
  { unfold safe in *. apply Z.ltb_lt in Spi. apply Z.ltb_lt.
    rewrite (Z.max_l (p - 1) 0) by lia.
    assert ((p - 1) * Z.max i 0 <= p * Z.max i 0)%Z
      by (apply Z.mul_le_mono_nonneg_r; lia).
    assert (0 <= (p - 1) * Z.max i 0)%Z
      by (apply Z.mul_nonneg_nonneg; lia).
    assert (0 <= p * Z.max i 0)%Z by (apply Z.mul_nonneg_nonneg; lia).
    lia. }
  assert (Spi'' : safe (Z.max (p + 1 - 1) 0 * Z.max i 0) = true).
  { replace (Z.max (p + 1 - 1) 0) with p by lia. exact Spi. }
  split.
  - exists ((p - 1) * Z.max i 0)%Z, (Z.max i 0).
    rewrite (paginate_numbers options q (ANumber (Num p)) b p i eq_refl Gb
               eq_refl Hb Sp Si Spi').
    rewrite (paginate_numbers options q (ANumber (Num (p + 1))) b (p + 1) i
               eq_refl Gb eq_refl Hb Sp1 Si Spi'').
    replace (Z.max (p - 1) 0) with (p - 1)%Z by lia.
    replace (Z.max (p + 1 - 1) 0) with p by lia.
    replace ((p - 1) * Z.max i 0 + Z.max i 0)%Z with (p * Z.max i 0)%Z by ring.
    split; [reflexivity|]. split; [reflexivity|].
    split; [apply Z.mul_nonneg_nonneg; lia|]. split; [lia|exact Spi].
  - assert (S0 : safe (Z.max (p' - 1) 0 * Z.max i 0) = true)
      by (rewrite (Z.max_r (p' - 1) 0) by lia; reflexivity).
    assert (S1 : safe (Z.max (1 - 1) 0 * Z.max i 0) = true) by reflexivity.
    rewrite (paginate_numbers options q (ANumber (Num p')) b p' i eq_refl Gb
               eq_refl Hb Sp' Si S0).
    rewrite (paginate_numbers options q (ANumber (Num 1)) b 1 i eq_refl Gb
               eq_refl Hb eq_refl Si S1).
    rewrite (Z.max_r (p' - 1) 0) by lia. reflexivity.
Qed.

Lemma pages_are_adjacent_witness :
  given (AString "20") = true /\ numeric (AString "20") = Num 20 /\
  safe 20 = true /\ (1 <= 3)%Z /\ safe (3 + 1) = true /\
  safe (3 * Z.max 20 0) = true /\ (-2 <= 1)%Z /\ safe (-2) = true /\
  dataTablePaginate default_options AllDocuments (ANumber (Num 3))
    (AString "20")
  = Limit (Skip AllDocuments (Num 40)) (Num 20) /\
  dataTablePaginate default_options AllDocuments (ANumber (Num 4))
    (AString "20")
  = Limit (Skip AllDocuments (Num 60)) (Num 20) /\
  (exists offset limit,
     dataTablePaginate default_options AllDocuments (ANumber (Num 3))
       (AString "20")
     = Limit (Skip AllDocuments (Num offset)) (Num limit)
     /\ dataTablePaginate default_options AllDocuments (ANumber (Num (3 + 1)))
          (AString "20")
        = Limit (Skip AllDocuments (Num (offset + limit))) (Num limit)
     /\ (0 <= offset)%Z /\ (0 <= limit)%Z
     /\ safe (offset + limit) = true)
  /\ dataTablePaginate default_options AllDocuments (ANumber (Num (-2)))
       (AString "20")
     = dataTablePaginate default_options AllDocuments (ANumber (Num 1))
         (AString "20").
Proof.
  split; [reflexivity|]. split; [reflexivity|]. split; [reflexivity|].
  split; [lia|]. split; [reflexivity|]. split; [reflexivity|].
  split; [lia|]. split; [reflexivity|]. split; [reflexivity|].
  split; [reflexivity|].
  exact (pages_are_adjacent default_options AllDocuments (AString "20")
           3 (-2) 20 eq_refl eq_refl eq_refl ltac:(lia) eq_refl eq_refl
           ltac:(lia) eq_refl).
Defined.

(** ** dataTableFilter: white space around the pieces *)

Lemma space_not_syntax (c : ascii) :
  is_space c = true -> none_of ":,()" c = true.
Proof.
  destruct c as [[] [] [] [] [] [] [] []]; intros H; try reflexivity;
    discriminate H.
Qed.

Lemma blank_space (s : str) : blank s = true -> forallb is_space s = true.
Proof.
  apply forallb_weaken. intros c H. apply andb_true_iff in H. tauto.
Qed.

Lemma blank_chars (s : str) :
  blank s = true -> forallb (fun c => none_of ":,()" c && dot c) s = true.
Proof.
  apply forallb_weaken. intros c H. apply andb_true_iff in H.
  destruct H as [Hs Hd]. rewrite (space_not_syntax c Hs), Hd. reflexivity.
Qed.

Lemma padded_chars (a b v : str) :
  blank a = true -> blank b = true -> piece_ok v = true ->
  forallb (fun c => none_of ":,()" c && dot c) (a ++ v ++ b) = true.
Proof.
  intros Ha Hb Hv.
  rewrite !forallb_app, (blank_chars a Ha), (blank_chars b Hb),
    (piece_chars v Hv).
  reflexivity.
Qed.

Lemma trim_start_spaces (a s : str) :
  forallb is_space a = true -> trim_start (a ++ s) = trim_start s.
Proof.
  induction a as [|c a IH]; intros H; [reflexivity|].
  cbn [forallb] in H. apply andb_true_iff in H. destruct H as [Hc Ha].
  cbn [app trim_start]. rewrite Hc. exact (IH Ha).
Qed.

(** [trim] drops the white space around a piece. *)
Lemma trim_padded (a b v : str) :
  forallb is_space a = true -> forallb is_space b = true ->
  piece_ok v = true -> trim (a ++ v ++ b) = v.
Proof.
  intros Ha Hb Hv. unfold piece_ok in Hv. rewrite !andb_true_iff in Hv.
  destruct Hv as [[_ Hfirst] Hlast].
  assert (Hrev : forallb is_space (rev b) = true).
  { apply forallb_forall. intros x Hx. apply in_rev in Hx.
    rewrite forallb_forall in Hb. exact (Hb x Hx). }
  unfold trim. rewrite (trim_start_spaces a _ Ha).
  destruct v as [|c v].
  - cbn [app]. rewrite <- (app_nil_r b), (trim_start_spaces b [] Hb).
    reflexivity.
  - rewrite (trim_start_id ((c :: v) ++ b) Hfirst).
    rewrite rev_app_distr, (trim_start_spaces (rev b) _ Hrev).
    rewrite (trim_start_id (rev (c :: v)) Hlast). apply rev_involutive.
Qed.

Section Loose.
Variable s : str.
Hypothesis chars : forallb (fun c => none_of ":,()" c && dot c) s = true.

Lemma loose_none_of (cs : str) :
  (forall x, In x cs -> In x (":,()" : str)) -> forallb (none_of cs) s = true.
Proof.
  intros Hsub.
  apply (forallb_weaken (fun c => none_of ":,()" c && dot c)); [|exact chars].
  intros c H. apply andb_true_iff in H. destruct H as [H _].
  exact (none_of_sub cs _ c Hsub H).
Qed.

Lemma loose_not (x : ascii) :
  In x (":,()" : str) -> forallb (fun c => negb (chr_eqb c x)) s = true.
Proof.
  intros Hx. apply (forallb_weaken (none_of [x])).
  - intros c. unfold none_of, one_of. cbn [existsb].
    rewrite orb_false_r. auto.
  - apply loose_none_of. intros y [<-|[]]. exact Hx.
Qed.

Lemma loose_dot : forallb dot s = true.
Proof.
  apply (forallb_weaken (fun c => none_of ":,()" c && dot c)); [|exact chars].
  intros c H. apply andb_true_iff in H. tauto.
Qed.
End Loose.

(** A clause with one argument whose pieces have no colon, comma,
    parenthesis or line terminator compiles to what the dispatch
    gives for its trimmed pieces. *)
Lemma compile_filter_loose (pattern_ok : str -> bool)
    (f operation : str) (vs : list str) :
  field_text f = true ->
  forallb (forallb (fun c => none_of ":,()" c && dot c)) (operation :: vs)
  = true ->
  compile_filter pattern_ok (clause f (argument operation vs))
  = (r <- compile_params pattern_ok f
            (default_match (map trim (operation :: vs))) ;;
     Ok (match r with Some e => [e] | None => [] end)).
Proof.
  intros Hf Hall. cbn [forallb] in Hall. apply andb_true_iff in Hall.
  destruct Hall as [Ho Hvs].
  assert (Hvs' : forall P : ascii -> bool,
            (forall v, forallb (fun c => none_of ":,()" c && dot c) v = true ->
                       forallb P v = true) ->
            forallb (forallb P) vs = true).
  { intros P HP. revert Hvs. apply forallb_weaken. exact HP. }
  rewrite compile_filter_clause; [|exact Hf|].
  - rewrite split_none.
    + cbn [mapM]. unfold compile_argument.
      rewrite split_argument.
      * destruct (compile_params _ _ _) as [r|e]; [|reflexivity].
        cbn [bind List.concat]. rewrite app_nil_r. reflexivity.
      * apply (loose_not _ Ho). cbn. tauto.
      * apply Hvs'. intros v Hv. apply (loose_not _ Hv). cbn. tauto.
    + apply argument_forallb; [reflexivity| |].
      * apply (loose_not _ Ho). cbn. tauto.
      * apply Hvs'. intros v Hv. apply (loose_not _ Hv). cbn. tauto.
  - unfold args_text. apply andb_true_iff. split.
    + apply argument_forallb; [reflexivity|apply loose_dot; exact Ho|].
      apply Hvs'. apply loose_dot.
    + apply argument_forallb; [reflexivity| |].
      * apply (loose_none_of _ Ho). cbn. tauto.
      * apply Hvs'. intros v Hv. apply (loose_none_of _ Hv). cbn. tauto.
Qed.

Lemma args_ok_loose (operation v : str) (vs : list str) :
  forallb (forallb (fun c => none_of ":,()" c && dot c)) (operation :: v :: vs)
  = true ->
  args_ok (argument operation (v :: vs)) = true.
Proof.
  intros Hall. rewrite forallb_forall in Hall.
  pose proof (Hall operation (or_introl eq_refl)) as Ho.
  assert (Hvs : forallb (forallb (fun c => none_of ":,()" c && dot c))
                  (v :: vs) = true)
    by (apply forallb_forall; intros x Hx; apply Hall; right; exact Hx).
  unfold args_ok. apply andb_true_iff. split.
  - unfold argument. destruct operation; reflexivity.
  - apply argument_forallb; [reflexivity| |].
    + apply (loose_none_of _ Ho). cbn. tauto.
    + revert Hvs. apply forallb_weaken. intros x Hx.
      apply (loose_none_of _ Hx). cbn. tauto.
Qed.

Section Spaced.
Variables a b : str.
Hypothesis blank_a : blank a = true.
Hypothesis blank_b : blank b = true.
Variable c : Clause.
Hypothesis ok : clause_ok c = true.

Lemma spaced_chars :
  forallb (forallb (fun x => none_of ":,()" x && dot x))
    (c_operation (spaced a b c) :: c_value (spaced a b c)
       :: c_more (spaced a b c)) = true.
Proof.
  pose proof (clause_operation_ok c ok) as Ho.
  pose proof (clause_pieces_ok c ok) as Hvs.
  cbn [forallb] in Hvs. apply andb_true_iff in Hvs. destruct Hvs as [Hv Hvs].
  cbn [spaced c_operation c_value c_more forallb].
  rewrite (padded_chars a b _ blank_a blank_b Ho),
    (padded_chars a b _ blank_a blank_b Hv).
  cbn [andb]. clear Ho Hv. induction (c_more c) as [|v vs IH]; [reflexivity|].
  cbn [forallb] in Hvs. apply andb_true_iff in Hvs. destruct Hvs as [Hv Hvs].
  cbn [map forallb]. rewrite (padded_chars a b v blank_a blank_b Hv).
  exact (IH Hvs).
Qed.

Lemma spaced_trim :
  map trim (c_operation (spaced a b c) :: c_value (spaced a b c)
              :: c_more (spaced a b c))
  = c_operation c :: c_value c :: c_more c.
Proof.
  pose proof (clause_operation_ok c ok) as Ho.
  pose proof (clause_pieces_ok c ok) as Hvs.
  cbn [forallb] in Hvs. apply andb_true_iff in Hvs. destruct Hvs as [Hv Hvs].
  cbn [spaced c_operation c_value c_more map].
  rewrite !(trim_padded a b) by
    (try apply blank_space; assumption).
  f_equal. f_equal. rewrite map_map.
  induction (c_more c) as [|v vs IH]; [reflexivity|].
  cbn [forallb] in Hvs. apply andb_true_iff in Hvs. destruct Hvs as [Hv' Hvs].
  cbn [map]. rewrite (trim_padded a b v) by
    (try apply blank_space; assumption).
  rewrite (IH Hvs). reflexivity.
Qed.

(** The white space around the pieces of a clause makes no
    difference for what the clause compiles to. *)
Lemma compile_spaced (pattern_ok : str -> bool) :
  compile_filter pattern_ok (clause_text (spaced a b c))
  = compile_filter pattern_ok (clause_text c).
Proof.
  unfold clause_text, clause_args.
  change (c_field (spaced a b c)) with (c_field c).
  rewrite (compile_filter_loose pattern_ok _ _ _ (clause_field_text c ok)
             spaced_chars).
  rewrite spaced_trim.
  rewrite (compile_filter_argument pattern_ok _ _ _ (clause_field_text c ok)
             (clause_operation_ok c ok) (clause_pieces_ok c ok)).
  reflexivity.
Qed.

Lemma spaced_args_ok : args_ok (clause_args (spaced a b c)) = true.
Proof. apply args_ok_loose. exact spaced_chars. Qed.

End Spaced.

Lemma groups_of_map {A B : Type} (g : A -> B) (cs : list (ascii * A)) :
  forall current,
  groups_of (map g current) (map (fun p => (fst p, g (snd p))) cs)
  = map (map g) (groups_of current cs).
Proof.
  induction cs as [|[d c] cs IH]; intros current; [reflexivity|].
  cbn [map fst snd groups_of]. destruct (chr_eqb d ";"%char).
  - cbn [map]. f_equal. apply (IH [c]).
  - rewrite <- IH, map_app. reflexivity.
Qed.

Lemma mapM_ext {A B : Type} (f g : A -> result B) (l : list A) :
  (forall a, In a l -> f a = g a) -> mapM f l = mapM g l.
Proof.
  induction l as [|a l IH]; intros H; [reflexivity|].
  cbn [mapM]. rewrite (H a) by (left; reflexivity).
  rewrite IH by (intros x Hx; apply H; right; exact Hx). reflexivity.
Qed.

(** White space around the operation names and the values is
    dropped: a text whose pieces are written between white space that
    is no line terminator compiles to what the text without that
    white space compiles to. *)
Theorem spaces_around_pieces_ignored (pattern_ok : str -> bool) (q : Query)
    (a b : str) (c : Clause) (cs : list (ascii * Clause)) :
  blank a = true -> blank b = true ->
  delimiters_ok cs = true ->
  forallb clause_ok (c :: map snd cs) = true ->
  dataTableFilter pattern_ok q
    (filter_of (spaced a b c)
       (map (fun p => (fst p, spaced a b (snd p))) cs))
  = dataTableFilter pattern_ok q (filter_of c cs).
Proof.
  intros Ha Hb Hd Hok. pose proof Hok as Hall.
  cbn [forallb] in Hok. apply andb_true_iff in Hok. destruct Hok as [Hc Hcs].
  assert (Hshape : clauses_ok
                     (shape (map (fun p => (fst p, spaced a b (snd p))) cs))
                   = true).
  { clear -Ha Hb Hd Hcs. unfold delimiters_ok, clauses_ok, shape in *.
    induction cs as [|[d x] cs IH]; [reflexivity|].
    cbn [map forallb fst snd] in *.
    apply andb_true_iff in Hd. destruct Hd as [Hd Hds].
    apply andb_true_iff in Hcs. destruct Hcs as [Hx Hxs].
    rewrite Hd, (IH Hds Hxs), (spaced_args_ok a b Ha Hb x Hx).
    cbn [spaced c_field]. rewrite (clause_field_ok x Hx). reflexivity. }
  unfold filter_of, clause_text.
  change (c_field (spaced a b c)) with (c_field c).
  rewrite (dataTableFilter_text pattern_ok q _ _ _ (clause_field_ok c Hc)
             (spaced_args_ok a b Ha Hb c Hc) Hshape).
  rewrite (dataTableFilter_text pattern_ok q _ _ _ (clause_field_ok c Hc)
             (clause_args_ok c Hc) (shape_ok cs Hd Hcs)).
  change [clause (c_field c) (clause_args (spaced a b c))]
    with (map clause_text [spaced a b c]).
  change [clause (c_field c) (clause_args c)] with (map clause_text [c]).
  rewrite !and_groups_shape.
  change [spaced a b c] with (map (spaced a b) [c]).
  rewrite groups_of_map, !mapM_map.
  rewrite (mapM_ext _ (fun g => compile_and pattern_ok (map clause_text g)));
    [reflexivity|].
  intros g Hg. unfold compile_and. rewrite !mapM_map.
  rewrite (mapM_ext _ (fun x => compile_filter pattern_ok (clause_text x)));
    [reflexivity|].
  intros x Hx. apply compile_spaced; [exact Ha|exact Hb|].
  rewrite forallb_forall in Hall. apply Hall.
  destruct (groups_of_In cs [c] g x Hg Hx) as [[<-|[]]|H];
    [left; reflexivity|right; exact H].
Qed.

Lemma spaces_around_pieces_ignored_witness :
  blank " " = true /\ blank "  " = true /\
  delimiters_ok
    [ (","%char, mkClause "name" "match" "Bob" [ "i" : str ]) ] = true /\
  forallb clause_ok
    (mkClause "age" "gte" "18" [] ::
     map snd [ (","%char, mkClause "name" "match" "Bob" [ "i" : str ]) ])
  = true /\
  dataTableFilter plain_pattern AllDocuments
    "age( gte  : 18  ),name( match  : Bob  : i  )"
  = dataTableFilter plain_pattern AllDocuments
      "age(gte:18),name(match:Bob:i)".
Proof.
  split; [reflexivity|]. split; [reflexivity|]. split; [reflexivity|].
  split; [reflexivity|].
  exact (spaces_around_pieces_ignored plain_pattern AllDocuments " " "  "
           (mkClause "age" "gte" "18" [])
           [ (","%char, mkClause "name" "match" "Bob" [ "i" : str ]) ]
           eq_refl eq_refl eq_refl eq_refl).
Defined.

(** ** dataTable: the order of the calls *)

(** With a filter that compiles to an [$or], a search text and a
    sort, [dataTable] makes the calls in this order: [find] with the
    [$or] of the filter, [find] with the [$and] of the search, whose
    copy of the conditions holds the [$or] of the filter, [sort],
    [skip], [limit]. [resultCount] counts the documents that the
    conditions after the two [find] accept. *)
Theorem dataTable_pipeline
    (pattern_ok : str -> bool) (options : Options)
    (document : Type) (resolve : str -> document -> option value)
    (value_leb : value -> value -> bool) (collection : list document)
    (matches : conditions -> document -> bool)
    (exec : Cursor -> list document)
    (this : Cursor) (params : Partial.QueryOptions)
    (terms search sortBy : str) (or : list (list entry)) :
  no_list (Partial.getFilterList params) = true ->
  Partial.filter params = Some terms ->
  dataTableFilter pattern_ok AllDocuments terms = Ok (Find AllDocuments or) ->
  Partial.search params = Some search -> is_nil search = false ->
  Partial.sortBy params = Some sortBy -> is_nil sortBy = false ->
  exists text sort skip limit,
    let filtered := Merged (_conditions this) (OrOf or) in
    let searched := Merged filtered (AndOf filtered text) in
    Chain.dataTable pattern_ok options document resolve value_leb
      collection matches exec this params
    = Ok (mkPaginatedResult
            (Documents
               (exec (CLimit
                        (CSkip
                           (CSort
                              (CFind (CFind this (OrOf or))
                                 (AndOf filtered text))
                              sort)
                           skip)
                        limit)))
            (List.length (filter (matches searched) collection))
            (List.length collection)).
Proof.
  intros Hl Hf Hc Hs Hsn Hb Hbn. unfold Chain.dataTable.
  rewrite Hf, Hs, Hb, chain_filter, Hc.
  assert (E : forall A (x : ascii -> str -> A) (y : A) g, no_list g = true ->
            match g with Some (c :: f) => x c f | _ => y end = y)
    by (intros A x y [[|]|]; intros; try reflexivity; discriminate).
  rewrite (E _ _ _ _ Hl). clear E. cbn [bind].
  unfold Chain.dataTableSearch, Chain.dataTableSort. rewrite Hsn, Hbn.
  unfold Chain.dataTablePaginated, Chain.dataTablePaginate.
  do 4 eexists. cbv zeta. reflexivity.
Qed.

Lemma dataTable_pipeline_witness :
  no_list (Partial.getFilterList
             (Partial.mkQueryOptions (ANumber (Num 2)) (ANumber (Num 10)) None
                (Some ("age(gte:18)" : str)) (Some ("bob" : str)) None
                (Some ("name" : str)) (Some ("true" : str)))) = true /\
  dataTableFilter plain_pattern AllDocuments "age(gte:18)"
  = Ok (Find AllDocuments [ [ Pred "age" (POp "$gte" (One "18")) ] ]) /\
  is_nil ("bob" : str) = false /\ is_nil ("name" : str) = false /\
  Chain.dataTable plain_pattern default_options (option value)
    (fun _ d => d) number_first example_collection
    (fun _ d => is_scalar d) (fun c => []) Fresh
    (Partial.mkQueryOptions (ANumber (Num 2)) (ANumber (Num 10)) None
       (Some ("age(gte:18)" : str)) (Some ("bob" : str)) None
       (Some ("name" : str)) (Some ("true" : str)))
  = Ok (mkPaginatedResult (Documents []) 1 5) /\
  exists text sort skip limit,
    let filtered :=
      Merged (_conditions Fresh)
        (OrOf [ [ Pred "age" (POp "$gte" (One "18")) ] ]) in
    let searched := Merged filtered (AndOf filtered text) in
    Chain.dataTable plain_pattern default_options (option value)
      (fun _ d => d) number_first example_collection
      (fun _ d => is_scalar d) (fun c => []) Fresh
      (Partial.mkQueryOptions (ANumber (Num 2)) (ANumber (Num 10)) None
         (Some ("age(gte:18)" : str)) (Some ("bob" : str)) None
         (Some ("name" : str)) (Some ("true" : str)))
    = Ok (mkPaginatedResult
            (Documents
               ((fun c : Cursor => @nil (option value))
                  (CLimit
                     (CSkip
                        (CSort
                           (CFind
                              (CFind Fresh
                                 (OrOf [ [ Pred "age" (POp "$gte" (One "18")) ] ]))
                              (AndOf filtered text))
                           sort)
                        skip)
                     limit)))
            (List.length
               (filter ((fun (_ : conditions) (d : option value) => is_scalar d)
                          searched) example_collection))
            (List.length example_collection)).
Proof.
  split; [reflexivity|]. split; [reflexivity|]. split; [reflexivity|].
  split; [reflexivity|]. split; [reflexivity|].
  exact (dataTable_pipeline plain_pattern default_options (option value)
           (fun _ d => d) number_first example_collection
           (fun _ d => is_scalar d) (fun c => []) Fresh
           (Partial.mkQueryOptions (ANumber (Num 2)) (ANumber (Num 10)) None
              (Some ("age(gte:18)" : str)) (Some ("bob" : str)) None
              (Some ("name" : str)) (Some ("true" : str)))
           "age(gte:18)" "bob" "name"
           [ [ Pred "age" (POp "$gte" (One "18")) ] ]
           eq_refl eq_refl eq_refl eq_refl eq_refl eq_refl eq_refl).
Defined.
